(** * AskAI: the deduplicated Q&A store and the streaming session

    A shallow embedding of the Go packages [internal/vector], [internal/ui]
    and [internal/llm] of AskAI.

    - Go errors are identified with their message; [fmt.Errorf("p: %w", e)]
      is string concatenation.
    - Everything outside the process (the Qdrant server, the Ollama HTTP
      service, the vault directory, the uuid and clock sources, the loggers)
      lives in one [World] value that is threaded through the code by a
      small state-and-error monad.
    - Channels are cells of a heap, goroutines are program counters, and a
      schedule (a list of thread labels) drives the interleaving. *)

From Stdlib Require Import QArith DecimalString.
From stdpp Require Import gmap strings list.

(** ** Go values *)

Definition error := string.

Inductive Result (A : Type) : Type :=
| Ok (a : A)
| Err (e : error).
Arguments Ok {A} a.
Arguments Err {A} e.


(** [fmt.Errorf(prefix + ": %w", err)] *)
Definition Errorf_w (prefix : string) (err : error) : error :=
  prefix +:+ ": " +:+ err.

(** [%d] of a non-negative integer. *)
Definition show_nat (n : nat) : string :=
  NilEmpty.string_of_uint (Nat.to_uint n).

(** [float32].  The only arithmetic the code performs on floats is in
    [DummyEmbedder.Embed], whose quotients [b/256] (b < 256) and [i/1024]
    (i < 1024) are dyadic and exactly representable, so rationals are exact. *)
Definition float32 := Q.

(** ** Wire types of the Qdrant client ([pb]) *)

(** [pb.Value]: the payload value kinds (nested struct and list kinds are
    never written nor read by this program). *)
Inductive Value :=
| NullValue
| DoubleValue (d : float32)
| IntegerValue (i : Z)
| StringValue (s : string)
| BoolValue (b : bool).

(** The generated getter: the string of a string value, [""] otherwise. *)
Definition GetStringValue (v : Value) : string :=
  match v with StringValue s => s | _ => "" end.

Record PointStruct := {
  Id : string;
  Vector : list float32;
  Payload : gmap string Value;
}.

(** [pb.ScoredPoint]; the score is never read by the program.  A point
    without payload entries arrives with a nil payload map. *)
Record ScoredPoint := {
  sp_Id : string;
  sp_Payload : option (gmap string Value);
}.

(** ** The world outside the process *)

Inductive Level := INFO | ERROR.

Record LogEntry := {
  log_level : Level;
  log_msg : string;
  log_err : option error;
  log_fields : list (string * string);
}.

(** JSON documents are kept at the level of what [encoding/json] decodes
    them to: a document that unmarshals to a list of Q&A records, or one
    that does not parse. *)
Record QA := {
  Question : string;
  Answer : string;
  Time : nat;
}.

Record QAFile := { QAs : list QA }.

Inductive FileData :=
| JSON (doc : QAFile)
| Garbage (raw : string).

Inductive Event :=
| EvLogger (e : LogEntry)                      (* internal/logger *)
| EvPrintf (msg : string)                      (* log.Printf *)
| EvHTTP (url : string) (model prompt : string)
| EvSearch (vector : list float32) (limit : nat) (ok : bool)
| EvUpsert (p : PointStruct) (ok : bool)
| EvGetCollection (ok : bool)
| EvCreateCollection (size : nat) (ok : bool)
| EvDeleteCollection (ok : bool)
| EvMkdirAll (path : string) (ok : bool)
| EvStat (name : string) (ok : bool)
| EvWriteFile (name : string) (data : FileData) (ok : bool).

(** Outcome the environment decides for one remote call or system call. *)
Inductive Reply :=
| Succeed
| Fail (msg : error)            (* fails with nothing done *)
| FailLate (msg : error).       (* fails with part of its effect in place *)

(** Outcome of one HTTP exchange with the embedding service: a transport
    error, or a response with its status and the decoding of its body. *)
Inductive HttpReply :=
| HttpFail (msg : error)
| HttpResponse (StatusCode : nat) (Status : string) (body : Result (list float32)).

Record World := {
  w_collection : option nat;        (* [Some d]: the collection exists, with dimension [d] *)
  w_points : list PointStruct;      (* its records, oldest first *)
  w_file : option FileData;         (* vault/que_ans.json, [None] when absent *)
  w_script : list Reply;            (* outcomes of the coming rpc and file-system calls *)
  w_http : list HttpReply;          (* outcomes of the coming HTTP exchanges *)
  w_uuid : nat;                     (* uuid source *)
  w_now : nat;                      (* clock *)
  w_trace : list Event;             (* what has been done so far, oldest first *)
}.

Definition set_collection (c : option nat) (w : World) : World :=
  {| w_collection := c; w_points := w_points w; w_file := w_file w;
     w_script := w_script w; w_http := w_http w; w_uuid := w_uuid w;
     w_now := w_now w; w_trace := w_trace w |}.

Definition set_points (ps : list PointStruct) (w : World) : World :=
  {| w_collection := w_collection w; w_points := ps; w_file := w_file w;
     w_script := w_script w; w_http := w_http w; w_uuid := w_uuid w;
     w_now := w_now w; w_trace := w_trace w |}.

Definition set_file (f : option FileData) (w : World) : World :=
  {| w_collection := w_collection w; w_points := w_points w; w_file := f;
     w_script := w_script w; w_http := w_http w; w_uuid := w_uuid w;
     w_now := w_now w; w_trace := w_trace w |}.

Definition set_script (s : list Reply) (w : World) : World :=
  {| w_collection := w_collection w; w_points := w_points w; w_file := w_file w;
     w_script := s; w_http := w_http w; w_uuid := w_uuid w;
     w_now := w_now w; w_trace := w_trace w |}.

Definition set_http (s : list HttpReply) (w : World) : World :=
  {| w_collection := w_collection w; w_points := w_points w; w_file := w_file w;
     w_script := w_script w; w_http := s; w_uuid := w_uuid w;
     w_now := w_now w; w_trace := w_trace w |}.

Definition set_uuid (n : nat) (w : World) : World :=
  {| w_collection := w_collection w; w_points := w_points w; w_file := w_file w;
     w_script := w_script w; w_http := w_http w; w_uuid := n;
     w_now := w_now w; w_trace := w_trace w |}.

Definition set_now (n : nat) (w : World) : World :=
  {| w_collection := w_collection w; w_points := w_points w; w_file := w_file w;
     w_script := w_script w; w_http := w_http w; w_uuid := w_uuid w;
     w_now := n; w_trace := w_trace w |}.

Definition set_trace (t : list Event) (w : World) : World :=
  {| w_collection := w_collection w; w_points := w_points w; w_file := w_file w;
     w_script := w_script w; w_http := w_http w; w_uuid := w_uuid w;
     w_now := w_now w; w_trace := t |}.

(** ** The monad of effectful Go code: state passing, with [error] results *)

Definition M (A : Type) : Type := World -> Result A * World.

Definition ret {A} (a : A) : M A := fun w => (Ok a, w).

Definition fail {A} (e : error) : M A := fun w => (Err e, w).

(** [x, err := c; if err != nil { return err }; k x] *)
Definition bind {A B} (c : M A) (k : A -> M B) : M B :=
  fun w => match c w with
           | (Ok a, w') => k a w'
           | (Err e, w') => (Err e, w')
           end.

(** [x, err := c] with the error kept as a value. *)
Definition catch {A} (c : M A) : M (Result A) :=
  fun w => match c w with (r, w') => (Ok r, w') end.

(** [if err != nil { return fmt.Errorf(prefix + ": %w", err) }] *)
Definition wrap {A} (prefix : string) (c : M A) : M A :=
  fun w => match c w with
           | (Ok a, w') => (Ok a, w')
           | (Err e, w') => (Err (Errorf_w prefix e), w')
           end.

Declare Scope go_scope.
Delimit Scope go_scope with go.
Notation "x <- c ;; k" := (bind c (fun x => k))
  (at level 100, c at next level, right associativity) : go_scope.
Notation "c ;;; k" := (bind c (fun _ => k))
  (at level 100, right associativity) : go_scope.
Open Scope go_scope.

Definition emit (e : Event) : M unit :=
  fun w => (Ok tt, set_trace (w_trace w ++ [e]) w).

(** The environment's verdict on the next rpc or system call; an exhausted
    script means the call goes through. *)
Definition next_reply : M Reply :=
  fun w => match w_script w with
           | [] => (Ok Succeed, w)
           | r :: s => (Ok r, set_script s w)
           end.

(** The next HTTP exchange; with nothing scripted the service is down. *)
Definition next_http : M HttpReply :=
  fun w => match w_http w with
           | [] => (Ok (HttpFail "connection refused"), w)
           | r :: s => (Ok r, set_http s w)
           end.

(** [uuid.New().String()] *)
Definition uuid_New : M string :=
  fun w => (Ok (show_nat (w_uuid w)), set_uuid (S (w_uuid w)) w).

(** [time.Now()] *)
Definition time_Now : M nat :=
  fun w => (Ok (w_now w), set_now (S (w_now w)) w).

(** [t.Format(time.RFC3339)], kept as the decimal tick count. *)
Definition Format_RFC3339 (t : nat) : string := show_nat t.

Definition logger_Info (msg : string) (fields : list (string * string)) : M unit :=
  emit (EvLogger {| log_level := INFO; log_msg := msg; log_err := None;
                    log_fields := fields |}).

Definition logger_Error (msg : string) (err : error)
    (fields : list (string * string)) : M unit :=
  emit (EvLogger {| log_level := ERROR; log_msg := msg; log_err := Some err;
                    log_fields := fields |}).

Definition log_Printf (msg : string) : M unit := emit (EvPrintf msg).

Definition get_world : M World := fun w => (Ok w, w).

(** An rpc or system call that takes effect only when it succeeds. *)
Definition call : M unit :=
  r <- next_reply ;;
  match r with
  | Succeed => ret tt
  | Fail msg | FailLate msg => fail msg
  end.

(** ** The Qdrant server and the vault directory

    The remote side of [pb.PointsClient] and [pb.CollectionsClient], for the
    one collection the program addresses.  The server checks the dimension
    of every vector it is sent against the collection's; the order of
    search results is the server's business and is a parameter here. *)

Definition has_keyword (key keyword : string) (p : PointStruct) : bool :=
  match Payload p !! key with
  | Some (StringValue s) => bool_decide (s = keyword)
  | _ => false
  end.

Definition to_scored (p : PointStruct) : ScoredPoint :=
  {| sp_Id := Id p;
     sp_Payload := if decide (Payload p = ∅) then None else Some (Payload p) |}.

(** Upsert: overwrite the record with the same id, or add a new one. *)
Fixpoint upsert_point (p : PointStruct) (ps : list PointStruct) : list PointStruct :=
  match ps with
  | [] => [p]
  | p' :: ps' =>
      if bool_decide (Id p' = Id p) then p :: ps' else p' :: upsert_point p ps'
  end.

Definition dimension_ok (vector : list float32) (w : World) : Result unit :=
  match w_collection w with
  | None => Err "Not found: Collection doesn't exist"
  | Some d =>
      if bool_decide (length vector = d) then Ok tt
      else Err "Wrong input: Vector dimension error"
  end.

Definition points_Upsert (p : PointStruct) : M unit :=
  r <- catch call ;;
  w <- get_world ;;
  match r, dimension_ok (Vector p) w with
  | Ok _, Ok _ =>
      emit (EvUpsert p true) ;;;
      fun w => (Ok tt, set_points (upsert_point p (w_points w)) w)
  | Err e, _ | _, Err e => emit (EvUpsert p false) ;;; fail e
  end.

Definition collections_Get : M unit :=
  r <- catch call ;;
  w <- get_world ;;
  match r, w_collection w with
  | Ok _, Some _ => emit (EvGetCollection true)
  | Err e, _ => emit (EvGetCollection false) ;;; fail e
  | _, None => emit (EvGetCollection false) ;;; fail "not found"
  end.

Definition collections_Create (size : nat) : M unit :=
  r <- catch call ;;
  w <- get_world ;;
  match r, w_collection w with
  | Ok _, None =>
      emit (EvCreateCollection size true) ;;;
      fun w => (Ok tt, set_points [] (set_collection (Some size) w))
  | Err e, _ => emit (EvCreateCollection size false) ;;; fail e
  | _, Some _ => emit (EvCreateCollection size false) ;;; fail "already exists"
  end.

Definition collections_Delete : M unit :=
  r <- catch call ;;
  match r with
  | Ok _ =>
      emit (EvDeleteCollection true) ;;;
      fun w => (Ok tt, set_points [] (set_collection None w))
  | Err e => emit (EvDeleteCollection false) ;;; fail e
  end.

Definition os_MkdirAll (path : string) : M unit :=
  r <- catch call ;;
  match r with
  | Ok _ => emit (EvMkdirAll path true)
  | Err e => emit (EvMkdirAll path false) ;;; fail e
  end.

(** What [_, err := os.Stat(name)] gives: nil, an error for which
    [os.IsNotExist] holds, or another error. *)
Inductive StatResult :=
| StatOk
| StatNotExist
| StatError (err : error).

(** [os.Stat]: a system call like the others; when it goes through it
    finds the file or finds it missing. *)
Definition os_Stat (name : string) : M StatResult :=
  r <- catch call ;;
  w <- get_world ;;
  match r, w_file w with
  | Err e, _ => emit (EvStat name false) ;;; ret (StatError e)
  | Ok _, Some _ => emit (EvStat name true) ;;; ret StatOk
  | Ok _, None => emit (EvStat name true) ;;; ret StatNotExist
  end.

Definition os_ReadFile (name : string) : M FileData :=
  call ;;;
  w <- get_world ;;
  match w_file w with
  | Some data => ret data
  | None => fail "no such file or directory"
  end.

(** [os.WriteFile]: the file is opened with truncation and then written.
    A call that fails either could not open the file, which is then as
    before, or fails later and leaves it cut short. *)
Definition os_WriteFile (name : string) (data : FileData) : M unit :=
  r <- next_reply ;;
  match r with
  | Succeed =>
      emit (EvWriteFile name data true) ;;;
      fun w => (Ok tt, set_file (Some data) w)
  | Fail msg =>
      emit (EvWriteFile name data false) ;;; fail msg
  | FailLate msg =>
      emit (EvWriteFile name data false) ;;;
      fun w => (Err msg, set_file (Some (Garbage "")) w)
  end.

Definition json_Unmarshal (data : FileData) : Result QAFile :=
  match data with
  | JSON doc => Ok doc
  | Garbage _ => Err "invalid character looking for beginning of value"
  end.

Definition json_MarshalIndent (doc : QAFile) : FileData := JSON doc.

Definition filepath_Join (dir name : string) : string := dir +:+ "/" +:+ name.

(** ** Package [vector] *)

Module vector.

Definition defaultCollection : string := "askai_questions".
Definition vectorSize : nat := 1024.

(** [type Embedder interface { Embed(text string) ([]float32, error) }] *)
Record Embedder := { Embed : string -> M (list float32) }.

Record OllamaEmbedder := { baseURL : string; model : string }.

Definition NewOllamaEmbedder (baseURL model : string) : OllamaEmbedder :=
  let baseURL := if bool_decide (baseURL = "") then "http://localhost:11434" else baseURL in
  let model := if bool_decide (model = "") then "mxbai-embed-large" else model in
  {| baseURL := baseURL; model := model |}.

Section WithHTTP.

(** [http.NewRequest(method, url, body)] as far as its error goes: it
    fails for a URL that [net/url] does not parse.  Which URLs those are
    is left open. *)
Variable http_NewRequest : string -> string -> Result unit.

(** [OllamaEmbedder.Embed]; marshalling a struct of two strings does not
    fail. *)
Definition OllamaEmbedder_Embed (e : OllamaEmbedder) (text : string) : M (list float32) :=
  match http_NewRequest "POST" (baseURL e +:+ "/api/embeddings") with
  | Err err => fail (Errorf_w "failed to create request" err)
  | Ok _ =>
      emit (EvHTTP (baseURL e +:+ "/api/embeddings") (model e) text) ;;;
      resp <- next_http ;;
      match resp with
      | HttpFail err => fail (Errorf_w "failed to send request to Ollama" err)
      | HttpResponse StatusCode Status body =>
          if negb (StatusCode =? 200)
          then fail ("ollama API returned non-200 status: " +:+ Status)
          else match body with
               | Err err => fail (Errorf_w "failed to decode Ollama response" err)
               | Ok embedding =>
                   if length embedding =? 0
                   then fail "no embedding data returned from Ollama"
                   else ret embedding
               end
      end
  end.

End WithHTTP.

Definition byte_at (text : string) (i : nat) : nat :=
  match String.get i text with
  | Some c => Ascii.nat_of_ascii c
  | None => 0
  end.

(** [DummyEmbedder.Embed] *)
Definition DummyEmbedder_vector (text : string) : list float32 :=
  (fun i : nat =>
     if i <? String.length text
     then Qmake (Z.of_nat (byte_at text (i mod String.length text))) 256
     else Qmake (Z.of_nat i) 1024) <$> seq 0 1024.

Definition DummyEmbedder_Embed (text : string) : M (list float32) :=
  ret (DummyEmbedder_vector text).

Definition Ollama (http_NewRequest : string -> string -> Result unit)
    (e : OllamaEmbedder) : Embedder :=
  {| Embed := OllamaEmbedder_Embed http_NewRequest e |}.
Definition Dummy : Embedder := {| Embed := DummyEmbedder_Embed |}.

Record VectorStore := {
  collection : string;
  embedder : option Embedder;
}.

Definition NewVectorStore (collection : string) (embedder : option Embedder) : VectorStore :=
  {| collection := collection; embedder := embedder |}.

(** [VectorStore.Embed] *)
Definition VectorStore_Embed (vs : VectorStore) (text : string) : M (list float32) :=
  match embedder vs with
  | None => fail "no embedder configured"
  | Some e => Embed e text
  end.

(** [VectorStore.EnsureCollection] *)
Definition VectorStore_EnsureCollection (vs : VectorStore) (vectorSize : nat) : M unit :=
  logger_Info ("Ensuring collection '" +:+ collection vs +:+ "' exists with vector size "
               +:+ show_nat vectorSize) [] ;;;
  r <- catch collections_Get ;;
  match r with
  | Err _ =>
      logger_Info ("Collection '" +:+ collection vs +:+ "' does not exist, creating it...") [] ;;;
      r' <- catch (collections_Create vectorSize) ;;
      match r' with
      | Err createErr =>
          let errMsg := "failed to create collection '" +:+ collection vs +:+ "'" in
          logger_Error errMsg createErr [] ;;;
          fail (Errorf_w errMsg createErr)
      | Ok _ =>
          logger_Info ("Created collection '" +:+ collection vs +:+ "' with vector size "
                       +:+ show_nat vectorSize) []
      end
  | Ok _ =>
      logger_Info ("Collection '" +:+ collection vs +:+ "' already exists, skipping creation") []
  end.

Definition isNotFoundError (err : error) : bool :=
  bool_decide (err = "not found") || bool_decide (err = "collection not found").

(** [VectorStore.ResetIndex] *)
Definition VectorStore_ResetIndex (vs : VectorStore) : M unit :=
  r <- catch collections_Delete ;;
  match r with
  | Err err =>
      if negb (isNotFoundError err)
      then fail (Errorf_w "failed to delete collection" err)
      else VectorStore_EnsureCollection vs vectorSize
  | Ok _ => VectorStore_EnsureCollection vs vectorSize
  end.

(** [VectorStore.StoreVector] *)
Definition VectorStore_StoreVector (vs : VectorStore) (id : string)
    (vector : list float32) (metadata : gmap string string) : M unit :=
  logger_Info ("Preparing to store vector in collection '" +:+ collection vs
               +:+ "' with ID: " +:+ id) [] ;;;
  let payload : gmap string Value := StringValue <$> metadata in
  let point := {| Id := id; Vector := vector; Payload := payload |} in
  logger_Info "sending upsert request to Qdrant"
              [("point_id", id); ("collection", collection vs)] ;;;
  r <- catch (points_Upsert point) ;;
  match r with
  | Err err =>
      logger_Error "failed to store vector in Qdrant" err
                   [("collection", collection vs); ("point_id", id)] ;;;
      fail (Errorf_w "failed to store vector in Qdrant" err)
  | Ok _ =>
      logger_Info "successfully stored vector in Qdrant"
                  [("point_id", id); ("collection", collection vs)]
  end.

(** The test of the loop body of [QAExists] on one search result. *)
Definition result_matches (question answer : string) (result : ScoredPoint) : bool :=
  match sp_Payload result with
  | None => false
  | Some payload =>
      match payload !! "question", payload !! "answer" with
      | Some storedQ, Some storedA =>
          bool_decide (GetStringValue storedQ = question)
          && bool_decide (GetStringValue storedA = answer)
      | _, _ => false
      end
  end.

(** [for _, result := range searchResult.GetResult() { ... return true ... }
    return false] *)
Fixpoint scan_results (question answer : string) (results : list ScoredPoint) : bool :=
  match results with
  | [] => false
  | result :: rest =>
      if result_matches question answer result then true
      else scan_results question answer rest
  end.

Section WithServer.

(** The server's ordering of the candidates by similarity to the query. *)
Variable rank : list float32 -> list PointStruct -> list PointStruct.

(** [pointsClient.Search] with payloads enabled, a limit, and a [Must]
    condition on one payload keyword. *)
Definition points_Search (vector : list float32) (limit : nat)
    (key keyword : string) : M (list ScoredPoint) :=
  r <- catch call ;;
  w <- get_world ;;
  match r, dimension_ok vector w with
  | Ok _, Ok _ =>
      emit (EvSearch vector limit true) ;;;
      ret (to_scored <$> take limit (rank vector (filter (fun p => has_keyword key keyword p = true) (w_points w))))
  | Err e, _ | _, Err e => emit (EvSearch vector limit false) ;;; fail e
  end.

(** [VectorStore.QAExists] *)
Definition VectorStore_QAExists (vs : VectorStore) (question answer : string) : M bool :=
  embedding <- wrap "failed to embed question" (VectorStore_Embed vs question) ;;
  searchResult <- wrap "search failed" (points_Search embedding 5 "type" "qa_pair") ;;
  ret (scan_results question answer searchResult).

(** The metadata [StoreQA] attaches to the record. *)
Definition qa_metadata (question answer timestamp : string) : gmap string string :=
  <["type" := "qa_pair"]> (<["question" := question]> (<["answer" := answer]>
  (<["stored_at" := timestamp]> (<["vector_type" := "question"]> ∅)))).

(** [VectorStore.StoreQA] *)
Definition VectorStore_StoreQA (vs : VectorStore) (question answer : string)
    (questionEmbedding answerEmbedding : list float32) : M unit :=
  r <- catch (VectorStore_QAExists vs question answer) ;;
  match r with
  | Err err =>
      logger_Error "error searching for similar questions" err [] ;;;
      fail (Errorf_w "failed to check for existing Q&A" err)
  | Ok true =>
      logger_Info "Q&A pair already exists in Qdrant" [("question", question)]
  | Ok false =>
      logger_Info "Storing Q&A"
        [("question", question);
         ("question_vector_size", show_nat (length questionEmbedding));
         ("answer_vector_size", show_nat (length answerEmbedding))] ;;;
      logged_id <- uuid_New ;;
      logger_Info ("Storing vector with ID: " +:+ logged_id +:+ ", vector size: "
                   +:+ show_nat (length questionEmbedding)) [] ;;;
      qaID <- uuid_New ;;
      now <- time_Now ;;
      let timestamp := Format_RFC3339 now in
      r' <- catch (VectorStore_StoreVector vs qaID questionEmbedding
                     (qa_metadata question answer timestamp)) ;;
      match r' with
      | Err err =>
          logger_Error "error storing vector" err [] ;;;
          fail (Errorf_w "failed to store Q&A" err)
      | Ok _ =>
          logger_Info ("Successfully stored Q&A in Qdrant. ID: " +:+ qaID) []
      end
  end.



(** [uint64(limit)] for [limit int32]. *)
Definition uint64_of_int32 (limit : Z) : nat := Z.to_nat (limit mod 2 ^ 64).

(** [VectorStore.SearchSimilarQuestions].  Its filter has the one
    condition under [Should]; the server selects by it what it selects by
    the same condition under [Must]. *)
Definition VectorStore_SearchSimilarQuestions (vs : VectorStore) (question : string)
    (limit : Z) : M (list ScoredPoint) :=
  embedding <- wrap "failed to embed question" (VectorStore_Embed vs question) ;;
  wrap "search failed"
       (points_Search embedding (uint64_of_int32 limit) "type" "qa_pair").


End WithServer.

End vector.

(** ** Channels

    A channel value is nil or the address of a cell; cells of each element
    type live in their own area of the heap. *)

Record Chan (A : Type) := {
  buf : list A;
  cap : nat;
  closed : bool;
}.
Arguments buf {A} c.
Arguments cap {A} c.
Arguments closed {A} c.

Definition chan := option nat.

(** What one channel operation does: it goes through, it has to wait, or
    it panics. *)
Inductive Step (A : Type) : Type :=
| Go (a : A)
| Block
| Panic (msg : string).
Arguments Go {A} a.
Arguments Block {A}.
Arguments Panic {A} msg.

(** [make(chan A, n)] *)
Definition make {A} (n : nat) (cells : list (Chan A)) : chan * list (Chan A) :=
  (Some (length cells), cells ++ [{| buf := []; cap := n; closed := false |}]).

(** [ch <- v] on a buffered channel *)
Definition send {A} (ch : chan) (v : A) (cells : list (Chan A)) : Step (list (Chan A)) :=
  match ch with
  | None => Block
  | Some r =>
      match cells !! r with
      | None => Block
      | Some c =>
          if closed c then Panic "send on closed channel"
          else if length (buf c) <? cap c
               then Go (<[r := {| buf := buf c ++ [v]; cap := cap c; closed := false |}]> cells)
               else Block
      end
  end.

(** [v, ok := <-ch]; [zero] is the zero value of the element type. *)
Definition recv {A} (zero : A) (ch : chan) (cells : list (Chan A))
    : Step (A * bool * list (Chan A)) :=
  match ch with
  | None => Block
  | Some r =>
      match cells !! r with
      | None => Block
      | Some c =>
          match buf c with
          | v :: rest =>
              Go (v, true, <[r := {| buf := rest; cap := cap c; closed := closed c |}]> cells)
          | [] => if closed c then Go (zero, false, cells) else Block
          end
      end
  end.

(** [close(ch)] *)
Definition close {A} (ch : chan) (cells : list (Chan A)) : Step (list (Chan A)) :=
  match ch with
  | None => Panic "close of nil channel"
  | Some r =>
      match cells !! r with
      | None => Panic "close of nil channel"
      | Some c =>
          if closed c then Panic "close of closed channel"
          else Go (<[r := {| buf := buf c; cap := cap c; closed := true |}]> cells)
      end
  end.

(** A receive case of a [select] can proceed. *)
Definition can_recv {A} (ch : chan) (cells : list (Chan A)) : bool :=
  match ch with
  | None => false
  | Some r =>
      match cells !! r with
      | None => false
      | Some c => match buf c with [] => closed c | _ :: _ => true end
      end
  end.

(** A send case of a [select] can proceed (possibly into a panic). *)
Definition can_send {A} (ch : chan) (cells : list (Chan A)) : bool :=
  match ch with
  | None => false
  | Some r =>
      match cells !! r with
      | None => false
      | Some c => closed c || (length (buf c) <? cap c)
      end
  end.

(** A receive can proceed on this cell. *)
Definition ready {A} (c : Chan A) : bool :=
  match buf c with [] => closed c | _ :: _ => true end.

(** The cell once its oldest value has been received. *)
Definition take_head {A} (c : Chan A) : Chan A :=
  {| buf := tail (buf c); cap := cap c; closed := closed c |}.

Record Heap := {
  strings : list (Chan string);
  errors : list (Chan (option error));
  signals : list (Chan unit);
}.

Definition set_strings (cs : list (Chan string)) (h : Heap) : Heap :=
  {| strings := cs; errors := errors h; signals := signals h |}.
Definition set_errors (cs : list (Chan (option error))) (h : Heap) : Heap :=
  {| strings := strings h; errors := cs; signals := signals h |}.
Definition set_signals (cs : list (Chan unit)) (h : Heap) : Heap :=
  {| strings := strings h; errors := errors h; signals := cs |}.

(** The channel field is nil or holds an open channel of the heap. *)
Definition open_or_nil {A} (ch : chan) (cells : list (Chan A)) : bool :=
  match ch with
  | None => true
  | Some r =>
      match cells !! r with
      | Some c => negb (closed c)
      | None => false
      end
  end.

(** The cell once the channel is closed. *)
Definition closed_cell {A} (c : Chan A) : Chan A :=
  {| buf := buf c; cap := cap c; closed := true |}.

(** The cells once the channel [ch] among them is closed. *)
Definition close_in {A} (ch : chan) (cells : list (Chan A)) : list (Chan A) :=
  match ch with
  | Some r =>
      match cells !! r with
      | Some c => <[r := closed_cell c]> cells
      | None => cells
      end
  | None => cells
  end.

(** The channel at [sc] is there, closed or not as [b] says. *)
Definition closed_at {A} (sc : nat) (cells : list (Chan A)) (b : bool) : Prop :=
  exists C, cells !! sc = Some C /\ closed C = b.

(** ** Package [types] *)

Module types.

(** The keys of [tea.KeyMsg] that touch a session. *)
Inductive Key := KeyEsc | KeyCtrlW.

(** The messages [Update] receives: [TokenMsg], [StreamEndMsg],
    [StreamErrMsg] and [StatusMsg] of package [types], a key, or nil. *)
Inductive Msg :=
| TokenMsg (s : string)
| StreamEndMsg
| StreamErrMsg (Err : error)
| StatusMsg (Message : string) (Duration : nat)
| KeyMsg (k : Key)
| NilMsg.

Inductive ScreenMode := ModeChat | ModeOptions.

End types.

(** ** Package [llm]: the producer side of a streaming session *)

Module llm.
Import types.

(** [NextTokenCmd]: one [select] over the error and the token channel.
    [pick_err] is the scheduler's choice when both cases can proceed. *)
Definition NextTokenCmd (ch errCh : chan) (pick_err : bool) (h : Heap) : Step (Msg * Heap) :=
  let err_ready := can_recv errCh (errors h) in
  let ch_ready := can_recv ch (strings h) in
  if err_ready && (pick_err || negb ch_ready) then
    match recv None errCh (errors h) with
    | Go (err, _, cs) =>
        match err with
        | Some e => Go (StreamErrMsg e, set_errors cs h)
        | None => Go (StreamEndMsg, set_errors cs h)
        end
    | Block => Block
    | Panic msg => Panic msg
    end
  else if ch_ready then
    match recv "" ch (strings h) with
    | Go (s, ok, cs) =>
        if ok : bool then Go (TokenMsg s, set_strings cs h)
        else Go (StreamEndMsg, set_strings cs h)
    | Block => Block
    | Panic msg => Panic msg
    end
  else Block.

(** [select { case <-stopCh: ...; case ch <- v: ... }].  [Go None]: the
    stop case was taken; [Go (Some cells)]: the value was sent. *)
Definition select_stop_or_send {A} (pick_stop : bool) (stopCh : chan)
    (sigs : list (Chan unit)) (ch : chan) (v : A) (cells : list (Chan A))
    : Step (option (list (Chan A))) :=
  let stop_ready := can_recv stopCh sigs in
  let send_ready := can_send ch cells in
  if stop_ready && (pick_stop || negb send_ready) then Go None
  else if send_ready then
    match send ch v cells with
    | Go cs => Go (Some cs)
    | Block => Block
    | Panic msg => Panic msg
    end
  else Block.

(** Where the goroutine started by [startStreamCmdWithCallback] stands.
    [completion.ChatStream] calls the callback once per chunk of the answer,
    in order, returns the callback's error as soon as it gives one, and
    otherwise returns what the service call ends with. *)
Inductive PC :=
| InChatStream (rest : list string)              (* chunks still to come *)
| SendResponse (s : string) (rest : list string) (* callback, at [localResponseCh <- s] *)
| SendOut (s : string) (rest : list string)      (* callback, at [localOut <- s] *)
| AfterChatStream                                (* at the hand-over of the full response *)
| SendErr (e : error)                            (* at [localErrCh <- err] *)
| CloseOut
| CloseResponse
| Exited (panicked : bool).

Record Producer := {
  pc : PC;
  fullResponse : string;             (* the [strings.Builder] *)
  err : option error;                (* result of [ChatStream], nil until it returns *)
  localOut : chan;
  localErrCh : chan;
  stopCh : chan;
  localResponseCh : chan;
  final : option error;              (* what the service call will end with *)
}.

Definition at_pc (pc' : PC) (p : Producer) : Producer :=
  {| pc := pc'; fullResponse := fullResponse p; err := err p;
     localOut := localOut p; localErrCh := localErrCh p; stopCh := stopCh p;
     localResponseCh := localResponseCh p; final := final p |}.

Definition returned (e : option error) (p : Producer) : Producer :=
  {| pc := AfterChatStream; fullResponse := fullResponse p; err := e;
     localOut := localOut p; localErrCh := localErrCh p; stopCh := stopCh p;
     localResponseCh := localResponseCh p; final := final p |}.

Definition WriteString (s : string) (p : Producer) : Producer :=
  {| pc := pc p; fullResponse := fullResponse p +:+ s; err := err p;
     localOut := localOut p; localErrCh := localErrCh p; stopCh := stopCh p;
     localResponseCh := localResponseCh p; final := final p |}.

Definition canceled : option error := Some "stream canceled".

(** One step of the producer goroutine.  The third component is the
    response handed to a [sendFullResponse] goroutine started by the step.
    [None]: the goroutine has to wait, or is over.  A panic is caught by the
    deferred [recover] and ends the goroutine. *)
Definition producer_step (pick_stop : bool) (p : Producer) (h : Heap)
    : option (Producer * Heap * option string) :=
  match pc p with
  | InChatStream [] => Some (returned (final p) p, h, None)
  | InChatStream (s :: rest) =>
      if can_recv (stopCh p) (signals h) then Some (returned canceled p, h, None)
      else if bool_decide (s = "") then Some (at_pc (InChatStream rest) p, h, None)
      else
        let p := WriteString s p in
        match localResponseCh p with
        | Some _ => Some (at_pc (SendResponse s rest) p, h, None)
        | None => Some (at_pc (SendOut s rest) p, h, None)
        end
  | SendResponse s rest =>
      match select_stop_or_send pick_stop (stopCh p) (signals h)
                                (localResponseCh p) s (strings h) with
      | Go None => Some (returned canceled p, h, None)
      | Go (Some cs) => Some (at_pc (SendOut s rest) p, set_strings cs h, None)
      | Block => None
      | Panic _ => Some (at_pc (Exited true) p, h, None)
      end
  | SendOut s rest =>
      match select_stop_or_send pick_stop (stopCh p) (signals h)
                                (localOut p) s (strings h) with
      | Go None => Some (returned canceled p, h, None)
      | Go (Some cs) => Some (at_pc (InChatStream rest) p, set_strings cs h, None)
      | Block => None
      | Panic _ => Some (at_pc (Exited true) p, h, None)
      end
  | AfterChatStream =>
      let spawn :=
        match localResponseCh p with
        | Some _ =>
            if can_recv (stopCh p) (signals h) then None
            else Some (fullResponse p)
        | None => None
        end in
      match err p with
      | Some e => Some (at_pc (SendErr e) p, h, spawn)
      | None => Some (at_pc CloseOut p, h, spawn)
      end
  | SendErr e =>
      match select_stop_or_send pick_stop (stopCh p) (signals h)
                                (localErrCh p) (Some e) (errors h) with
      | Go None => Some (at_pc CloseOut p, h, None)
      | Go (Some cs) => Some (at_pc CloseOut p, set_errors cs h, None)
      | Block => None
      | Panic _ => Some (at_pc (Exited true) p, h, None)
      end
  | CloseOut =>
      match localOut p with
      | Some _ =>
          match close (localOut p) (strings h) with
          | Go cs => Some (at_pc CloseResponse p, set_strings cs h, None)
          | Block => None
          | Panic _ => Some (at_pc (Exited true) p, h, None)
          end
      | None => Some (at_pc CloseResponse p, h, None)
      end
  | CloseResponse =>
      match localResponseCh p with
      | Some _ =>
          match close (localResponseCh p) (strings h) with
          | Go cs => Some (at_pc (Exited false) p, set_strings cs h, None)
          | Block => None
          | Panic _ => Some (at_pc (Exited true) p, h, None)
          end
      | None => Some (at_pc (Exited false) p, h, None)
      end
  | Exited _ => None
  end.

(** The goroutine of [sendFullResponse]: one send, a panic is ignored.
    [None]: the send has to wait. *)
Definition sendFullResponse_step (ch : chan) (response : string) (h : Heap)
    : option Heap :=
  match send ch response (strings h) with
  | Go cs => Some (set_strings cs h)
  | Block => None
  | Panic _ => Some h
  end.

(** [startStreamCmdWithCallback]: the goroutine as it starts. *)
Definition startStreamCmdWithCallback (chunks : list string) (final : option error)
    (out errCh stopCh responseCh : chan) : Producer :=
  {| pc := InChatStream chunks; fullResponse := ""; err := None;
     localOut := out; localErrCh := errCh; stopCh := stopCh;
     localResponseCh := responseCh; final := final |}.

End llm.

(** ** Package [ui]: the model and the archive *)

Module ui.
Import vector types.

Record Model := {
  TextInput : string;              (* [TextInput.Value()] *)
  Msg : string;
  ScreenMode : types.ScreenMode;
  LastQuestion : string;
  VectorStore : option vector.VectorStore;
  VaultPath : string;
  ModelName : string;
  StreamCh : chan;
  ErrCh : chan;
  StopCh : chan;
  Streaming : bool;
  EditingModel : bool;
  EditingAPIURL : bool;
}.

Definition set_Msg (v : string) (m : Model) : Model :=
  {| TextInput := TextInput m; Msg := v; ScreenMode := ScreenMode m;
     LastQuestion := LastQuestion m; VectorStore := VectorStore m;
     VaultPath := VaultPath m; ModelName := ModelName m; StreamCh := StreamCh m;
     ErrCh := ErrCh m; StopCh := StopCh m; Streaming := Streaming m;
     EditingModel := EditingModel m; EditingAPIURL := EditingAPIURL m |}.

Definition set_LastQuestion (v : string) (m : Model) : Model :=
  {| TextInput := TextInput m; Msg := Msg m; ScreenMode := ScreenMode m;
     LastQuestion := v; VectorStore := VectorStore m;
     VaultPath := VaultPath m; ModelName := ModelName m; StreamCh := StreamCh m;
     ErrCh := ErrCh m; StopCh := StopCh m; Streaming := Streaming m;
     EditingModel := EditingModel m; EditingAPIURL := EditingAPIURL m |}.

Definition set_StreamCh (v : chan) (m : Model) : Model :=
  {| TextInput := TextInput m; Msg := Msg m; ScreenMode := ScreenMode m;
     LastQuestion := LastQuestion m; VectorStore := VectorStore m;
     VaultPath := VaultPath m; ModelName := ModelName m; StreamCh := v;
     ErrCh := ErrCh m; StopCh := StopCh m; Streaming := Streaming m;
     EditingModel := EditingModel m; EditingAPIURL := EditingAPIURL m |}.

Definition set_ErrCh (v : chan) (m : Model) : Model :=
  {| TextInput := TextInput m; Msg := Msg m; ScreenMode := ScreenMode m;
     LastQuestion := LastQuestion m; VectorStore := VectorStore m;
     VaultPath := VaultPath m; ModelName := ModelName m; StreamCh := StreamCh m;
     ErrCh := v; StopCh := StopCh m; Streaming := Streaming m;
     EditingModel := EditingModel m; EditingAPIURL := EditingAPIURL m |}.

Definition set_StopCh (v : chan) (m : Model) : Model :=
  {| TextInput := TextInput m; Msg := Msg m; ScreenMode := ScreenMode m;
     LastQuestion := LastQuestion m; VectorStore := VectorStore m;
     VaultPath := VaultPath m; ModelName := ModelName m; StreamCh := StreamCh m;
     ErrCh := ErrCh m; StopCh := v; Streaming := Streaming m;
     EditingModel := EditingModel m; EditingAPIURL := EditingAPIURL m |}.

Definition set_Streaming (v : bool) (m : Model) : Model :=
  {| TextInput := TextInput m; Msg := Msg m; ScreenMode := ScreenMode m;
     LastQuestion := LastQuestion m; VectorStore := VectorStore m;
     VaultPath := VaultPath m; ModelName := ModelName m; StreamCh := StreamCh m;
     ErrCh := ErrCh m; StopCh := StopCh m; Streaming := v;
     EditingModel := EditingModel m; EditingAPIURL := EditingAPIURL m |}.

(** [InitialModel]; the model name comes from the configuration. *)
Definition InitialModel (vectorStore : option vector.VectorStore)
    (vaultPath modelName : string) : Model :=
  {| TextInput := ""; Msg := ""; ScreenMode := ModeChat; LastQuestion := "";
     VectorStore := vectorStore; VaultPath := vaultPath; ModelName := modelName;
     StreamCh := None; ErrCh := None; StopCh := None; Streaming := false;
     EditingModel := false; EditingAPIURL := false |}.

Section WithServer.

Variable rank : list float32 -> list PointStruct -> list PointStruct.

(** [Model.StoreQA] *)
Definition Model_StoreQA (m : Model) (question answer : string) : M unit :=
  match VectorStore m with
  | None => fail "vector store is not initialized"
  | Some vs =>
      r <- catch (VectorStore_QAExists rank vs question answer) ;;
      match r with
      | Ok true => ret tt
      | Ok false | Err _ =>
          wrap "failed to create vault directory" (os_MkdirAll (VaultPath m)) ;;;
          let filename := filepath_Join (VaultPath m) "que_ans.json" in
          st <- os_Stat filename ;;
          qas <- (match st with
                  | StatOk =>
                      data <- wrap "failed to read existing Q&A file" (os_ReadFile filename) ;;
                      wrap "failed to parse existing Q&A file"
                           (fun w => (json_Unmarshal data, w))
                  | StatNotExist | StatError _ => ret {| QAs := [] |}
                  end) ;;
          r1 <- catch (VectorStore_Embed vs question) ;;
          match r1 with
          | Err err =>
              log_Printf ("Error embedding question: " +:+ err) ;;;
              fail (Errorf_w "failed to embed question" err)
          | Ok questionEmbedding =>
              r2 <- catch (VectorStore_Embed vs answer) ;;
              match r2 with
              | Err err =>
                  log_Printf ("Error embedding answer: " +:+ err) ;;;
                  fail (Errorf_w "failed to embed answer" err)
              | Ok answerEmbedding =>
                  r3 <- catch (VectorStore_StoreQA rank vs question answer
                                 questionEmbedding answerEmbedding) ;;
                  match r3 with
                  | Err err =>
                      log_Printf ("Error storing Q&A in Qdrant: " +:+ err) ;;;
                      fail (Errorf_w "failed to store Q&A in vector database" err)
                  | Ok _ =>
                      now <- time_Now ;;
                      let newQA := {| Question := question; Answer := answer; Time := now |} in
                      let qas := {| QAs := QAs qas ++ [newQA] |} in
                      let data := json_MarshalIndent qas in
                      wrap "failed to write Q&As to file" (os_WriteFile filename data)
                  end
              end
          end
      end
  end.

End WithServer.

(** *** Indexing the archive again *)

Section Reindex.

Variable rank : list float32 -> list PointStruct -> list PointStruct.

(** How [%.1f] prints [float64(n) / float64(total) * 100]. *)
Variable percent : nat -> nat -> string.

(** The entry has a question and an answer. *)
Definition indexable (qa : QA) : bool :=
  negb (bool_decide (Question qa = "") || bool_decide (Answer qa = "")).

(** The loop of [StoreCurrentQuestion] from entry [i] on, with the count
    of successes and the status message so far; it gives both back. *)
Fixpoint index_QAs (m : Model) (totalQAs : nat) (qas : list QA)
    (i successCount : nat) (StatusMsg : string) : M (nat * string) :=
  match qas with
  | [] => ret (successCount, StatusMsg)
  | qa :: rest =>
      if bool_decide (Question qa = "") || bool_decide (Answer qa = "")
      then
        log_Printf ("Skipping empty Q&A at index " +:+ show_nat i) ;;;
        index_QAs m totalQAs rest (S i) successCount StatusMsg
      else
        let StatusMsg :=
          "Indexing " +:+ show_nat (i + 1) +:+ "/" +:+ show_nat totalQAs
          +:+ " (" +:+ percent (i + 1) totalQAs +:+ "%)..." in
        r <- catch (Model_StoreQA rank m (Question qa) (Answer qa)) ;;
        match r with
        | Err err =>
            let errMsg :=
              "Failed to index Q&A at index " +:+ show_nat i +:+ ": " +:+ err in
            log_Printf errMsg ;;;
            index_QAs m totalQAs rest (S i) successCount errMsg
        | Ok _ => index_QAs m totalQAs rest (S i) (S successCount) StatusMsg
        end
  end.

(** [Model.StoreCurrentQuestion]; the result is the [StatusMsg] it leaves
    in the model (the timers of [setStatus] are left out). *)
Definition Model_StoreCurrentQuestion (m : Model) : M string :=
  let filename := filepath_Join (VaultPath m) "que_ans.json" in
  st <- os_Stat filename ;;
  if match st with StatNotExist => true | _ => false end then
    log_Printf ("Q&A file not found at: " +:+ filename) ;;;
    ret "No Q&A file found to index"
  else
    r <- catch (os_ReadFile filename) ;;
    match r with
    | Err err =>
        let errMsg := "Failed to read Q&A file: " +:+ err in
        log_Printf errMsg ;;; ret errMsg
    | Ok data =>
        match json_Unmarshal data with
        | Err err =>
            let errMsg := "Failed to parse Q&A file: " +:+ err in
            log_Printf errMsg ;;; ret errMsg
        | Ok qaFile =>
            if length (QAs qaFile) =? 0 then
              log_Printf "No Q&A pairs found in the file" ;;;
              ret "No Q&A pairs found to index"
            else
              let totalQAs := length (QAs qaFile) in
              let StatusMsg :=
                "Starting to index " +:+ show_nat totalQAs +:+ " Q&A pairs..." in
              counted <- index_QAs m totalQAs (QAs qaFile) 0 0 StatusMsg ;;
              let successCount := fst counted in
              if 0 <? successCount then
                let msg := "✅ Successfully indexed " +:+ show_nat successCount +:+ "/"
                           +:+ show_nat totalQAs +:+ " Q&A pairs" in
                log_Printf msg ;;; ret msg
              else
                let errMsg := "❌ No valid Q&A pairs were indexed" in
                log_Printf errMsg ;;; ret errMsg
        end
    end.

End Reindex.

(** The questions and answers of the entries that can be indexed. *)
Definition pairs_of (qas : list QA) : list (string * string) :=
  (fun qa => (Question qa, Answer qa)) <$> filter (fun qa => indexable qa = true) qas.

(** One stage of [safeCloseChannels]: close the channel of a field if the
    field is not nil, and set the field to nil. *)
Definition safeClose_StopCh (m : Model) (h : Heap) : Step (Model * Heap) :=
  match StopCh m with
  | None => Go (m, h)
  | Some _ =>
      match close (StopCh m) (signals h) with
      | Go cs => Go (set_StopCh None m, set_signals cs h)
      | Block => Block
      | Panic msg => Panic msg
      end
  end.

Definition safeClose_ErrCh (m : Model) (h : Heap) : Step (Model * Heap) :=
  match ErrCh m with
  | None => Go (m, h)
  | Some _ =>
      match close (ErrCh m) (errors h) with
      | Go cs => Go (set_ErrCh None m, set_errors cs h)
      | Block => Block
      | Panic msg => Panic msg
      end
  end.

Definition close_StreamCh (m : Model) (h : Heap) : Step (Model * Heap) :=
  match StreamCh m with
  | None => Go (m, h)
  | Some _ =>
      match close (StreamCh m) (strings h) with
      | Go cs => Go (set_StreamCh None m, set_strings cs h)
      | Block => Block
      | Panic msg => Panic msg
      end
  end.

(** The three stages in the order of the source. *)
Definition safeClose_stage (stage : nat) : Model -> Heap -> Step (Model * Heap) :=
  match stage with
  | 0 => safeClose_StopCh
  | 1 => safeClose_ErrCh
  | _ => close_StreamCh
  end.

Definition and_then {A B} (s : Step A) (k : A -> Step B) : Step B :=
  match s with
  | Go a => k a
  | Block => Block
  | Panic msg => Panic msg
  end.

(** [Model.safeCloseChannels] *)
Definition safeCloseChannels (m : Model) (h : Heap) : Step (Model * Heap) :=
  and_then (safeClose_stage 0 m h) (fun '(m, h) =>
  and_then (safeClose_stage 1 m h) (fun '(m, h) =>
  safeClose_stage 2 m h)).

(** [Model.ensureChannels] *)
Definition ensureChannels (m : Model) (h : Heap) : Model * Heap :=
  let '(m, h) :=
    match StreamCh m with
    | None => let '(c, cs) := make 64 (strings h) in (set_StreamCh c m, set_strings cs h)
    | Some _ => (m, h)
    end in
  let '(m, h) :=
    match ErrCh m with
    | None => let '(c, cs) := make 1 (errors h) in (set_ErrCh c m, set_errors cs h)
    | Some _ => (m, h)
    end in
  match StopCh m with
  | None => let '(c, cs) := make 0 (signals h) in (set_StopCh c m, set_signals cs h)
  | Some _ => (m, h)
  end.

(** *** One streaming session

    The event loop of the program, the goroutine of the producer, the
    goroutine of [sendFullResponse] and the commands [NextTokenCmd] and
    [saveCmd] of one question, over one heap and one world. *)

(** What the event loop does once [safeCloseChannels] has returned. *)
Inductive After := Stay | ClearMsg | Quit.

Inductive LoopPC :=
| Idle                                     (* waiting for the next message *)
| Closing (stage : nat) (after : After).   (* inside [safeCloseChannels] *)

(** Where [saveCmd] stands. *)
Inductive Saver :=
| AwaitResponse                                (* at [<-responseCh] *)
| Saving (fullResponse : string)               (* at [m.StoreQA] *)
| Saved (fullResponse : string) (msg : types.Msg).

Record Sys := {
  heap : Heap;
  world : World;
  model : Model;
  loop : LoopPC;
  inbox : list types.Msg;              (* messages waiting for [Update] *)
  producer : llm.Producer;
  sender : option string;              (* [sendFullResponse] in flight *)
  next : option (chan * chan);         (* [NextTokenCmd] in flight *)
  saver : Saver;
  question : string;                   (* captured by [saveCmd] *)
  responseCh : chan;                   (* captured by [saveCmd] *)
  crashed : bool;                      (* a panic left [Update] *)
  quit : bool;
}.

Definition with_heap (h : Heap) (s : Sys) : Sys :=
  {| heap := h; world := world s; model := model s; loop := loop s;
     inbox := inbox s; producer := producer s; sender := sender s;
     next := next s; saver := saver s; question := question s;
     responseCh := responseCh s; crashed := crashed s; quit := quit s |}.

Definition with_world (w : World) (s : Sys) : Sys :=
  {| heap := heap s; world := w; model := model s; loop := loop s;
     inbox := inbox s; producer := producer s; sender := sender s;
     next := next s; saver := saver s; question := question s;
     responseCh := responseCh s; crashed := crashed s; quit := quit s |}.

Definition with_model (m : Model) (s : Sys) : Sys :=
  {| heap := heap s; world := world s; model := m; loop := loop s;
     inbox := inbox s; producer := producer s; sender := sender s;
     next := next s; saver := saver s; question := question s;
     responseCh := responseCh s; crashed := crashed s; quit := quit s |}.

Definition with_loop (l : LoopPC) (s : Sys) : Sys :=
  {| heap := heap s; world := world s; model := model s; loop := l;
     inbox := inbox s; producer := producer s; sender := sender s;
     next := next s; saver := saver s; question := question s;
     responseCh := responseCh s; crashed := crashed s; quit := quit s |}.

Definition with_inbox (i : list types.Msg) (s : Sys) : Sys :=
  {| heap := heap s; world := world s; model := model s; loop := loop s;
     inbox := i; producer := producer s; sender := sender s;
     next := next s; saver := saver s; question := question s;
     responseCh := responseCh s; crashed := crashed s; quit := quit s |}.

Definition with_producer (p : llm.Producer) (s : Sys) : Sys :=
  {| heap := heap s; world := world s; model := model s; loop := loop s;
     inbox := inbox s; producer := p; sender := sender s;
     next := next s; saver := saver s; question := question s;
     responseCh := responseCh s; crashed := crashed s; quit := quit s |}.

Definition with_sender (r : option string) (s : Sys) : Sys :=
  {| heap := heap s; world := world s; model := model s; loop := loop s;
     inbox := inbox s; producer := producer s; sender := r;
     next := next s; saver := saver s; question := question s;
     responseCh := responseCh s; crashed := crashed s; quit := quit s |}.

Definition with_next (n : option (chan * chan)) (s : Sys) : Sys :=
  {| heap := heap s; world := world s; model := model s; loop := loop s;
     inbox := inbox s; producer := producer s; sender := sender s;
     next := n; saver := saver s; question := question s;
     responseCh := responseCh s; crashed := crashed s; quit := quit s |}.

Definition with_saver (v : Saver) (s : Sys) : Sys :=
  {| heap := heap s; world := world s; model := model s; loop := loop s;
     inbox := inbox s; producer := producer s; sender := sender s;
     next := next s; saver := v; question := question s;
     responseCh := responseCh s; crashed := crashed s; quit := quit s |}.

Definition with_crashed (s : Sys) : Sys :=
  {| heap := heap s; world := world s; model := model s; loop := loop s;
     inbox := inbox s; producer := producer s; sender := sender s;
     next := next s; saver := saver s; question := question s;
     responseCh := responseCh s; crashed := true; quit := quit s |}.

Definition with_quit (s : Sys) : Sys :=
  {| heap := heap s; world := world s; model := model s; loop := loop s;
     inbox := inbox s; producer := producer s; sender := sender s;
     next := next s; saver := saver s; question := question s;
     responseCh := responseCh s; crashed := crashed s; quit := true |}.

(** [Model.handleChatInput], for a question whose answer the generation
    service will stream as [chunks] and end with [final].  [None]: the input
    is empty and nothing is started. *)
Definition handleChatInput (m : Model) (h : Heap) (w : World)
    (chunks : list string) (final : option error) : option Sys :=
  let question := TextInput m in
  if bool_decide (question = "") then None
  else
    let m := set_Msg "" (set_LastQuestion question m) in
    let '(m, h) := ensureChannels m h in
    let m := set_Streaming true m in
    let '(responseCh, cs) := make 1 (strings h) in
    let h := set_strings cs h in
    Some {| heap := h; world := w; model := m; loop := Idle; inbox := [];
            producer := llm.startStreamCmdWithCallback chunks final
                          (StreamCh m) (ErrCh m) (StopCh m) responseCh;
            sender := None;
            next := Some (StreamCh m, ErrCh m);
            saver := AwaitResponse;
            question := question; responseCh := responseCh;
            crashed := false; quit := false |}.

(** [Model.handleStreamError] up to its call of [safeCloseChannels]. *)
Definition handleStreamError (s : Sys) : Sys :=
  let s := with_model (set_Streaming false (model s)) s in
  let unknown :=
    with_loop (Closing 0 Stay)
      (with_model (set_Msg "Error: An unknown error occurred during streaming" (model s)) s) in
  match ErrCh (model s) with
  | Some _ =>
      match recv None (ErrCh (model s)) (errors (heap s)) with
      | Go (Some e, _, cs) =>
          with_loop (Closing 0 Stay)
            (with_model (set_Msg ("Error: " +:+ e) (model s))
               (with_heap (set_errors cs (heap s)) s))
      | Go (None, _, cs) =>
          with_heap (set_errors cs (heap unknown)) unknown
      | Block | Panic _ => unknown
      end
  | None => unknown
  end.

(** [Model.handleKeyMsg] in chat mode, for the keys that touch the session. *)
Definition handleKeyMsg (k : types.Key) (s : Sys) : Sys :=
  match k with
  | KeyEsc =>
      if Streaming (model s)
      then with_loop (Closing 0 ClearMsg) (with_model (set_Streaming false (model s)) s)
      else with_quit s
  | KeyCtrlW => with_loop (Closing 0 Quit) s
  end.

(** [Model.Update] on one message, up to a call of [safeCloseChannels].
    [None]: the options screen has the keyboard, which is outside a
    session. *)
Definition Update (msg : types.Msg) (s : Sys) : option Sys :=
  match msg with
  | KeyMsg k =>
      match ScreenMode (model s) with
      | ModeOptions => None
      | ModeChat =>
          if EditingModel (model s) || EditingAPIURL (model s) then None
          else Some (handleKeyMsg k s)
      end
  | TokenMsg t =>
      let s := with_model (set_Msg (Msg (model s) +:+ t) (model s)) s in
      match StreamCh (model s), ErrCh (model s) with
      | Some _, Some _ => Some (with_next (Some (StreamCh (model s), ErrCh (model s))) s)
      | _, _ => Some s
      end
  | StreamEndMsg =>
      Some (with_loop (Closing 0 Stay) (with_model (set_Streaming false (model s)) s))
  | StreamErrMsg _ => Some (handleStreamError s)
  | StatusMsg _ _ | NilMsg => Some s
  end.

(** The threads of a session; the booleans are the scheduler's choice
    between two cases of a [select] that can both proceed. *)
Inductive Label :=
| LProducer (pick_stop : bool)
| LSender
| LSave
| LNext (pick_err : bool)
| LLoop
| LKey (k : types.Key).

Section WithServer.

Variable rank : list float32 -> list PointStruct -> list PointStruct.

(** [saveCmd] of [handleChatInput], one step. *)
Definition saveCmd_step (s : Sys) : option Sys :=
  match saver s with
  | AwaitResponse =>
      match recv "" (responseCh s) (strings (heap s)) with
      | Go (fullResponse, _, cs) =>
          let s := with_heap (set_strings cs (heap s)) s in
          if bool_decide (fullResponse = "")
          then Some (with_saver (Saved fullResponse NilMsg) s)
          else Some (with_saver (Saving fullResponse) s)
      | Block | Panic _ => None
      end
  | Saving fullResponse =>
      match Model_StoreQA rank (model s) (question s) fullResponse (world s) with
      | (Err e, w) =>
          let '(_, w) := log_Printf ("Failed to save conversation: " +:+ e) w in
          let msg := StatusMsg "Failed to save conversation" 3 in
          Some (with_inbox (inbox s ++ [msg]) (with_saver (Saved fullResponse msg) (with_world w s)))
      | (Ok _, w) =>
          let msg := StatusMsg "Conversation saved to vault" 3 in
          Some (with_inbox (inbox s ++ [msg]) (with_saver (Saved fullResponse msg) (with_world w s)))
      end
  | Saved _ _ => None
  end.

(** The event loop, one step: the next stage of a teardown under way, or
    the next message. *)
Definition loop_step (s : Sys) : option Sys :=
  if crashed s || quit s then None
  else
    match loop s with
    | Closing stage after =>
        match safeClose_stage stage (model s) (heap s) with
        | Go (m, h) =>
            let s := with_heap h (with_model m s) in
            if stage <? 2 then Some (with_loop (Closing (S stage) after) s)
            else
              let s := with_loop Idle s in
              match after with
              | Stay => Some s
              | ClearMsg => Some (with_model (set_Msg "" (model s)) s)
              | Quit => Some (with_quit s)
              end
        | Block => None
        | Panic _ => Some (with_crashed s)
        end
    | Idle =>
        match inbox s with
        | [] => None
        | msg :: rest => Update msg (with_inbox rest s)
        end
    end.

(** One step of the thread [l]; [None] when it cannot move. *)
Definition step (l : Label) (s : Sys) : option Sys :=
  match l with
  | LProducer pick_stop =>
      match llm.producer_step pick_stop (producer s) (heap s) with
      | Some (p, h, spawn) =>
          let s := with_heap h (with_producer p s) in
          match spawn with
          | Some response => Some (with_sender (Some response) s)
          | None => Some s
          end
      | None => None
      end
  | LSender =>
      match sender s with
      | Some response =>
          match llm.sendFullResponse_step (llm.localResponseCh (producer s)) response (heap s) with
          | Some h => Some (with_sender None (with_heap h s))
          | None => None
          end
      | None => None
      end
  | LSave => saveCmd_step s
  | LNext pick_err =>
      match next s with
      | Some (ch, errCh) =>
          match llm.NextTokenCmd ch errCh pick_err (heap s) with
          | Go (msg, h) => Some (with_inbox (inbox s ++ [msg]) (with_next None (with_heap h s)))
          | Block | Panic _ => None
          end
      | None => None
      end
  | LLoop => loop_step s
  | LKey k => if crashed s || quit s then None else Some (with_inbox (inbox s ++ [KeyMsg k]) s)
  end.

(** A schedule is run label by label; a thread that cannot move when its
    turn comes is passed over. *)
Fixpoint run (sched : list Label) (s : Sys) : Sys :=
  match sched with
  | [] => s
  | l :: sched' =>
      match step l s with
      | Some s' => run sched' s'
      | None => run sched' s
      end
  end.

End WithServer.

End ui.

Arguments Errorf_w : simpl never.
Arguments show_nat : simpl never.
Arguments filepath_Join : simpl never.
Arguments Format_RFC3339 : simpl never.

(** ** Observations on runs *)

Definition is_upsert (ev : Event) : bool :=
  match ev with EvUpsert _ _ => true | _ => false end.

Definition is_write (ev : Event) : bool :=
  match ev with EvWriteFile _ _ _ => true | _ => false end.

Definition is_search (ev : Event) : bool :=
  match ev with EvSearch _ _ _ => true | _ => false end.

Definition is_stat (ev : Event) : bool :=
  match ev with EvStat _ _ => true | _ => false end.

(** Events that leave the collection, its records and the vault alone. *)
Definition harmless (ev : Event) : bool :=
  match ev with
  | EvUpsert _ _ | EvWriteFile _ _ _ | EvCreateCollection _ _ | EvDeleteCollection _ => false
  | _ => true
  end.

(** [w'] comes after [w] with nothing written: same records, same
    collection, same archive, and only harmless events in between. *)
Definition quiet (w w' : World) : Prop :=
  w_points w' = w_points w /\ w_collection w' = w_collection w
  /\ w_file w' = w_file w
  /\ exists evs, w_trace w' = w_trace w ++ evs /\ Forall (fun ev => harmless ev = true) evs.

Definition Quiet {A} (c : M A) : Prop := forall w, quiet w (snd (c w)).

(** An embedder that only talks to its own service. *)
Definition well_behaved (e : vector.Embedder) : Prop :=
  forall text, Quiet (vector.Embed e text).

Definition store_behaves (vs : vector.VectorStore) : Prop :=
  forall e, vector.embedder vs = Some e -> well_behaved e.

(** What [encoding/json] reads from the archive as it stands. *)
Definition archive (w : World) : Result (list QA) :=
  match w_file w with
  | None => Ok []
  | Some (JSON doc) => Ok (QAs doc)
  | Some (Garbage _) => Err "invalid character looking for beginning of value"
  end.

(** The record is a Q&A record that [QAExists] takes for the pair. *)
Definition duplicate_of (question answer : string) (p : PointStruct) : bool :=
  has_keyword "type" "qa_pair" p && vector.result_matches question answer (to_scored p).

Definition is_log (ev : Event) : bool :=
  match ev with EvLogger _ | EvPrintf _ => true | _ => false end.

(** The record [VectorStore.StoreQA] builds for a pair. *)
Definition qa_point (id : string) (questionEmbedding : list float32)
    (question answer timestamp : string) : PointStruct :=
  {| Id := id; Vector := questionEmbedding;
     Payload := StringValue <$> vector.qa_metadata question answer timestamp |}.

(** How many records of the collection [QAExists] takes for the pair. *)
Definition duplicates (question answer : string) (ps : list PointStruct) : nat :=
  length (filter (fun p => duplicate_of question answer p = true) ps).

Definition qa_points (ps : list PointStruct) : list PointStruct :=
  filter (fun p => has_keyword "type" "qa_pair" p = true) ps.

(** The course of [Model.StoreQA] past its first duplicate check, from the
    world [w] to the result [r] and the world [w']: either it fails before
    anything is written, or both embeddings succeed and
    [VectorStore.StoreQA] is called, followed, if it succeeds, by the write
    of the archive with the new entry at its end.  The entries [old] before
    the new one are those of the archive as it was, or none when [os.Stat]
    has failed and the file was not read. *)
Definition storage_attempt
    (rank : list float32 -> list PointStruct -> list PointStruct)
    (m : ui.Model) (vs : vector.VectorStore) (q a : string)
    (w : World) (r : Result unit) (w' : World) : Prop :=
  (exists e, r = Err e /\ quiet w w')
  \/ (exists old qe ae wA wB wC,
        (archive w = Ok old
         \/ (old = []
             /\ exists evs,
                  w_trace wA = w_trace w ++ evs
                  /\ EvStat (filepath_Join (ui.VaultPath m) "que_ans.json") false ∈ evs))
        /\ quiet w wA
        /\ vector.VectorStore_Embed vs q wA = (Ok qe, wB)
        /\ vector.VectorStore_Embed vs a wB = (Ok ae, wC)
        /\ match vector.VectorStore_StoreQA rank vs q a qe ae wC with
           | (Err e3, wD) =>
               r = Err (Errorf_w "failed to store Q&A in vector database" e3)
               /\ w_file w' = w_file w /\ w_points w' = w_points wD
               /\ exists l, w_trace w' = w_trace wD ++ [l] /\ is_log l = true
           | (Ok _, wD) =>
               let data :=
                 JSON {| QAs := old ++ [{| Question := q; Answer := a;
                                           Time := w_now wD |}] |} in
               let name := filepath_Join (ui.VaultPath m) "que_ans.json" in
               w_points w' = w_points wD /\ w_now w' = S (w_now wD) /\
               ((r = Ok tt /\ w_file w' = Some data
                 /\ w_trace w' = w_trace wD ++ [EvWriteFile name data true])
                \/ (exists msg, r = Err (Errorf_w "failed to write Q&As to file" msg)
                    /\ (w_file w' = w_file w \/ w_file w' = Some (Garbage ""))
                    /\ w_trace w' = w_trace wD ++ [EvWriteFile name data false]))
           end).

(** The events of a run in which an upsert, if there is one, comes right
    after a successful duplicate search, log entries apart. *)
Definition guarded (evs : list Event) : Prop :=
  Forall (fun ev => is_upsert ev = false) evs
  \/ exists pre v logs p ok post,
      evs = pre ++ [EvSearch v 5 true] ++ logs ++ [EvUpsert p ok] ++ post
      /\ Forall (fun ev => is_upsert ev = false) pre
      /\ Forall (fun ev => is_log ev = true) logs
      /\ Forall (fun ev => is_upsert ev = false) post.

(** Whatever the query vector, a record that the check takes for the pair
    is among the five candidates the server returns. *)
Definition visible
    (rank : list float32 -> list PointStruct -> list PointStruct)
    (q a : string) (ps : list PointStruct) : Prop :=
  forall v, exists p,
    p ∈ take 5 (rank v (qa_points ps))
    /\ vector.result_matches q a (to_scored p) = true.

(** The world comes after [w] with the same records and no upsert. *)
Definition no_upsert (w w' : World) : Prop :=
  w_points w' = w_points w
  /\ exists evs, w_trace w' = w_trace w ++ evs
                 /\ Forall (fun ev => is_upsert ev = false) evs.

(** ** The dimension of the records *)



(** ** Observations on sessions *)

Module session.
Import types ui.

(** The first chunk of the answer that is not empty, the empty string when
    there is none: the first value the producer puts on a channel. *)
Fixpoint first_chunk (chunks : list string) : string :=
  match chunks with
  | [] => ""
  | c :: rest => if bool_decide (c = "") then first_chunk rest else c
  end.

(** The text the session aggregates: the chunks in order. *)
Fixpoint concat_chunks (chunks : list string) : string :=
  match chunks with
  | [] => ""
  | c :: rest => c +:+ concat_chunks rest
  end.

(** The stop channel seen by the producer is closed. *)
Definition stopped (s : Sys) : bool :=
  can_recv (llm.stopCh (producer s)) (signals (heap s)).

(** The states of a session, read off the producer: streaming until the
    call of the generation service has returned, then completed, canceled
    or errored by what it returned. *)
Inductive SessionState := Streaming | Completed | Errored | Canceled.

Definition session_state (s : Sys) : SessionState :=
  match llm.pc (producer s) with
  | llm.InChatStream _ | llm.SendResponse _ _ | llm.SendOut _ _ => Streaming
  | _ =>
      match llm.err (producer s) with
      | None => Completed
      | Some e => if bool_decide (e = "stream canceled") then Canceled else Errored
      end
  end.

(** The world once [saveCmd] has stored [answer] for [question]. *)
Definition saved_world
    (rank : list float32 -> list PointStruct -> list PointStruct)
    (m : Model) (question answer : string) (w : World) : World :=
  match Model_StoreQA rank m question answer w with
  | (Err e, w') => snd (log_Printf ("Failed to save conversation: " +:+ e) w')
  | (Ok _, w') => w'
  end.

(** While [saveCmd] waits on an empty response channel: whatever the
    producer or [sendFullResponse] may put there next is the first chunk
    or the empty string. *)
Definition pending_ok (first : string) (s : Sys) : Prop :=
  match llm.pc (producer s) with
  | llm.InChatStream rest =>
      llm.fullResponse (producer s) = "" /\ first_chunk rest = first
  | llm.SendResponse c _ => c = first
  | llm.SendOut _ _ => False
  | llm.AfterChatStream => stopped s = true \/ llm.fullResponse (producer s) = ""
  | _ => True
  end
  /\ forall f, sender s = Some f -> f = "".

(** What [saveCmd] can receive and what it has stored. *)
Definition content
    (rank : list float32 -> list PointStruct -> list PointStruct)
    (rc : nat) (first : string) (m0 : Model) (w0 : World) (s : Sys) : Prop :=
  exists R,
    strings (heap s) !! rc = Some R /\ cap R = 1
    /\ match saver s with
       | AwaitResponse =>
           world s = w0
           /\ Forall (fun v => v = first \/ v = "") (buf R)
           /\ (buf R = [] -> pending_ok first s)
       | Saving v => world s = w0 /\ v = first /\ v <> ""
       | Saved v _ =>
           (v = "" /\ world s = w0)
           \/ (v = first /\ v <> ""
               /\ world s = saved_world rank m0 (question s) first w0)
       end.

(** Who holds which channel. *)
Definition wiring (rc sc : nat) (m0 : Model) (s : Sys) : Prop :=
  responseCh s = Some rc
  /\ llm.localResponseCh (producer s) = Some rc
  /\ llm.localOut (producer s) = Some sc
  /\ rc <> sc
  /\ (StreamCh (model s) = None \/ StreamCh (model s) = Some sc)
  /\ match next s with Some (ch, _) => ch = Some sc | None => True end
  /\ VectorStore (model s) = VectorStore m0
  /\ VaultPath (model s) = VaultPath m0.

Definition invariant
    (rank : list float32 -> list PointStruct -> list PointStruct)
    (rc sc : nat) (first : string) (m0 : Model) (w0 : World) (s : Sys) : Prop :=
  wiring rc sc m0 s /\ content rank rc first m0 w0 s.

(** What the event loop, a key press and the polling command may change
    in a session whose response channel is the cell [rc]. *)
Definition framed (rc : nat) (s s' : Sys) : Prop :=
  producer s' = producer s /\ sender s' = sender s /\ saver s' = saver s
  /\ world s' = world s /\ question s' = question s /\ responseCh s' = responseCh s
  /\ strings (heap s') !! rc = strings (heap s) !! rc
  /\ (forall st, can_recv st (signals (heap s)) = true ->
                 can_recv st (signals (heap s')) = true)
  /\ VectorStore (model s') = VectorStore (model s)
  /\ VaultPath (model s') = VaultPath (model s)
  /\ (StreamCh (model s') = None \/ StreamCh (model s') = StreamCh (model s))
  /\ (next s' = None \/ next s' = next s
      \/ exists ch e, StreamCh (model s) = Some ch /\ next s' = Some (Some ch, e)).

(** A channel field holds nil or the address of a cell of the heap. *)
Definition allocated {A} (ch : chan) (cells : list (Chan A)) : bool :=
  match ch with
  | Some r => r <? length cells
  | None => true
  end.

(** The call of the generation service has returned. *)
Definition past_stream (pc : llm.PC) : bool :=
  match pc with
  | llm.InChatStream _ | llm.SendResponse _ _ | llm.SendOut _ _ => false
  | _ => true
  end.

(** The producer is not at [close(localResponseCh)] or past it. *)
Definition before_close (pc : llm.PC) : bool :=
  match pc with
  | llm.CloseResponse | llm.Exited false => false
  | _ => true
  end.

(** The producer has got past [close(localOut)] or has ended. *)
Definition past_close (pc : llm.PC) : bool :=
  match pc with
  | llm.CloseResponse | llm.Exited _ => true
  | _ => false
  end.

(** Who has closed the token channel [sc]: nobody yet, and then the model
    still holds it; or the producer, and the model still holds it; or the
    teardown, which has set the field to nil, and then the producer has not
    got past its own close without a panic. *)
Definition token_channel (sc : nat) (s : Sys) : Prop :=
  exists C, strings (heap s) !! sc = Some C
    /\ if closed C
       then (StreamCh (model s) = Some sc /\ past_close (llm.pc (producer s)) = true)
            \/ (StreamCh (model s) = None /\ before_close (llm.pc (producer s)) = true)
       else StreamCh (model s) = Some sc /\ before_close (llm.pc (producer s)) = true.

(** The producer is between two chunks or past the stream. *)
Definition between_chunks (pc : llm.PC) : bool :=
  match pc with
  | llm.SendResponse _ _ | llm.SendOut _ _ => false
  | _ => true
  end.

(** The schedule of the consumer alone: the polling command, then the
    event loop, once per choice of the scheduler. *)
Definition polls (picks : list bool) : list Label :=
  flat_map (fun pick => [LNext pick; LLoop]) picks.

(** The chunks of the answer that are not empty: those the producer puts
    on the channels. *)
Fixpoint nonempty_chunks (chunks : list string) : nat :=
  match chunks with
  | [] => 0
  | c :: rest =>
      if bool_decide (c = "") then nonempty_chunks rest else S (nonempty_chunks rest)
  end.


(** The chunks the producer has not yet sent to the token channel. *)
Definition to_come (pc : llm.PC) : list string :=
  match pc with
  | llm.InChatStream rest => rest
  | llm.SendResponse c rest | llm.SendOut c rest => c :: rest
  | _ => []
  end.

(** How many values [saveCmd] has received. *)
Definition received (v : Saver) : nat :=
  match v with
  | AwaitResponse => 0
  | _ => 1
  end.

(** The stream of an answer of [n] chunks is on, and no teardown has got
    to a channel: the producer and the model hold the same stop channel,
    the response channel [rc] and the token channel [sc] are open, and
    every chunk is still to come, in the response channel, or received by
    [saveCmd]. *)
Definition flowing (rc sc n : nat) (s : Sys) : Prop :=
  exists st R T,
    llm.stopCh (producer s) = Some st /\ StopCh (model s) = Some st
    /\ (loop s = Idle \/ exists after, loop s = Closing 0 after)
    /\ sender s = None
    /\ strings (heap s) !! rc = Some R /\ closed R = false /\ cap R = 1
    /\ length (buf R) <= 1
    /\ strings (heap s) !! sc = Some T /\ closed T = false
    /\ match llm.pc (producer s) with
       | llm.InChatStream rest =>
           n = length (buf R) + received (saver s) + nonempty_chunks rest
       | llm.SendResponse c rest =>
           c <> "" /\ n = length (buf R) + received (saver s) + S (nonempty_chunks rest)
       | llm.SendOut c rest =>
           c <> "" /\ n = length (buf R) + received (saver s) + nonempty_chunks rest
       | _ => False
       end.

End session.

(** ** Scenarios *)

Module scenario.
Import vector types llm ui.

(** A server that lists its candidates in insertion order. *)
Definition rank_oldest_first (v : list float32) (ps : list PointStruct) : list PointStruct := ps.

(** A fresh installation: the collection was just created with the size
    [main] asks for, the vault holds no archive, every call goes through. *)
Definition fresh_world : World :=
  {| w_collection := Some vectorSize; w_points := []; w_file := None;
     w_script := []; w_http := []; w_uuid := 0; w_now := 0; w_trace := [] |}.

Definition dummy_store : vector.VectorStore := NewVectorStore defaultCollection (Some Dummy).

Definition model0 : Model := InitialModel (Some dummy_store) "vault" "gemma3:1b".

Definition no_channels : Heap := {| strings := []; errors := []; signals := [] |}.

(** A model without a vector store, once its channels are allocated, and
    the heap that holds them. *)
Definition model_with_channels : Model :=
  fst (ensureChannels (InitialModel None "vault" "gemma3:1b") no_channels).
Definition heap_with_channels : Heap :=
  snd (ensureChannels (InitialModel None "vault" "gemma3:1b") no_channels).

(** Both after a first [safeCloseChannels]. *)
Definition model_torn_down : Model := InitialModel None "vault" "gemma3:1b".
Definition heap_torn_down : Heap :=
  {| strings := [{| buf := []; cap := 64; closed := true |}];
     errors := [{| buf := []; cap := 1; closed := true |}];
     signals := [{| buf := []; cap := 0; closed := true |}] |}.

(** A heap where the producer has left one token and then an error. *)
Definition heap_token_and_error : Heap :=
  {| strings := [{| buf := ["AI "]; cap := 64; closed := false |}];
     errors := [{| buf := [Some "connection reset"]; cap := 1; closed := false |}];
     signals := [{| buf := []; cap := 0; closed := false |}] |}.



Definition question1 : string := "What is AI?".
Definition answer1 : string := "AI stands for Artificial Intelligence.".

(** The fresh installation after the pair was stored once. *)
Definition world_stored : World :=
  snd (Model_StoreQA rank_oldest_first model0 question1 answer1 fresh_world).

(** The server drops the next request, then recovers. *)
Definition world_search_down : World := set_script [Fail "connection refused"] fresh_world.
Definition world_stored_search_down : World :=
  set_script [Fail "connection refused"] world_stored.

(** The pair is stored; the search and [os.MkdirAll] of the next call
    succeed, and its [os.Stat] fails. *)
Definition world_stat_fails : World :=
  set_script [Succeed; Succeed; Fail "permission denied"] world_stored.

(** The events a run from [w] to [w'] has added. *)
Definition new_events (w w' : World) : list Event :=
  drop (length (w_trace w)) (w_trace w').

(** The model as the user submits the first question. *)
Definition asking : Model :=
  {| TextInput := question1; Msg := ""; ScreenMode := ModeChat; LastQuestion := "";
     VectorStore := Some dummy_store; VaultPath := "vault"; ModelName := "gemma3:1b";
     StreamCh := None; ErrCh := None; StopCh := None; Streaming := false;
     EditingModel := false; EditingAPIURL := false |}.

(** The model once [handleChatInput] has started the session. *)
Definition streaming : Model :=
  {| TextInput := question1; Msg := ""; ScreenMode := ModeChat;
     LastQuestion := question1;
     VectorStore := Some dummy_store; VaultPath := "vault"; ModelName := "gemma3:1b";
     StreamCh := Some 0; ErrCh := Some 0; StopCh := Some 0; Streaming := true;
     EditingModel := false; EditingAPIURL := false |}.

(** The session [handleChatInput] starts from [asking] on an empty heap:
    token channel 0 and response channel 1 among the string channels. *)
Definition session_start (chunks : list string) (final : option error) : Sys :=
  {| heap := {| strings := [ {| buf := []; cap := 64; closed := false |};
                             {| buf := []; cap := 1; closed := false |} ];
                errors := [ {| buf := []; cap := 1; closed := false |} ];
                signals := [ {| buf := []; cap := 0; closed := false |} ] |};
     world := fresh_world; model := streaming; loop := Idle; inbox := [];
     producer := llm.startStreamCmdWithCallback chunks final
                   (Some 0) (Some 0) (Some 0) (Some 1);
     sender := None; next := Some (Some 0, Some 0); saver := AwaitResponse;
     question := question1; responseCh := Some 1;
     crashed := false; quit := false |}.

Definition two_chunks : list string := ["AI "; "stands "].
Definition three_chunks : list string := ["AI "; "stands "; "for "].

(** The producer streams both chunks and ends; [saveCmd] receives after
    the first chunk and stores once the producer is over. *)
Definition schedule_two_chunks : list Label :=
  [LProducer false; LProducer false; LProducer false; LSave;
   LProducer false; LProducer false; LProducer false; LProducer false;
   LProducer false; LSender; LProducer false; LProducer false; LSave].

(** One chunk is streamed and shown, the user presses Esc, the teardown
    runs, and the producer sees the stop channel closed at the next chunk. *)
Definition schedule_cancel : list Label :=
  [LProducer false; LProducer false; LProducer false; LNext false; LLoop;
   LKey KeyEsc; LLoop; LLoop; LLoop; LLoop; LProducer false].

(** What [saveCmd] does when it runs after that. *)
Definition schedule_save : list Label := [LSave; LSave].


(** A store without an embedder. *)
Definition plain_store : vector.VectorStore := NewVectorStore defaultCollection None.

(** A server that holds no collection yet. *)
Definition world_no_collection : World := set_collection None fresh_world.

(** The same once [main] has ensured the collection. *)
Definition world_ensured : World :=
  snd (VectorStore_EnsureCollection plain_store vectorSize world_no_collection).

(** The server deletes the collection and then refuses to create one. *)
Definition world_create_down : World :=
  set_script [Succeed; Fail "unavailable"; Fail "unavailable"] world_stored.

(** What [ResetIndex] leaves of it. *)
Definition world_reset_failed : World :=
  snd (VectorStore_ResetIndex dummy_store world_create_down).


(** A text of 1024 bytes. *)
Definition text_1024 : string :=
  String.string_of_list_ascii (repeat (Ascii.ascii_of_nat 97) 1024).

(** Both chunks are in the token channel and nothing has been shown. *)
Definition schedule_two_waiting : list Label :=
  [LProducer false; LProducer false; LProducer false; LSave;
   LProducer false; LProducer false; LProducer false; LProducer false].
Definition two_waiting : Sys :=
  run rank_oldest_first schedule_two_waiting (session_start two_chunks None).

(** The generation service has failed before the first chunk; the error
    waits in the error channel. *)
Definition stream_failed : Sys :=
  run rank_oldest_first [LProducer false; LProducer false; LProducer false; LProducer false]
    (session_start [] (Some "connection reset")).

(** One chunk of three is streamed and shown, the user presses Esc and the
    teardown runs. *)
Definition schedule_esc : list Label :=
  [LProducer false; LProducer false; LProducer false; LNext false; LLoop;
   LKey KeyEsc; LLoop; LLoop; LLoop; LLoop].
Definition canceled_after_one : Sys :=
  run rank_oldest_first schedule_esc (session_start three_chunks None).

(** The progress of the one entry of an archive of one. *)
Definition percent_of_one (n total : nat) : string := "100.0".

(** The archive of [world_stored], and the same world once the collection
    has lost its records. *)
Definition qas_stored : list QA :=
  [{| Question := question1; Answer := answer1; Time := 1 |}].
Definition world_emptied : World := set_points [] world_stored.

(** Two chunks of three are streamed, stored in part and shown; the
    producer then has the third in hand. *)
Definition schedule_three_chunks : list Label :=
  [LProducer false; LProducer false; LProducer false; LSave;
   LProducer false; LProducer false; LProducer false; LProducer false; LSave;
   LNext false; LLoop; LNext false; LLoop; LNext false; LLoop; LProducer false].




End scenario.

(** ** Teardown and polling *)

Section Teardown.
Import types llm ui.

Lemma safeCloseChannels_nil (m : Model) (h : Heap) :
  StreamCh m = None -> ErrCh m = None -> StopCh m = None ->
  safeCloseChannels m h = Go (m, h).
Proof.
  intros Hs He Hp.
  unfold safeCloseChannels, safeClose_stage, safeClose_StopCh, safeClose_ErrCh,
    close_StreamCh, and_then.
  rewrite Hp; simpl. rewrite He; simpl. now rewrite Hs.
Qed.

Lemma safeCloseChannels_clears (m m' : Model) (h h' : Heap) :
  safeCloseChannels m h = Go (m', h') ->
  StreamCh m' = None /\ ErrCh m' = None /\ StopCh m' = None.
Proof.
  unfold safeCloseChannels, safeClose_stage, safeClose_StopCh, safeClose_ErrCh,
    close_StreamCh, and_then.
  destruct (StopCh m) eqn:Hp; [destruct (close _ (signals h)); try discriminate|];
  simpl;
  (destruct (ErrCh m) eqn:He; [destruct (close _ (errors h)); try discriminate|]);
  simpl;
  (destruct (StreamCh m) eqn:Hs; [destruct (close _ (strings h)); try discriminate|]);
  simpl; intros [= <- <-]; simpl; auto.
Qed.

(** C7. Teardown is idempotent: once [safeCloseChannels] has returned, the
    three channel fields of the model are nil, and a second call returns
    normally (no close is attempted, so no channel is closed twice and
    nothing panics) leaving the model and every channel as they are. *)
Theorem safeCloseChannels_idempotent (m m' : Model) (h h' : Heap) :
  safeCloseChannels m h = Go (m', h') ->
  (StreamCh m' = None /\ ErrCh m' = None /\ StopCh m' = None)
  /\ safeCloseChannels m' h' = Go (m', h').
Proof.
  intros H. pose proof (safeCloseChannels_clears _ _ _ _ H) as (Hs & He & Hp).
  split; [auto|]. now apply safeCloseChannels_nil.
Qed.

Lemma safeCloseChannels_idempotent_witness :
  StreamCh scenario.model_with_channels = Some 0
  /\ safeCloseChannels scenario.model_with_channels scenario.heap_with_channels
     = Go (scenario.model_torn_down, scenario.heap_torn_down)
  /\ safeCloseChannels scenario.model_torn_down scenario.heap_torn_down
     = Go (scenario.model_torn_down, scenario.heap_torn_down).
Proof.
  split; [reflexivity|]. split; [reflexivity|].
  refine (proj2 (safeCloseChannels_idempotent scenario.model_with_channels _
                   scenario.heap_with_channels _ _)).
  reflexivity.
Defined.

(** C8. [NextTokenCmd] maps channel outcomes to events: when the select
    takes the error channel, a non-nil error received gives the error
    event and a nil one (the channel was closed) the end event; when it
    takes the token channel, a received value gives the token event with
    that value and a closed, drained channel the end event; it waits when
    neither channel has anything. *)
Theorem NextTokenCmd_events (ch errCh : nat) (pick_err : bool) (h : Heap)
    (tc : Chan string) (ec : Chan (option error)) :
  strings h !! ch = Some tc ->
  errors h !! errCh = Some ec ->
  NextTokenCmd (Some ch) (Some errCh) pick_err h =
    if ready ec && (pick_err || negb (ready tc)) then
      match buf ec with
      | Some e :: _ => Go (StreamErrMsg e, set_errors (<[errCh := take_head ec]> (errors h)) h)
      | None :: _ => Go (StreamEndMsg, set_errors (<[errCh := take_head ec]> (errors h)) h)
      | [] => Go (StreamEndMsg, set_errors (errors h) h)
      end
    else if ready tc then
      match buf tc with
      | s :: _ => Go (TokenMsg s, set_strings (<[ch := take_head tc]> (strings h)) h)
      | [] => Go (StreamEndMsg, set_strings (strings h) h)
      end
    else Block.
Proof.
  intros Ht He. unfold NextTokenCmd, can_recv, recv, ready, take_head.
  rewrite Ht, He.
  destruct ec as [[|[e|] be] ce [|]], tc as [[|s bt] ct [|]], pick_err; reflexivity.
Qed.

Lemma NextTokenCmd_events_witness :
  NextTokenCmd (Some 0) (Some 0) true scenario.heap_token_and_error
  = Go (StreamErrMsg "connection reset",
        {| strings := [{| buf := ["AI "]; cap := 64; closed := false |}];
           errors := [{| buf := []; cap := 1; closed := false |}];
           signals := [{| buf := []; cap := 0; closed := false |}] |})
  /\ NextTokenCmd (Some 0) (Some 0) false scenario.heap_token_and_error
  = Go (TokenMsg "AI ",
        {| strings := [{| buf := []; cap := 64; closed := false |}];
           errors := [{| buf := [Some "connection reset"]; cap := 1; closed := false |}];
           signals := [{| buf := []; cap := 0; closed := false |}] |}).
Proof.
  split.
  - rewrite (NextTokenCmd_events 0 0 true scenario.heap_token_and_error
               {| buf := ["AI "]; cap := 64; closed := false |}
               {| buf := [Some "connection reset"]; cap := 1; closed := false |});
      reflexivity.
  - rewrite (NextTokenCmd_events 0 0 false scenario.heap_token_and_error
               {| buf := ["AI "]; cap := 64; closed := false |}
               {| buf := [Some "connection reset"]; cap := 1; closed := false |});
      reflexivity.
Defined.

End Teardown.

(** ** The store: frame lemmas *)

Import vector.

Lemma quiet_refl w : quiet w w.
Proof.
  repeat split. exists []. split; [now rewrite app_nil_r | constructor].
Qed.

Lemma quiet_trans w1 w2 w3 : quiet w1 w2 -> quiet w2 w3 -> quiet w1 w3.
Proof.
  intros (Hp & Hc & Hf & evs & Ht & Hh) (Hp' & Hc' & Hf' & evs' & Ht' & Hh').
  repeat split; try congruence.
  exists (evs ++ evs'). split.
  - rewrite Ht', Ht. now rewrite app_assoc.
  - now apply Forall_app.
Qed.

Lemma quiet_emit ev w : harmless ev = true -> quiet w (set_trace (w_trace w ++ [ev]) w).
Proof.
  intros H. repeat split. exists [ev]. split; [reflexivity | now repeat constructor].
Qed.

Lemma Quiet_ret {A} (a : A) : Quiet (ret a).
Proof. intros w. apply quiet_refl. Qed.

Lemma Quiet_fail {A} e : Quiet (@fail A e).
Proof. intros w. apply quiet_refl. Qed.

Lemma Quiet_pure {A} (r : Result A) : Quiet (fun w => (r, w)).
Proof. intros w. apply quiet_refl. Qed.

Lemma Quiet_bind {A B} (c : M A) (k : A -> M B) :
  Quiet c -> (forall a, Quiet (k a)) -> Quiet (bind c k).
Proof.
  intros Hc Hk w. unfold bind. specialize (Hc w).
  destruct (c w) as [[a|e] w1]; simpl in *; [|assumption].
  eapply quiet_trans; [eassumption | apply Hk].
Qed.

Lemma Quiet_catch {A} (c : M A) : Quiet c -> Quiet (catch c).
Proof.
  intros Hc w. unfold catch. specialize (Hc w). now destruct (c w).
Qed.

Lemma Quiet_wrap {A} prefix (c : M A) : Quiet c -> Quiet (wrap prefix c).
Proof.
  intros Hc w. unfold wrap. specialize (Hc w). now destruct (c w) as [[a|e] w1].
Qed.

Lemma Quiet_emit ev : harmless ev = true -> Quiet (emit ev).
Proof. intros H w. now apply quiet_emit. Qed.

Lemma Quiet_get_world : Quiet get_world.
Proof. intros w. apply quiet_refl. Qed.

Lemma Quiet_next_reply : Quiet next_reply.
Proof.
  intros w. unfold next_reply. destruct (w_script w); simpl; [apply quiet_refl|].
  repeat split. exists []. split; [now rewrite app_nil_r | constructor].
Qed.

Lemma Quiet_next_http : Quiet next_http.
Proof.
  intros w. unfold next_http. destruct (w_http w); simpl; [apply quiet_refl|].
  repeat split. exists []. split; [now rewrite app_nil_r | constructor].
Qed.

Lemma Quiet_uuid_New : Quiet uuid_New.
Proof.
  intros w. repeat split. exists []. split; [now rewrite app_nil_r | constructor].
Qed.

Lemma Quiet_time_Now : Quiet time_Now.
Proof.
  intros w. repeat split. exists []. split; [now rewrite app_nil_r | constructor].
Qed.

(** Structural proof of [Quiet] for code built from quiet pieces. *)
Ltac quiet_step :=
  first
    [ apply Quiet_ret | apply Quiet_fail | apply Quiet_pure
    | apply Quiet_get_world | apply Quiet_next_reply | apply Quiet_next_http
    | apply Quiet_uuid_New | apply Quiet_time_Now
    | apply Quiet_emit; reflexivity
    | apply Quiet_catch | apply Quiet_wrap
    | apply Quiet_bind; [|intros ?]
    | match goal with
      | |- Quiet (match ?x with _ => _ end) => destruct x
      | |- Quiet (if ?x then _ else _) => destruct x
      end
    | assumption ].

Ltac quiet := repeat quiet_step.

Lemma Quiet_call : Quiet call.
Proof. unfold call. quiet. Qed.

Lemma Quiet_logger_Info msg fields : Quiet (logger_Info msg fields).
Proof. unfold logger_Info. quiet. Qed.

Lemma Quiet_logger_Error msg e fields : Quiet (logger_Error msg e fields).
Proof. unfold logger_Error. quiet. Qed.

Lemma Quiet_log_Printf msg : Quiet (log_Printf msg).
Proof. unfold log_Printf. quiet. Qed.




Lemma DummyEmbedder_behaves : well_behaved Dummy.
Proof. intros text. simpl. unfold DummyEmbedder_Embed. quiet. Qed.

Lemma OllamaEmbedder_behaves newRequest e : well_behaved (Ollama newRequest e).
Proof.
  intros text. simpl. unfold OllamaEmbedder_Embed.
  destruct (newRequest _ _); quiet.
Qed.

Lemma Quiet_VectorStore_Embed vs text :
  store_behaves vs -> Quiet (VectorStore_Embed vs text).
Proof.
  intros H. unfold VectorStore_Embed.
  destruct (embedder vs) as [e|] eqn:E; [now apply H | quiet].
Qed.

Lemma quiet_events w w' evs :
  w_points w' = w_points w -> w_collection w' = w_collection w ->
  w_file w' = w_file w -> w_trace w' = w_trace w ++ evs ->
  forallb harmless evs = true -> quiet w w'.
Proof.
  intros Hp Hc Hf Ht Hh. repeat split; try assumption.
  exists evs. split; [assumption|].
  apply List.Forall_forall. intros ev Hin.
  rewrite forallb_forall in Hh. now apply Hh.
Qed.

(** Symbolic execution of the monadic code. *)
Ltac run :=
  cbv beta iota delta
    [bind wrap catch ret fail emit get_world next_reply next_http call
     uuid_New time_Now logger_Info logger_Error log_Printf dimension_ok
     os_MkdirAll os_Stat os_ReadFile os_WriteFile json_Unmarshal json_MarshalIndent
     fst snd].

Ltac proj :=
  cbn [w_collection w_points w_file w_script w_http w_uuid w_now w_trace
       set_collection set_points set_file set_script set_http set_uuid set_now set_trace].

(** Case analysis on what the environment answers next. *)
Ltac branch :=
  match goal with
  | |- context [match w_script ?w with _ => _ end] =>
      destruct (w_script w) as [|[|?|?] ?]
  | |- context [match w_collection ?w with _ => _ end] =>
      destruct (w_collection w) eqn:?
  | |- context [if bool_decide ?P then _ else _] =>
      let H := fresh "Hdec" in
      destruct (bool_decide P) eqn:H;
      [apply bool_decide_eq_true_1 in H | apply bool_decide_eq_false_1 in H]
  end; run.

Ltac pop :=
  match goal with
  | H : w_script ?w = _ |- context [match w_script ?w with _ => _ end] =>
      rewrite H
  | |- context [match ?l with [] => _ | _ :: _ => _ end] =>
      is_var l; destruct l as [|[|?|?] ?]
  | |- context [match w_script ?w with _ => _ end] =>
      destruct (w_script w) as [|[|?|?] ?] eqn:?
  end; run; proj.

(** [quiet] between a world and an explicit successor of it. *)
Ltac solve_quiet :=
  first
    [ apply quiet_refl
    | eapply quiet_events;
      [ reflexivity | reflexivity | reflexivity
      | simpl; rewrite <- ?app_assoc; reflexivity
      | reflexivity ]
    | eapply (quiet_events _ _ []);
      [ reflexivity | reflexivity | reflexivity
      | simpl; symmetry; apply app_nil_r
      | reflexivity ] ].

(** The run ended in an error before anything was written. *)
Ltac early Hq :=
  solve [left; eexists; split; [reflexivity|]; eapply quiet_trans; [exact Hq|]; solve_quiet].

Section Store.

Variable rank : list float32 -> list PointStruct -> list PointStruct.

Lemma Quiet_points_Search v limit key kw : Quiet (points_Search rank v limit key kw).
Proof. unfold points_Search. pose proof Quiet_call. quiet. Qed.

Lemma Quiet_QAExists vs q a :
  store_behaves vs -> Quiet (VectorStore_QAExists rank vs q a).
Proof.
  intros H. unfold VectorStore_QAExists.
  pose proof (Quiet_VectorStore_Embed vs q H).
  pose proof Quiet_points_Search. quiet.
Qed.

(** What a successful duplicate check has looked at. *)
Lemma QAExists_Ok vs q a w b w' :
  store_behaves vs ->
  VectorStore_QAExists rank vs q a w = (Ok b, w') ->
  quiet w w' /\
  exists v, b = scan_results q a (to_scored <$> take 5 (rank v (qa_points (w_points w)))).
Proof.
  intros Hvs H. split.
  { pose proof (Quiet_QAExists vs q a Hvs w) as Hq. now rewrite H in Hq. }
  revert H. unfold VectorStore_QAExists, points_Search. run.
  pose proof (Quiet_VectorStore_Embed vs q Hvs w) as Hq.
  destruct (VectorStore_Embed vs q w) as [[v|e] w1]; [|discriminate].
  simpl in Hq. destruct Hq as (Hp & _).
  repeat branch; try discriminate.
  all: intros H; inversion H; subst; exists v; unfold qa_points; simpl;
    try rewrite Hp; try reflexivity.
Qed.

Lemma StoreVector_cases vs id vector metadata w :
  let p := {| Id := id; Vector := vector; Payload := StringValue <$> metadata |} in
  match VectorStore_StoreVector vs id vector metadata w with
  | (Ok _, w') =>
      w_collection w = Some (length vector)
      /\ w_points w' = upsert_point p (w_points w)
      /\ w_collection w' = w_collection w /\ w_file w' = w_file w /\ w_now w' = w_now w
      /\ exists l1 l2 l3,
          w_trace w' = w_trace w ++ [EvLogger l1; EvLogger l2; EvUpsert p true; EvLogger l3]
  | (Err _, w') =>
      w_points w' = w_points w
      /\ w_collection w' = w_collection w /\ w_file w' = w_file w /\ w_now w' = w_now w
      /\ exists l1 l2 l3,
          w_trace w' = w_trace w ++ [EvLogger l1; EvLogger l2; EvUpsert p false; EvLogger l3]
  end.
Proof.
  unfold VectorStore_StoreVector, points_Upsert. run. simpl.
  repeat branch; simpl in *; repeat split; try congruence;
    try (eexists _, _, _; rewrite <- !app_assoc; reflexivity).
Qed.

Lemma VectorStore_StoreQA_cases vs q a qe ae w :
  match VectorStore_QAExists rank vs q a w with
  | (Err e, w1) =>
      exists l,
        VectorStore_StoreQA rank vs q a qe ae w
        = (Err (Errorf_w "failed to check for existing Q&A" e),
           set_trace (w_trace w1 ++ [EvLogger l]) w1)
  | (Ok true, w1) =>
      VectorStore_StoreQA rank vs q a qe ae w
      = (Ok tt,
         set_trace (w_trace w1 ++
           [EvLogger {| log_level := INFO; log_msg := "Q&A pair already exists in Qdrant";
                        log_err := None; log_fields := [("question", q)] |}]) w1)
  | (Ok false, w1) =>
      let p := qa_point (show_nat (S (w_uuid w1))) qe q a (Format_RFC3339 (w_now w1)) in
      match VectorStore_StoreQA rank vs q a qe ae w with
      | (r, w2) =>
          w_file w2 = w_file w1 /\ w_collection w2 = w_collection w1
          /\ exists pre post,
              Forall (fun ev => is_log ev = true) pre
              /\ Forall (fun ev => is_log ev = true) post
              /\ match r with
                 | Ok _ =>
                     w_points w2 = upsert_point p (w_points w1)
                     /\ w_trace w2 = w_trace w1 ++ pre ++ [EvUpsert p true] ++ post
                 | Err _ =>
                     w_points w2 = w_points w1
                     /\ w_trace w2 = w_trace w1 ++ pre ++ [EvUpsert p false] ++ post
                 end
      end
  end.
Proof.
  unfold VectorStore_StoreQA. run.
  destruct (VectorStore_QAExists rank vs q a w) as [[[|]|e] w1]; run.
  - reflexivity.
  - simpl.
    match goal with
    | |- context [VectorStore_StoreVector ?vs ?id ?v ?md ?w] =>
        pose proof (StoreVector_cases vs id v md w) as H;
        destruct (VectorStore_StoreVector vs id v md w) as [[[]|e] w2]
    end; simpl in H.
    + destruct H as (_ & Hp & Hc & Hf & _ & l1 & l2 & l3 & Ht).
      simpl. repeat split; try assumption.
      eexists [EvLogger _; EvLogger _; EvLogger _; EvLogger _], [EvLogger _; EvLogger _].
      split; [repeat constructor|]. split; [repeat constructor|].
      split; [exact Hp|]. rewrite Ht. simpl. rewrite <- !app_assoc. reflexivity.
    + destruct H as (Hp & Hc & Hf & _ & l1 & l2 & l3 & Ht).
      simpl. repeat split; try assumption.
      eexists [EvLogger _; EvLogger _; EvLogger _; EvLogger _], [EvLogger _; EvLogger _].
      split; [repeat constructor|]. split; [repeat constructor|].
      split; [exact Hp|]. rewrite Ht. simpl. rewrite <- !app_assoc. reflexivity.
  - eexists. reflexivity.
Qed.

Lemma VectorStore_StoreQA_keeps vs q a qe ae w :
  store_behaves vs ->
  w_file (snd (VectorStore_StoreQA rank vs q a qe ae w)) = w_file w
  /\ w_collection (snd (VectorStore_StoreQA rank vs q a qe ae w)) = w_collection w.
Proof.
  intros Hvs. pose proof (VectorStore_StoreQA_cases vs q a qe ae w) as H.
  pose proof (Quiet_QAExists vs q a Hvs w) as Hq.
  destruct (VectorStore_QAExists rank vs q a w) as [[[|]|e] w1]; simpl in Hq;
    destruct Hq as (_ & Hc & Hf & _).
  - rewrite H. simpl. auto.
  - destruct (VectorStore_StoreQA rank vs q a qe ae w) as [r w2]; simpl in *.
    destruct H as (Hf' & Hc' & _). split; congruence.
  - destruct H as [l ->]. simpl. auto.
Qed.

(** [Model.StoreQA] returns at once on a duplicate and otherwise goes
    through the storage attempt. *)
Lemma Model_StoreQA_cases m vs q a w :
  ui.VectorStore m = Some vs -> store_behaves vs ->
  match VectorStore_QAExists rank vs q a w, ui.Model_StoreQA rank m q a w with
  | (r0, w0), (r, w') =>
    match r0 with
    | Ok true => r = Ok tt /\ w' = w0
    | _ => storage_attempt rank m vs q a w r w'
    end
  end.
Proof.
  intros Hm Hvs. unfold ui.Model_StoreQA, storage_attempt. rewrite Hm. run.
  pose proof (Quiet_QAExists vs q a Hvs w) as Hq0.
  destruct (VectorStore_QAExists rank vs q a w) as [r0 w0]. simpl in Hq0.
  destruct r0 as [[|]|e0]; [split; reflexivity| |].
  all: pop; try early Hq0.
  all: pop.
  all: destruct (w_file w0) as [[doc|raw]|] eqn:Hf0; run; proj.
  all: try (pop; try early Hq0).
  all: try rewrite Hf0; run; proj; try early Hq0.
  all: lazymatch goal with
       | |- context [VectorStore_Embed ?vs' ?t ?W] =>
           pose proof (Quiet_VectorStore_Embed vs' t Hvs W) as HqA;
           assert (HwA : quiet w W) by (eapply quiet_trans; [exact Hq0|]; solve_quiet)
       end.
  all: lazymatch goal with
       | |- context [VectorStore_Embed ?vs' ?t ?W] =>
           destruct (VectorStore_Embed vs' t W) as [[qe|?] wB] eqn:EA
       end.
  all: simpl in HqA; run; proj.
  all: assert (HwB : quiet w wB) by (eapply quiet_trans; [exact HwA | exact HqA]).
  all: try early HwB.
  all: match goal with
       | |- context [VectorStore_Embed ?vs' ?t ?W] =>
           pose proof (Quiet_VectorStore_Embed vs' t Hvs W) as HqB;
           destruct (VectorStore_Embed vs' t W) as [[ae|?] wC] eqn:EB; simpl in HqB; run; proj
       end.
  all: assert (HwC : quiet w wC) by (eapply quiet_trans; [exact HwB | exact HqB]).
  all: try early HwC.
  all: pose proof (VectorStore_StoreQA_keeps vs q a qe ae wC Hvs) as (Hkf & Hkc).
  all: destruct (VectorStore_StoreQA rank vs q a qe ae wC) as [[[]|e3] wD] eqn:E3;
       simpl in Hkf, Hkc; run; proj.
  all: try pop.
  all: right.
  all: lazymatch type of HwA with
       | quiet _ ?W => eexists _, qe, ae, W, wB, wC
       end.
  all: pose proof HwC as (_ & _ & Hfc & _).
  all: pose proof Hq0 as (_ & _ & Hf00 & evs0 & Ht0 & _).
  all: first
    [ (split; [left; unfold archive; rewrite <- Hf00, Hf0; reflexivity|]);
      (split; [exact HwA|]); (split; [exact EA|]); (split; [exact EB|]);
      rewrite E3; proj;
      first
        [ split; [reflexivity|]; split; [reflexivity|]; left; repeat split; reflexivity
        | split; [reflexivity|]; split; [reflexivity|]; right; eexists; split; [reflexivity|];
          split; [left; simpl; congruence | reflexivity]
        | split; [reflexivity|]; split; [reflexivity|]; right; eexists; split; [reflexivity|];
          split; [right; reflexivity | reflexivity]
        | split; [reflexivity|]; split; [simpl; congruence|]; split; [reflexivity|];
          eexists; split; reflexivity ]
    | (split; [right; split; [reflexivity|];
               eexists (evs0 ++ [_; _]); split;
               [cbn; rewrite Ht0, <- !app_assoc; reflexivity
               | apply elem_of_app; right; apply list_elem_of_further, list_elem_of_here]|]);
      (split; [exact HwA|]); (split; [exact EA|]); (split; [exact EB|]);
      rewrite E3; proj;
      first
        [ split; [reflexivity|]; split; [reflexivity|]; left; repeat split; reflexivity
        | split; [reflexivity|]; split; [reflexivity|]; right; eexists; split; [reflexivity|];
          split; [left; simpl; congruence | reflexivity]
        | split; [reflexivity|]; split; [reflexivity|]; right; eexists; split; [reflexivity|];
          split; [right; reflexivity | reflexivity]
        | split; [reflexivity|]; split; [simpl; congruence|]; split; [reflexivity|];
          eexists; split; reflexivity ] ].
Qed.

End Store.

Lemma harmless_not_upsert ev : harmless ev = true -> is_upsert ev = false.
Proof. now destruct ev. Qed.

Lemma harmless_not_write ev : harmless ev = true -> is_write ev = false.
Proof. now destruct ev. Qed.

Lemma is_log_harmless ev : is_log ev = true -> harmless ev = true.
Proof. now destruct ev. Qed.

Lemma is_log_not_write ev : is_log ev = true -> is_write ev = false.
Proof. now destruct ev. Qed.

Lemma is_log_not_upsert ev : is_log ev = true -> is_upsert ev = false.
Proof. now destruct ev. Qed.

Section Traces.
Variable rank : list float32 -> list PointStruct -> list PointStruct.

Lemma QAExists_trace vs q a w b w' :
  store_behaves vs ->
  VectorStore_QAExists rank vs q a w = (Ok b, w') ->
  exists evs v,
    w_trace w' = w_trace w ++ evs ++ [EvSearch v 5 true]
    /\ Forall (fun ev => harmless ev = true) evs.
Proof.
  intros Hvs. unfold VectorStore_QAExists, points_Search. run.
  pose proof (Quiet_VectorStore_Embed vs q Hvs w) as Hq.
  destruct (VectorStore_Embed vs q w) as [[v|e] w1]; [|discriminate].
  simpl in Hq. destruct Hq as (_ & _ & _ & evs & Ht & Hh).
  repeat branch; try discriminate.
  all: intros H; inversion H; subst; exists evs, v; simpl; rewrite Ht, <- app_assoc; auto.
Qed.

Lemma VectorStore_StoreQA_trace vs q a qe ae w :
  store_behaves vs ->
  exists evs,
    w_trace (snd (VectorStore_StoreQA rank vs q a qe ae w)) = w_trace w ++ evs
    /\ ((Forall (fun ev => harmless ev = true) evs
         /\ w_points (snd (VectorStore_StoreQA rank vs q a qe ae w)) = w_points w)
        \/ exists pre v logs p ok post,
            evs = pre ++ [EvSearch v 5 true] ++ logs ++ [EvUpsert p ok] ++ post
            /\ Forall (fun ev => harmless ev = true) pre
            /\ Forall (fun ev => is_log ev = true) logs
            /\ Forall (fun ev => is_log ev = true) post).
Proof.
  intros Hvs. pose proof (VectorStore_StoreQA_cases rank vs q a qe ae w) as H.
  pose proof (Quiet_QAExists rank vs q a Hvs w) as Hq.
  destruct (VectorStore_QAExists rank vs q a w) as [[[|]|e] w1] eqn:E; simpl in Hq.
  - rewrite H. simpl. destruct Hq as (Hp & _ & _ & evs & Ht & Hh).
    exists (evs ++ [EvLogger {| log_level := INFO; log_msg := "Q&A pair already exists in Qdrant";
                        log_err := None; log_fields := [("question", q)] |}]).
    split; [now rewrite Ht, app_assoc|]. left. split; [|assumption].
    apply Forall_app. split; [assumption | now repeat constructor].
  - destruct (QAExists_trace _ _ _ _ _ _ Hvs E) as (evs & v & Ht & Hh).
    destruct (VectorStore_StoreQA rank vs q a qe ae w) as [r w2]. simpl in *.
    destruct H as (_ & _ & pre & post & Hpre & Hpost & Hr).
    destruct r as [[]|e].
    + destruct Hr as (_ & Ht2). eexists. split.
      * rewrite Ht2, Ht. rewrite <- !app_assoc. reflexivity.
      * right. eexists evs, v, pre, _, true, post. auto.
    + destruct Hr as (_ & Ht2). eexists. split.
      * rewrite Ht2, Ht. rewrite <- !app_assoc. reflexivity.
      * right. eexists evs, v, pre, _, false, post. auto.
  - destruct H as [l ->]. simpl. destruct Hq as (Hp & _ & _ & evs & Ht & Hh).
    exists (evs ++ [EvLogger l]).
    split; [now rewrite Ht, app_assoc|]. left. split; [|assumption].
    apply Forall_app. split; [assumption | now repeat constructor].
Qed.


Lemma reaches_quietly vs q a w wA wB wC qe ae :
  store_behaves vs -> quiet w wA ->
  VectorStore_Embed vs q wA = (Ok qe, wB) ->
  VectorStore_Embed vs a wB = (Ok ae, wC) ->
  quiet w wC.
Proof.
  intros Hvs HA EA EB.
  pose proof (Quiet_VectorStore_Embed vs q Hvs wA) as H1. rewrite EA in H1.
  pose proof (Quiet_VectorStore_Embed vs a Hvs wB) as H2. rewrite EB in H2.
  eapply quiet_trans; [exact HA|]. eapply quiet_trans; [exact H1 | exact H2].
Qed.

Lemma storage_attempt_guarded m vs q a w r w' :
  store_behaves vs -> storage_attempt rank m vs q a w r w' ->
  exists evs, w_trace w' = w_trace w ++ evs /\ guarded evs.
Proof.
  intros Hvs [(e & -> & Hq)|(old & qe & ae & wA & wB & wC & _ & HA & EA & EB & Hs)].
  - destruct Hq as (_ & _ & _ & evs & Ht & Hh). exists evs. split; [assumption|].
    left. eapply Forall_impl; [exact Hh | apply harmless_not_upsert].
  - pose proof (reaches_quietly _ _ _ _ _ _ _ _ _ Hvs HA EA EB)
      as (_ & _ & _ & eC & HtC & HhC).
    destruct (VectorStore_StoreQA_trace vs q a qe ae wC Hvs) as (eD & HtD & Hshape).
    assert (Hlast : exists l, w_trace w' = w_trace (snd (VectorStore_StoreQA rank vs q a qe ae wC)) ++ [l]
                              /\ is_upsert l = false).
    { destruct (VectorStore_StoreQA rank vs q a qe ae wC) as [[[]|e3] wD]; simpl.
      - destruct Hs as (_ & _ & [(_ & _ & Ht)|(msg & _ & _ & Ht)]); eauto.
      - destruct Hs as (_ & _ & _ & l & Ht & Hl). exists l. split; [assumption|].
        now apply is_log_not_upsert. }
    destruct Hlast as (l & Ht & Hl).
    exists (eC ++ eD ++ [l]). split.
    { rewrite Ht, HtD, HtC. now rewrite <- !app_assoc. }
    destruct Hshape as [(Hh & _)|(pre & v & logs & p & ok & post & -> & Hpre & Hlogs & Hpost)].
    + left. apply Forall_app. split.
      * eapply Forall_impl; [exact HhC | apply harmless_not_upsert].
      * apply Forall_app. split; [|now repeat constructor].
        eapply Forall_impl; [exact Hh | apply harmless_not_upsert].
    + right. exists (eC ++ pre), v, logs, p, ok, (post ++ [l]).
      split; [now rewrite <- !app_assoc|].
      split; [|split; [assumption|]].
      * apply Forall_app. split; (eapply Forall_impl; [eassumption | apply harmless_not_upsert]).
      * apply Forall_app. split; [|now repeat constructor].
        eapply Forall_impl; [exact Hpost | apply is_log_not_upsert].
Qed.

Lemma storage_attempt_write m vs q a w r w' :
  store_behaves vs -> storage_attempt rank m vs q a w r w' ->
  exists evs, w_trace w' = w_trace w ++ evs /\
    ((Forall (fun ev => is_write ev = false) evs /\ w_file w' = w_file w)
     \/ exists evs0 name data ok qe ae wA wB wC wD,
          evs = evs0 ++ [EvWriteFile name data ok]
          /\ Forall (fun ev => is_write ev = false) evs0
          /\ VectorStore_Embed vs q wA = (Ok qe, wB)
          /\ VectorStore_Embed vs a wB = (Ok ae, wC)
          /\ VectorStore_StoreQA rank vs q a qe ae wC = (Ok tt, wD)
          /\ w_trace wD = w_trace w ++ evs0).
Proof.
  intros Hvs [(e & -> & Hq)|(old & qe & ae & wA & wB & wC & _ & HA & EA & EB & Hs)].
  - destruct Hq as (_ & _ & Hf & evs & Ht & Hh). exists evs. split; [assumption|].
    left. split; [|assumption]. eapply Forall_impl; [exact Hh | apply harmless_not_write].
  - pose proof (reaches_quietly _ _ _ _ _ _ _ _ _ Hvs HA EA EB)
      as (_ & _ & _ & eC & HtC & HhC).
    destruct (VectorStore_StoreQA_trace vs q a qe ae wC Hvs) as (eD & HtD & Hshape).
    assert (HnD : Forall (fun ev => is_write ev = false) eD).
    { destruct Hshape as [(Hh & _)|(pre & v & logs & p & ok & post & -> & Hpre & Hlogs & Hpost)].
      - eapply Forall_impl; [exact Hh | apply harmless_not_write].
      - repeat (apply Forall_app; split); try now repeat constructor.
        + eapply Forall_impl; [exact Hpre | apply harmless_not_write].
        + eapply Forall_impl; [exact Hlogs | apply is_log_not_write].
        + eapply Forall_impl; [exact Hpost | apply is_log_not_write]. }
    assert (HnC : Forall (fun ev => is_write ev = false) eC)
      by (eapply Forall_impl; [exact HhC | apply harmless_not_write]).
    destruct (VectorStore_StoreQA rank vs q a qe ae wC) as [[[]|e3] wD] eqn:E3; simpl in *.
    + destruct Hs as (_ & _ & [(_ & _ & Ht)|(msg & _ & _ & Ht)]).
      * exists ((eC ++ eD) ++ [EvWriteFile (filepath_Join (ui.VaultPath m) "que_ans.json")
           (JSON {| QAs := old ++ [{| Question := q; Answer := a; Time := w_now wD |}] |}) true]).
        split; [rewrite Ht, HtD, HtC; now rewrite <- !app_assoc|].
        right. eexists (eC ++ eD), _, _, true, qe, ae, wA, wB, wC, wD.
        repeat split; try assumption; try reflexivity.
        -- now apply Forall_app.
        -- rewrite HtD, HtC. now rewrite <- !app_assoc.
      * exists ((eC ++ eD) ++ [EvWriteFile (filepath_Join (ui.VaultPath m) "que_ans.json")
           (JSON {| QAs := old ++ [{| Question := q; Answer := a; Time := w_now wD |}] |}) false]).
        split; [rewrite Ht, HtD, HtC; now rewrite <- !app_assoc|].
        right. eexists (eC ++ eD), _, _, false, qe, ae, wA, wB, wC, wD.
        repeat split; try assumption; try reflexivity.
        -- now apply Forall_app.
        -- rewrite HtD, HtC. now rewrite <- !app_assoc.
    + destruct Hs as (_ & Hf & _ & l & Ht & Hl).
      exists (eC ++ eD ++ [l]). split; [rewrite Ht, HtD, HtC; now rewrite <- !app_assoc|].
      left. split; [|assumption].
      repeat (apply Forall_app; split); try assumption.
      repeat constructor. now apply is_log_not_write.
Qed.

(** C10 (as amended). Without a vector store [Model.StoreQA] fails at once.
    With one, whenever it returns an error the archive file is as before,
    unless the error is the write's own failure; the write of the archive
    is the last thing the call does, and it is reached only after both
    embeddings and [VectorStore.StoreQA] have returned without error (the
    latter either upserted the record or found the pair already there);
    the first duplicate check need not have succeeded. *)
Theorem Model_StoreQA_error_keeps_archive m q a w :
  match ui.VectorStore m with
  | None => ui.Model_StoreQA rank m q a w = (Err "vector store is not initialized", w)
  | Some vs =>
      store_behaves vs ->
      match ui.Model_StoreQA rank m q a w with
      | (r, w') =>
          match r with
          | Err e =>
              w_file w' = w_file w
              \/ exists msg, e = Errorf_w "failed to write Q&As to file" msg
          | Ok _ => True
          end
          /\ exists evs, w_trace w' = w_trace w ++ evs /\
               ((Forall (fun ev => is_write ev = false) evs /\ w_file w' = w_file w)
                \/ exists evs0 name data ok qe ae wA wB wC wD,
                     evs = evs0 ++ [EvWriteFile name data ok]
                     /\ Forall (fun ev => is_write ev = false) evs0
                     /\ VectorStore_Embed vs q wA = (Ok qe, wB)
                     /\ VectorStore_Embed vs a wB = (Ok ae, wC)
                     /\ VectorStore_StoreQA rank vs q a qe ae wC = (Ok tt, wD)
                     /\ w_trace wD = w_trace w ++ evs0)
      end
  end.
Proof.
  destruct (ui.VectorStore m) as [vs|] eqn:Hm.
  2: { unfold ui.Model_StoreQA. now rewrite Hm. }
  intros Hvs.
  pose proof (Model_StoreQA_cases rank m vs q a w Hm Hvs) as H.
  pose proof (Quiet_QAExists rank vs q a Hvs w) as Hq0.
  destruct (VectorStore_QAExists rank vs q a w) as [r0 w0]; simpl in Hq0.
  destruct (ui.Model_StoreQA rank m q a w) as [r w'].
  assert (Hatt : storage_attempt rank m vs q a w r w' ->
    match r with
    | Err e =>
        w_file w' = w_file w
        \/ exists msg, e = Errorf_w "failed to write Q&As to file" msg
    | Ok _ => True
    end).
  { intros [(e & -> & Hq)|(old & qe & ae & wA & wB & wC & _ & _ & _ & _ & Hs)].
    - left. apply Hq.
    - destruct (VectorStore_StoreQA rank vs q a qe ae wC) as [[[]|e3] wD].
      + destruct Hs as (_ & _ & [(-> & _)|(msg & -> & _)]); [exact I | right; eauto].
      + destruct Hs as (-> & Hf & _). now left. }
  destruct r0 as [[|]|e0].
  - destruct H as (-> & ->). split; [exact I|].
    destruct Hq0 as (_ & _ & Hf & evs & Ht & Hh). exists evs. split; [assumption|].
    left. split; [|assumption]. eapply Forall_impl; [exact Hh | apply harmless_not_write].
  - split; [now apply Hatt | now apply (storage_attempt_write m vs q a w r w' Hvs)].
  - split; [now apply Hatt | now apply (storage_attempt_write m vs q a w r w' Hvs)].
Qed.

(** C5 (as amended). When the question is embedded and the search fails,
    [QAExists] returns the search error; [VectorStore.StoreQA] returns a
    failed check to its caller, wrapped, and attempts no upsert; and in any
    call of [Model.StoreQA] an upsert is only ever attempted right after a
    successful duplicate search of that call.  (What is not claimed: that
    [Model.StoreQA] returns the failure of its own first check; it goes on
    to the storage attempt, where the check is made again.) *)
Theorem failed_check_blocks_upsert :
  (forall vs q a w emb w1 e w2,
      VectorStore_Embed vs q w = (Ok emb, w1) ->
      points_Search rank emb 5 "type" "qa_pair" w1 = (Err e, w2) ->
      VectorStore_QAExists rank vs q a w = (Err (Errorf_w "search failed" e), w2))
  /\ (forall vs q a qe ae w e w1,
        VectorStore_QAExists rank vs q a w = (Err e, w1) ->
        exists l,
          VectorStore_StoreQA rank vs q a qe ae w
          = (Err (Errorf_w "failed to check for existing Q&A" e),
             set_trace (w_trace w1 ++ [EvLogger l]) w1))
  /\ (forall m vs q a w,
        ui.VectorStore m = Some vs -> store_behaves vs ->
        exists evs,
          w_trace (snd (ui.Model_StoreQA rank m q a w)) = w_trace w ++ evs
          /\ guarded evs).
Proof.
  split; [|split].
  - intros vs q a w emb w1 e w2 E1 E2.
    unfold VectorStore_QAExists, bind, wrap. now rewrite E1, E2.
  - intros vs q a qe ae w e w1 E.
    pose proof (VectorStore_StoreQA_cases rank vs q a qe ae w) as H.
    now rewrite E in H.
  - intros m vs q a w Hm Hvs.
    pose proof (Model_StoreQA_cases rank m vs q a w Hm Hvs) as H.
    pose proof (Quiet_QAExists rank vs q a Hvs w) as Hq0.
    destruct (VectorStore_QAExists rank vs q a w) as [r0 w0]; simpl in Hq0.
    destruct (ui.Model_StoreQA rank m q a w) as [r w']. simpl.
    destruct r0 as [[|]|e0].
    + destruct H as (-> & ->).
      destruct Hq0 as (_ & _ & _ & evs & Ht & Hh). exists evs. split; [assumption|].
      left. eapply Forall_impl; [exact Hh | apply harmless_not_upsert].
    + now apply (storage_attempt_guarded m vs q a w r w' Hvs).
    + now apply (storage_attempt_guarded m vs q a w r w' Hvs).
Qed.


Lemma scan_results_true q a rs :
  scan_results q a rs = true <-> exists r, r ∈ rs /\ result_matches q a r = true.
Proof.
  induction rs as [|r rs IH]; simpl.
  - split; [discriminate | intros (r & Hr & _); inversion Hr].
  - destruct (result_matches q a r) eqn:E.
    + split; [intros _; exists r; split; [constructor | assumption] | reflexivity].
    + rewrite IH. split.
      * intros (r' & Hin & Hm). exists r'. split; [now constructor | assumption].
      * intros (r' & Hin & Hm). inversion Hin; subst; [congruence | eauto].
Qed.


Lemma QAExists_visible vs q a w b w' :
  store_behaves vs -> visible rank q a (w_points w) ->
  VectorStore_QAExists rank vs q a w = (Ok b, w') -> b = true.
Proof.
  intros Hvs Hvis E.
  destruct (QAExists_Ok rank vs q a w b w' Hvs E) as (_ & v & ->).
  apply scan_results_true. destruct (Hvis v) as (p & Hin & Hm).
  exists (to_scored p). split; [|assumption].
  apply list_elem_of_fmap. eauto.
Qed.

Lemma VectorStore_StoreQA_visible vs q a qe ae w :
  store_behaves vs -> visible rank q a (w_points w) ->
  quiet w (snd (VectorStore_StoreQA rank vs q a qe ae w)).
Proof.
  intros Hvs Hvis. pose proof (VectorStore_StoreQA_cases rank vs q a qe ae w) as H.
  pose proof (Quiet_QAExists rank vs q a Hvs w) as Hq.
  destruct (VectorStore_QAExists rank vs q a w) as [[[|]|e] w1] eqn:E; simpl in Hq.
  - rewrite H. simpl. eapply quiet_trans; [exact Hq | solve_quiet].
  - pose proof (QAExists_visible _ _ _ _ _ _ Hvs Hvis E). discriminate.
  - destruct H as [l ->]. simpl. eapply quiet_trans; [exact Hq | solve_quiet].
Qed.

Lemma second_store vs m q a w :
  ui.VectorStore m = Some vs -> store_behaves vs -> visible rank q a (w_points w) ->
  match ui.Model_StoreQA rank m q a w with
  | (r, w') =>
      w_points w' = w_points w
      /\ (exists evs, w_trace w' = w_trace w ++ evs
                      /\ Forall (fun ev => is_upsert ev = false) evs)
      /\ (forall b w0, VectorStore_QAExists rank vs q a w = (Ok b, w0) ->
                       b = true /\ r = Ok tt /\ w' = w0)
  end.
Proof.
  intros Hm Hvs Hvis.
  pose proof (Model_StoreQA_cases rank m vs q a w Hm Hvs) as H.
  pose proof (Quiet_QAExists rank vs q a Hvs w) as Hq0.
  destruct (VectorStore_QAExists rank vs q a w) as [r0 w0] eqn:E0; simpl in Hq0.
  destruct (ui.Model_StoreQA rank m q a w) as [r w'].
  destruct r0 as [[|]|e0].
  - destruct H as (-> & ->). destruct Hq0 as (Hp & _ & _ & evs & Ht & Hh).
    split; [assumption|]. split.
    + exists evs. split; [assumption|].
      eapply Forall_impl; [exact Hh | apply harmless_not_upsert].
    + intros b w1 [= <- <-]. auto.
  - pose proof (QAExists_visible _ _ _ _ _ _ Hvs Hvis E0). discriminate.
  - assert (Hw : w_points w' = w_points w
                 /\ exists evs, w_trace w' = w_trace w ++ evs
                                /\ Forall (fun ev => is_upsert ev = false) evs).
    { destruct H as [(e & -> & Hq)|(old & qe & ae & wA & wB & wC & _ & HA & EA & EB & Hs)].
      - destruct Hq as (Hp & _ & _ & evs & Ht & Hh). split; [assumption|].
        exists evs. split; [assumption|].
        eapply Forall_impl; [exact Hh | apply harmless_not_upsert].
      - pose proof (reaches_quietly _ _ _ _ _ _ _ _ _ Hvs HA EA EB) as HC.
        assert (HvC : visible rank q a (w_points wC)).
        { destruct HC as (-> & _). exact Hvis. }
        pose proof (VectorStore_StoreQA_visible vs q a qe ae wC Hvs HvC) as HD.
        pose proof (quiet_trans _ _ _ HC HD) as (Hp & _ & _ & evs & Ht & Hh).
        assert (Hnu : Forall (fun ev => is_upsert ev = false) evs)
          by (eapply Forall_impl; [exact Hh | apply harmless_not_upsert]).
        destruct (VectorStore_StoreQA rank vs q a qe ae wC) as [[[]|e3] wD]; simpl in *.
        + destruct Hs as (Hp' & _ & [(_ & _ & Ht')|(msg & _ & _ & Ht')]).
          * split; [congruence|]. eexists. split; [rewrite Ht', Ht, <- app_assoc; reflexivity|].
            apply Forall_app. split; [assumption | now repeat constructor].
          * split; [congruence|]. eexists. split; [rewrite Ht', Ht, <- app_assoc; reflexivity|].
            apply Forall_app. split; [assumption | now repeat constructor].
        + destruct Hs as (_ & _ & Hp' & l & Ht' & Hl).
          split; [congruence|]. eexists. split; [rewrite Ht', Ht, <- app_assoc; reflexivity|].
          apply Forall_app. split; [assumption|]. repeat constructor.
          now apply is_log_not_upsert. }
    destruct Hw as (Hp & Hev). split; [assumption|]. split; [assumption|].
    intros b w1 [=].
Qed.


Lemma qa_payload_type q a ts :
  (StringValue <$> qa_metadata q a ts : gmap string Value) !! "type"
  = Some (StringValue "qa_pair").
Proof. unfold qa_metadata. now rewrite lookup_fmap, lookup_insert_eq. Qed.

Lemma qa_payload_question q a ts :
  (StringValue <$> qa_metadata q a ts : gmap string Value) !! "question"
  = Some (StringValue q).
Proof.
  unfold qa_metadata.
  rewrite lookup_fmap, lookup_insert_ne by done. now rewrite lookup_insert_eq.
Qed.

Lemma qa_payload_answer q a ts :
  (StringValue <$> qa_metadata q a ts : gmap string Value) !! "answer"
  = Some (StringValue a).
Proof.
  unfold qa_metadata.
  rewrite lookup_fmap, !lookup_insert_ne by done. now rewrite lookup_insert_eq.
Qed.

Lemma qa_point_is_duplicate id qe q a ts :
  duplicate_of q a (qa_point id qe q a ts) = true.
Proof.
  unfold duplicate_of, has_keyword, result_matches, to_scored, qa_point.
  cbn [Payload sp_Payload].
  destruct (decide _) as [He|_].
  { pose proof (qa_payload_type q a ts) as Ht. rewrite He, lookup_empty in Ht. discriminate. }
  rewrite qa_payload_type, qa_payload_question, qa_payload_answer. simpl.
  rewrite !bool_decide_eq_true_2; reflexivity.
Qed.


Lemma no_duplicate_invisible q a ps v :
  (forall v ps p, p ∈ rank v ps -> p ∈ ps) ->
  duplicates q a ps = 0 ->
  scan_results q a (to_scored <$> take 5 (rank v (qa_points ps))) = false.
Proof.
  intros Hsound H0.
  destruct (scan_results q a _) eqn:E; [|reflexivity].
  apply scan_results_true in E. destruct E as (r & Hin & Hm).
  apply list_elem_of_fmap in Hin. destruct Hin as (p & -> & Hin).
  apply subseteq_take in Hin. apply Hsound in Hin.
  apply list_elem_of_filter in Hin. destruct Hin as [Hk Hin].
  unfold duplicates in H0. apply length_zero_iff_nil in H0.
  assert (Hd : p ∈ filter (fun p => duplicate_of q a p = true) ps).
  { apply list_elem_of_filter. split; [|assumption].
    unfold duplicate_of. now rewrite Hk, Hm. }
  rewrite H0 in Hd. inversion Hd.
Qed.


Lemma small_store_visible q a ps :
  (forall v ps, rank v ps ≡ₚ ps) ->
  length (qa_points ps) <= 5 ->
  (exists p, p ∈ ps /\ duplicate_of q a p = true) ->
  visible rank q a ps.
Proof.
  intros Hperm Hlen (p & Hin & Hd) v.
  unfold duplicate_of in Hd. apply andb_true_iff in Hd. destruct Hd as [Hk Hm].
  exists p. split; [|assumption].
  rewrite take_ge by (rewrite (Permutation_length (Hperm v _)); exact Hlen).
  rewrite (Hperm v _). apply list_elem_of_filter. auto.
Qed.

Lemma DummyEmbedder_length text : length (DummyEmbedder_vector text) = 1024.
Proof. unfold DummyEmbedder_vector. now rewrite length_fmap, length_seq. Qed.



End Traces.

(** ** The store: the claims at concrete inputs *)

Lemma dummy_store_behaves : store_behaves scenario.dummy_store.
Proof. intros e [= <-]. apply DummyEmbedder_behaves. Qed.

Lemma rank_oldest_first_sound v ps p :
  p ∈ scenario.rank_oldest_first v ps -> p ∈ ps.
Proof. exact (fun H => H). Qed.

Lemma rank_oldest_first_perm v ps : scenario.rank_oldest_first v ps ≡ₚ ps.
Proof. reflexivity. Qed.


Lemma world_stored_points :
  w_points scenario.world_stored
  = [qa_point "1" (DummyEmbedder_vector scenario.question1)
       scenario.question1 scenario.answer1 "0"].
Proof. vm_compute. reflexivity. Qed.

Lemma world_stored_visible :
  visible scenario.rank_oldest_first scenario.question1 scenario.answer1
    (w_points scenario.world_stored).
Proof.
  apply small_store_visible.
  - apply rank_oldest_first_perm.
  - rewrite world_stored_points. vm_compute. lia.
  - rewrite world_stored_points. eexists. split; [left|]. apply qa_point_is_duplicate.
Qed.



(** When [os.Stat] fails on the archive, [Model.StoreQA] does not read
    it: the call returns nil and the file holds the new entry alone. *)
Lemma failed_stat_skips_the_read :
  archive scenario.world_stored
  = Ok [{| Question := scenario.question1; Answer := scenario.answer1; Time := 1 |}]
  /\ fst (ui.Model_StoreQA scenario.rank_oldest_first scenario.model0
            scenario.question1 "Another answer." scenario.world_stat_fails) = Ok tt
  /\ archive (snd (ui.Model_StoreQA scenario.rank_oldest_first scenario.model0
                     scenario.question1 "Another answer." scenario.world_stat_fails))
     = Ok [{| Question := scenario.question1; Answer := "Another answer."; Time := 3 |}]
  /\ filter (fun ev => is_stat ev = true)
       (scenario.new_events scenario.world_stat_fails
          (snd (ui.Model_StoreQA scenario.rank_oldest_first scenario.model0
                  scenario.question1 "Another answer." scenario.world_stat_fails)))
     = [EvStat "vault/que_ans.json" false].
Proof. repeat split; vm_compute; reflexivity. Qed.

(** C5, refuted as stated: the first search fails, yet [Model.StoreQA]
    returns nil and has upserted the record. *)
Lemma first_check_failure_is_swallowed :
  fst (VectorStore_QAExists scenario.rank_oldest_first scenario.dummy_store
         scenario.question1 scenario.answer1 scenario.world_search_down)
  = Err "search failed: connection refused"
  /\ fst (ui.Model_StoreQA scenario.rank_oldest_first scenario.model0
            scenario.question1 scenario.answer1 scenario.world_search_down) = Ok tt
  /\ length (filter (fun ev => is_upsert ev = true)
               (w_trace (snd (ui.Model_StoreQA scenario.rank_oldest_first scenario.model0
                          scenario.question1 scenario.answer1 scenario.world_search_down))))
     = 1
  /\ length (w_points (snd (ui.Model_StoreQA scenario.rank_oldest_first scenario.model0
                         scenario.question1 scenario.answer1 scenario.world_search_down)))
     = 1.
Proof. vm_compute. auto. Qed.

Lemma failed_check_blocks_upsert_witness :
  VectorStore_QAExists scenario.rank_oldest_first scenario.dummy_store
    scenario.question1 scenario.answer1 scenario.world_search_down
  = (Err "search failed: connection refused",
     snd (VectorStore_QAExists scenario.rank_oldest_first scenario.dummy_store
            scenario.question1 scenario.answer1 scenario.world_search_down))
  /\ exists l,
      VectorStore_StoreQA scenario.rank_oldest_first scenario.dummy_store
        scenario.question1 scenario.answer1 [] [] scenario.world_search_down
      = (Err (Errorf_w "failed to check for existing Q&A"
                "search failed: connection refused"),
         set_trace
           (w_trace (snd (VectorStore_QAExists scenario.rank_oldest_first
                            scenario.dummy_store scenario.question1 scenario.answer1
                            scenario.world_search_down)) ++ [EvLogger l])
           (snd (VectorStore_QAExists scenario.rank_oldest_first scenario.dummy_store
                   scenario.question1 scenario.answer1 scenario.world_search_down))).
Proof.
  split; [vm_compute; reflexivity|].
  apply (proj1 (proj2 (failed_check_blocks_upsert scenario.rank_oldest_first))).
  vm_compute; reflexivity.
Defined.

(** C10, refuted as stated: the first duplicate check fails, the check in
    [VectorStore.StoreQA] finds the pair, nothing is upserted, and the
    archive gains a second entry. *)
Lemma archive_written_without_upsert :
  fst (VectorStore_QAExists scenario.rank_oldest_first scenario.dummy_store
         scenario.question1 scenario.answer1 scenario.world_stored_search_down)
  = Err "search failed: connection refused"
  /\ fst (ui.Model_StoreQA scenario.rank_oldest_first scenario.model0
            scenario.question1 scenario.answer1 scenario.world_stored_search_down) = Ok tt
  /\ w_file (snd (ui.Model_StoreQA scenario.rank_oldest_first scenario.model0
                    scenario.question1 scenario.answer1 scenario.world_stored_search_down))
     = Some (JSON {| QAs := [{| Question := scenario.question1;
                                Answer := scenario.answer1; Time := 1 |};
                             {| Question := scenario.question1;
                                Answer := scenario.answer1; Time := 2 |}] |})
  /\ filter (fun ev => is_upsert ev = true)
       (scenario.new_events scenario.world_stored_search_down
          (snd (ui.Model_StoreQA scenario.rank_oldest_first scenario.model0
                  scenario.question1 scenario.answer1 scenario.world_stored_search_down)))
     = [].
Proof. vm_compute. auto. Qed.

Lemma Model_StoreQA_error_keeps_archive_witness :
  store_behaves scenario.dummy_store
  /\ match ui.Model_StoreQA scenario.rank_oldest_first scenario.model0
             scenario.question1 scenario.answer1 scenario.fresh_world with
     | (r, w') =>
         match r with
         | Err e =>
             w_file w' = w_file scenario.fresh_world
             \/ exists msg, e = Errorf_w "failed to write Q&As to file" msg
         | Ok _ => True
         end
         /\ exists evs, w_trace w' = w_trace scenario.fresh_world ++ evs /\
              ((Forall (fun ev => is_write ev = false) evs
                /\ w_file w' = w_file scenario.fresh_world)
               \/ exists evs0 name data ok qe ae wA wB wC wD,
                    evs = evs0 ++ [EvWriteFile name data ok]
                    /\ Forall (fun ev => is_write ev = false) evs0
                    /\ VectorStore_Embed scenario.dummy_store scenario.question1 wA = (Ok qe, wB)
                    /\ VectorStore_Embed scenario.dummy_store scenario.answer1 wB = (Ok ae, wC)
                    /\ VectorStore_StoreQA scenario.rank_oldest_first scenario.dummy_store
                         scenario.question1 scenario.answer1 qe ae wC = (Ok tt, wD)
                    /\ w_trace wD = w_trace scenario.fresh_world ++ evs0)
     end.
Proof.
  split; [exact dummy_store_behaves|].
  exact (Model_StoreQA_error_keeps_archive scenario.rank_oldest_first scenario.model0
           scenario.question1 scenario.answer1 scenario.fresh_world dummy_store_behaves).
Defined.


(** ** Channel operations on one cell and on the others *)

Section Channels.
Context {A : Type}.
Implicit Types (cells : list (Chan A)) (R : Chan A).

Lemma send_other r (v : A) cells cells' rc :
  send (Some r) v cells = Go cells' -> r <> rc -> cells' !! rc = cells !! rc.
Proof.
  unfold send. destruct (cells !! r) as [c|]; [|discriminate].
  destruct (closed c); [discriminate|]. destruct (_ <? _); [|discriminate].
  intros [= <-] Hne. now apply list_lookup_insert_ne.
Qed.

Lemma send_at rc (v : A) cells cells' R :
  send (Some rc) v cells = Go cells' -> cells !! rc = Some R ->
  length (buf R) < cap R
  /\ cells' !! rc = Some {| buf := buf R ++ [v]; cap := cap R; closed := false |}.
Proof.
  unfold send. intros H HR. rewrite HR in H.
  destruct (closed R); [discriminate|].
  destruct (length (buf R) <? cap R) eqn:E; [|discriminate].
  injection H as <-. split; [now apply Nat.ltb_lt in E|].
  apply list_lookup_insert_eq. now apply lookup_lt_Some in HR.
Qed.

Lemma close_other r cells cells' rc :
  close (Some r) cells = Go cells' -> r <> rc -> cells' !! rc = cells !! rc.
Proof.
  unfold close. destruct (cells !! r) as [c|]; [|discriminate].
  destruct (closed c); [discriminate|].
  intros [= <-] Hne. now apply list_lookup_insert_ne.
Qed.

Lemma close_at rc cells cells' R :
  close (Some rc) cells = Go cells' -> cells !! rc = Some R ->
  cells' !! rc = Some {| buf := buf R; cap := cap R; closed := true |}.
Proof.
  unfold close. intros H HR. rewrite HR in H.
  destruct (closed R); [discriminate|]. injection H as <-.
  apply list_lookup_insert_eq. now apply lookup_lt_Some in HR.
Qed.

Lemma recv_other (zero : A) r cells v ok cells' rc :
  recv zero (Some r) cells = Go (v, ok, cells') -> r <> rc -> cells' !! rc = cells !! rc.
Proof.
  unfold recv. destruct (cells !! r) as [c|]; [|discriminate].
  destruct (buf c).
  - destruct (closed c); [|discriminate]. now intros [= _ _ <-].
  - intros [= _ _ <-] Hne. now apply list_lookup_insert_ne.
Qed.

Lemma recv_at (zero : A) rc cells v ok cells' R :
  recv zero (Some rc) cells = Go (v, ok, cells') -> cells !! rc = Some R ->
  (exists rest, buf R = v :: rest
                /\ cells' !! rc = Some {| buf := rest; cap := cap R; closed := closed R |})
  \/ (buf R = [] /\ v = zero /\ cells' = cells).
Proof.
  unfold recv. intros H HR. rewrite HR in H.
  destruct (buf R) as [|x rest].
  - destruct (closed R); [|discriminate]. injection H as <- _ <-. now right.
  - injection H as <- _ <-. left. exists rest. split; [reflexivity|].
    apply list_lookup_insert_eq. now apply lookup_lt_Some in HR.
Qed.

Lemma can_recv_close (st : chan) r cells cells' :
  close (Some r) cells = Go cells' ->
  can_recv st cells = true -> can_recv st cells' = true.
Proof.
  unfold close, can_recv. destruct (cells !! r) as [c|] eqn:Hc; [|discriminate].
  destruct (closed c) eqn:Hcl; [discriminate|]. intros [= <-].
  destruct st as [n|]; [|discriminate].
  destruct (decide (r = n)) as [->|Hne].
  - rewrite list_lookup_insert_eq by (now apply lookup_lt_Some in Hc). simpl.
    rewrite Hc. now destruct (buf c).
  - now rewrite list_lookup_insert_ne.
Qed.

End Channels.

(** ** The invariant of a session *)

Import types ui session.

Section Session.
Variable rank : list float32 -> list PointStruct -> list PointStruct.
Variables (rc sc : nat) (first : string) (m0 : Model) (w0 : World).

Local Abbreviation Inv := (invariant rank rc sc first m0 w0).
Local Abbreviation Content := (content rank rc first m0 w0).

(** A step that leaves the producer, the sender, [saveCmd], the world and
    the response channel alone keeps what [saveCmd] can receive. *)
Lemma content_frame s s' :
  producer s' = producer s -> sender s' = sender s -> saver s' = saver s ->
  world s' = world s -> question s' = question s ->
  strings (heap s') !! rc = strings (heap s) !! rc ->
  (stopped s = true -> stopped s' = true) ->
  Content s -> Content s'.
Proof.
  intros Hp Hs Hv Hw Hq Hl Hst (R & HR & Hcap & Hc).
  exists R. rewrite Hl. split; [assumption|]. split; [assumption|].
  rewrite Hv, Hw, Hq. destruct (saver s); try assumption.
  destruct Hc as (Hw0 & Hall & Hpend). split; [assumption|]. split; [assumption|].
  intros Hb. specialize (Hpend Hb). unfold pending_ok in *. rewrite Hp, Hs.
  destruct Hpend as [Hpc Hsend]. split; [|assumption].
  destruct (llm.pc (producer s)); try assumption.
  destruct Hpc as [Hpc|Hpc]; [left; now apply Hst | now right].
Qed.

Lemma select_stop_taken {B} pick st sigs ch (v : B) cells :
  llm.select_stop_or_send pick st sigs ch v cells = Go None -> can_recv st sigs = true.
Proof.
  unfold llm.select_stop_or_send. destruct (can_recv st sigs); [reflexivity|].
  simpl. destruct (can_send ch cells); [|discriminate].
  destruct (send ch v cells); discriminate.
Qed.

Lemma select_sent {B} pick st sigs ch (v : B) cells cs :
  llm.select_stop_or_send pick st sigs ch v cells = Go (Some cs) -> send ch v cells = Go cs.
Proof.
  unfold llm.select_stop_or_send.
  destruct (can_recv st sigs && (pick || negb (can_send ch cells))); [discriminate|].
  destruct (can_send ch cells); [|discriminate].
  destruct (send ch v cells); [|discriminate..]. now intros [= <-].
Qed.

Lemma content_same_cell s s' R :
  strings (heap s) !! rc = Some R -> strings (heap s') !! rc = Some R ->
  saver s' = saver s -> world s' = world s -> question s' = question s ->
  (saver s = AwaitResponse -> buf R = [] -> pending_ok first s -> pending_ok first s') ->
  Content s -> Content s'.
Proof.
  intros HR HR' Hv Hw Hq Hpend (R0 & HR0 & Hcap & Hc).
  rewrite HR in HR0. injection HR0 as <-.
  exists R. split; [assumption|]. split; [assumption|].
  rewrite Hv, Hw, Hq. destruct (saver s) eqn:Es; try assumption.
  destruct Hc as (Hw0 & Hall & Hp). split; [assumption|]. split; [assumption|].
  intros Hb. apply Hpend; auto.
Qed.

Lemma first_chunk_cons c rest :
  first_chunk (c :: rest) = if bool_decide (c = "") then first_chunk rest else c.
Proof. reflexivity. Qed.

Ltac wiring_same :=
  match goal with
  | H : wiring _ _ _ _ |- wiring _ _ _ _ => exact H
  end.

Lemma producer_preserves s pick p h spawn :
  Inv s ->
  llm.producer_step pick (producer s) (heap s) = Some (p, h, spawn) ->
  Inv (match spawn with
       | Some r => with_sender (Some r) (with_heap h (with_producer p s))
       | None => with_heap h (with_producer p s)
       end).
Proof.
  intros [Hwire Hcont].
  pose proof Hwire as (Hresp & Hpresp & Hpout & Hne & Hmodel & Hnext & Hvs & Hvp).
  pose proof Hcont as (R & HR & Hcap & Hc).
  unfold llm.producer_step.
  destruct (llm.pc (producer s)) as [[|c rest]|c rest|c rest| |e| | |b] eqn:Hpc.
  - (* the service call returns *)
    intros [= <- <- <-]. split; [exact Hwire|].
    apply (content_same_cell s _ R); try assumption; try reflexivity.
    intros _ _ [Hp Hs]. split; [|exact Hs]. rewrite Hpc in Hp. right. apply Hp.
  - (* the callback starts on a chunk *)
    destruct (can_recv (llm.stopCh (producer s)) (signals (heap s))) eqn:Hstop.
    { intros [= <- <- <-]. split; [exact Hwire|].
      apply (content_same_cell s _ R); try assumption; try reflexivity.
      intros _ _ [Hp Hs]. split; [|exact Hs]. left. exact Hstop. }
    destruct (bool_decide (c = "")) eqn:Hempty.
    { intros [= <- <- <-]. split; [exact Hwire|].
      apply (content_same_cell s _ R); try assumption; try reflexivity.
      intros _ _ [Hp Hs]. split; [|exact Hs]. rewrite Hpc in Hp.
      rewrite first_chunk_cons, Hempty in Hp. exact Hp. }
    cbn [llm.localResponseCh llm.WriteString]. rewrite Hpresp.
    intros [= <- <- <-]. split; [exact Hwire|].
    apply (content_same_cell s _ R); try assumption; try reflexivity.
    intros _ _ [Hp Hs]. split; [|exact Hs]. rewrite Hpc in Hp.
    rewrite first_chunk_cons, Hempty in Hp. simpl. apply Hp.
  - (* the chunk goes to the response channel *)
    rewrite Hpresp.
    destruct (llm.select_stop_or_send _ _ _ _ _ _) as [[cs|]| |msg] eqn:Hsel;
      [| | discriminate |].
    + intros [= <- <- <-]. apply select_sent in Hsel.
      destruct (send_at _ _ _ _ _ Hsel HR) as (Hlen & HR').
      assert (Hb : buf R = []) by (destruct (buf R); [reflexivity | simpl in Hlen; lia]).
      split; [exact Hwire|].
      eexists. split; [exact HR'|]. split; [exact Hcap|]. cbn [buf saver with_heap with_producer].
      destruct (saver s) eqn:Es; try assumption.
      destruct Hc as (Hw0 & Hall & Hp). split; [assumption|]. split.
      * destruct (Hp Hb) as [Hp' _]. rewrite Hpc in Hp'. rewrite Hb. simpl.
        constructor; [left; exact Hp' | constructor].
      * rewrite Hb. discriminate.
    + intros [= <- <- <-]. apply select_stop_taken in Hsel. split; [exact Hwire|].
      apply (content_same_cell s _ R); try assumption; try reflexivity.
      intros _ _ [Hp Hs]. split; [|exact Hs]. left. exact Hsel.
    + intros [= <- <- <-]. split; [exact Hwire|].
      apply (content_same_cell s _ R); try assumption; try reflexivity.
      intros _ _ [Hp Hs]. split; [exact I | exact Hs].
  - (* the chunk goes to the token channel *)
    rewrite Hpout.
    destruct (llm.select_stop_or_send _ _ _ _ _ _) as [[cs|]| |msg] eqn:Hsel;
      [| | discriminate |].
    + intros [= <- <- <-]. apply select_sent in Hsel.
      pose proof (send_other _ _ _ _ rc Hsel (not_eq_sym Hne)) as Hl.
      split; [exact Hwire|].
      apply (content_same_cell s _ R); try assumption; try reflexivity.
      * simpl. now rewrite Hl.
      * intros _ _ [Hp Hs]. rewrite Hpc in Hp. destruct Hp.
    + intros [= <- <- <-]. apply select_stop_taken in Hsel. split; [exact Hwire|].
      apply (content_same_cell s _ R); try assumption; try reflexivity.
      intros _ _ [Hp Hs]. split; [|exact Hs]. left. exact Hsel.
    + intros [= <- <- <-]. split; [exact Hwire|].
      apply (content_same_cell s _ R); try assumption; try reflexivity.
      intros _ _ [Hp Hs]. split; [exact I | exact Hs].
  - (* the full response is handed over *)
    rewrite Hpresp.
    destruct (can_recv (llm.stopCh (producer s)) (signals (heap s))) eqn:Hstop.
    + destruct (llm.err (producer s)); intros [= <- <- <-]; (split; [exact Hwire|]);
        apply (content_same_cell s _ R); try assumption; try reflexivity;
        intros _ _ [Hp Hs]; (split; [exact I | exact Hs]).
    + destruct (llm.err (producer s)); intros [= <- <- <-]; (split; [exact Hwire|]);
        apply (content_same_cell s _ R); try assumption; try reflexivity;
        intros _ _ [Hp Hs]; (split; [exact I|]);
        rewrite Hpc in Hp; unfold stopped in Hp; rewrite Hstop in Hp;
        destruct Hp as [Hp|Hp]; [discriminate | |discriminate| ];
        intros f [= <-]; exact Hp.
  - (* the error goes to the error channel *)
    destruct (llm.select_stop_or_send _ _ _ _ _ _) as [[cs|]| |msg] eqn:Hsel;
      [| | discriminate |];
      intros [= <- <- <-]; (split; [exact Hwire|]);
      apply (content_same_cell s _ R); try assumption; try reflexivity;
      intros _ _ [Hp Hs]; (split; [exact I | exact Hs]).
  - (* the token channel is closed *)
    rewrite Hpout.
    destruct (close (Some sc) (strings (heap s))) as [cs| |msg] eqn:Hcl; [|discriminate|].
    + intros [= <- <- <-].
      pose proof (close_other _ _ _ rc Hcl (not_eq_sym Hne)) as Hl.
      split; [exact Hwire|].
      apply (content_same_cell s _ R); try assumption; try reflexivity.
      * simpl. now rewrite Hl.
      * intros _ _ [Hp Hs]. split; [exact I | exact Hs].
    + intros [= <- <- <-]. split; [exact Hwire|].
      apply (content_same_cell s _ R); try assumption; try reflexivity.
      intros _ _ [Hp Hs]. split; [exact I | exact Hs].
  - (* the response channel is closed *)
    rewrite Hpresp.
    destruct (close (Some rc) (strings (heap s))) as [cs| |msg] eqn:Hcl; [|discriminate|].
    + intros [= <- <- <-].
      pose proof (close_at _ _ _ _ Hcl HR) as HR'.
      split; [exact Hwire|].
      eexists. split; [exact HR'|]. split; [exact Hcap|]. cbn [buf saver with_heap with_producer].
      destruct (saver s) eqn:Es; try assumption.
      destruct Hc as (Hw0 & Hall & Hp). split; [assumption|]. split; [assumption|].
      intros Hb. destruct (Hp Hb) as [_ Hs]. split; [exact I | exact Hs].
    + intros [= <- <- <-]. split; [exact Hwire|].
      apply (content_same_cell s _ R); try assumption; try reflexivity.
      intros _ _ [Hp Hs]. split; [exact I | exact Hs].
  - discriminate.
Qed.

Lemma Model_StoreQA_ext m m' q a :
  VectorStore m = VectorStore m' -> VaultPath m = VaultPath m' ->
  Model_StoreQA rank m q a = Model_StoreQA rank m' q a.
Proof. intros H1 H2. unfold Model_StoreQA. now rewrite H1, H2. Qed.

Lemma sender_preserves s s' :
  Inv s -> step rank LSender s = Some s' -> Inv s'.
Proof.
  intros [Hwire Hcont].
  pose proof Hwire as (Hresp & Hpresp & Hpout & Hne & Hmodel & Hnext & Hvs & Hvp).
  pose proof Hcont as (R & HR & Hcap & Hc).
  cbn [step]. destruct (sender s) as [response|] eqn:Hsend; [|discriminate].
  unfold llm.sendFullResponse_step. rewrite Hpresp.
  destruct (send (Some rc) response (strings (heap s))) as [cs| |msg] eqn:Hs;
    [|discriminate|]; intros [= <-].
  - destruct (send_at _ _ _ _ _ Hs HR) as (Hlen & HR').
    assert (Hb : buf R = []) by (destruct (buf R); [reflexivity | simpl in Hlen; lia]).
    split; [exact Hwire|].
    eexists. split; [exact HR'|]. split; [exact Hcap|].
    cbn [buf saver with_heap with_sender].
    destruct (saver s) eqn:Es; try assumption.
    destruct Hc as (Hw0 & Hall & Hp). split; [assumption|]. split.
    + destruct (Hp Hb) as [_ Hf]. rewrite Hb. simpl.
      constructor; [right; now apply Hf | constructor].
    + rewrite Hb. discriminate.
  - split; [exact Hwire|].
    apply (content_same_cell s _ R); try assumption; try reflexivity.
    intros _ _ [Hp Hf]. split; [exact Hp | discriminate].
Qed.

Lemma save_preserves s s' :
  Inv s -> step rank LSave s = Some s' -> Inv s'.
Proof.
  intros [Hwire Hcont].
  pose proof Hwire as (Hresp & Hpresp & Hpout & Hne & Hmodel & Hnext & Hvs & Hvp).
  pose proof Hcont as (R & HR & Hcap & Hc).
  cbn [step]. unfold saveCmd_step. destruct (saver s) as [|v|v msg] eqn:Es; [| |discriminate].
  - rewrite Hresp.
    destruct (recv "" (Some rc) (strings (heap s))) as [[[v ok] cs]| |msg] eqn:Hr;
      [|discriminate..].
    destruct Hc as (Hw0 & Hall & Hp).
    assert (Hv : v = first \/ v = "").
    { destruct (recv_at _ _ _ _ _ _ _ Hr HR) as [(rest & Hb & _)|(_ & -> & _)].
      - rewrite Hb in Hall. now inversion Hall.
      - now right. }
    assert (HR' : exists R', set_strings cs (heap s) = set_strings cs (heap s)
                             /\ cs !! rc = Some R' /\ cap R' = 1).
    { destruct (recv_at _ _ _ _ _ _ _ Hr HR) as [(rest & Hb & Hl)|(_ & _ & ->)].
      - eexists. split; [reflexivity|]. split; [exact Hl | exact Hcap].
      - exists R. auto. }
    destruct HR' as (R' & _ & HR' & Hcap').
    destruct (bool_decide (v = "")) eqn:Hd; intros [= <-].
    + apply bool_decide_eq_true_1 in Hd. split; [exact Hwire|].
      exists R'. split; [exact HR'|]. split; [exact Hcap'|]. left. auto.
    + apply bool_decide_eq_false_1 in Hd. split; [exact Hwire|].
      exists R'. split; [exact HR'|]. split; [exact Hcap'|].
      cbn [saver with_saver with_heap world]. destruct Hv as [Hv|Hv]; [auto | contradiction].
  - destruct Hc as (Hw0 & Hv & Hne0).
    rewrite (Model_StoreQA_ext (model s) m0 _ _ Hvs Hvp), Hw0.
    destruct (Model_StoreQA rank m0 (question s) v w0) as [[[]|e] w] eqn:E;
      intros [= <-]; (split; [exact Hwire|]);
      exists R; (split; [exact HR|]); (split; [exact Hcap|]); right;
      (split; [exact Hv|]); (split; [exact Hne0|]);
      cbn [world with_world with_saver with_inbox question];
      unfold saved_world; rewrite <- Hv, E; reflexivity.
Qed.

Lemma framed_preserves s s' : Inv s -> framed rc s s' -> Inv s'.
Proof.
  intros [Hwire Hcont] (Hp & Hsd & Hsv & Hw & Hq & Hr & Hl & Hst & Hvs' & Hvp' & Hm & Hn).
  pose proof Hwire as (Hresp & Hpresp & Hpout & Hne & Hmodel & Hnext & Hvs & Hvp).
  split.
  - unfold wiring. rewrite Hp, Hr, Hvs', Hvp'. repeat split; try assumption.
    + destruct Hm as [Hm|Hm]; [now left | now rewrite Hm].
    + destruct Hn as [->|[->|(ch & e & Hch & ->)]]; [exact I | exact Hnext |].
      destruct Hmodel as [Hmodel|Hmodel]; congruence.
  - apply (content_frame s s'); try assumption.
    unfold stopped. rewrite Hp. apply Hst.
Qed.

Lemma framed_refl_on s s' :
  producer s' = producer s -> sender s' = sender s -> saver s' = saver s ->
  world s' = world s -> question s' = question s -> responseCh s' = responseCh s ->
  heap s' = heap s -> model s' = model s ->
  (next s' = None \/ next s' = next s
      \/ exists ch e, StreamCh (model s) = Some ch /\ next s' = Some (Some ch, e)) ->
  framed rc s s'.
Proof.
  intros Hp Hsd Hsv Hw Hq Hr Hh Hm Hn. unfold framed. rewrite Hh, Hm.
  repeat split; try assumption; auto.
Qed.

Lemma next_framed s s' pick :
  Inv s -> step rank (LNext pick) s = Some s' -> framed rc s s'.
Proof.
  intros [Hwire _].
  pose proof Hwire as (Hresp & Hpresp & Hpout & Hne & Hmodel & Hnext & Hvs & Hvp).
  cbn [step]. destruct (next s) as [[ch errCh]|] eqn:Hn; [|discriminate]. subst ch.
  unfold llm.NextTokenCmd.
  destruct (can_recv errCh (errors (heap s)) && _).
  - destruct (recv None errCh (errors (heap s))) as [[[[e|] ok] cs]| |msg];
      [| |discriminate..]; intros [= <-]; unfold framed; simpl; repeat split; auto.
  - destruct (can_recv (Some sc) (strings (heap s))); [|discriminate].
    destruct (recv "" (Some sc) (strings (heap s))) as [[[v ok] cs]| |msg] eqn:Hr;
      [|discriminate..].
    pose proof (recv_other _ _ _ _ _ _ rc Hr (not_eq_sym Hne)) as Hl.
    destruct ok; intros [= <-]; unfold framed; simpl; repeat split; auto.
Qed.

Lemma key_framed s s' k :
  step rank (LKey k) s = Some s' -> framed rc s s'.
Proof.
  cbn [step]. destruct (crashed s || quit s); [discriminate|]. intros [= <-].
  apply framed_refl_on; auto.
Qed.

Lemma safeClose_stage_framed stage m h m' h' :
  rc <> sc ->
  (StreamCh m = None \/ StreamCh m = Some sc) ->
  safeClose_stage stage m h = Go (m', h') ->
  strings h' !! rc = strings h !! rc
  /\ (forall st, can_recv st (signals h) = true -> can_recv st (signals h') = true)
  /\ VectorStore m' = VectorStore m /\ VaultPath m' = VaultPath m
  /\ (StreamCh m' = None \/ StreamCh m' = StreamCh m).
Proof.
  intros Hne Hm. destruct stage as [|[|stage]]; cbn [safeClose_stage].
  - unfold safeClose_StopCh. destruct (StopCh m) as [r|] eqn:Hr.
    + destruct (close (Some r) (signals h)) as [cs| |msg] eqn:Hcl; [|discriminate..].
      intros [= <- <-]. simpl. repeat split; auto.
      intros st. now apply (can_recv_close st r).
    + intros [= <- <-]. repeat split; auto.
  - unfold safeClose_ErrCh. destruct (ErrCh m) as [r|] eqn:Hr.
    + destruct (close (Some r) (errors h)) as [cs| |msg] eqn:Hcl; [|discriminate..].
      intros [= <- <-]. simpl. repeat split; auto.
    + intros [= <- <-]. repeat split; auto.
  - unfold close_StreamCh. destruct Hm as [Hm|Hm]; rewrite Hm.
    + intros [= <- <-]. repeat split; auto.
    + destruct (close (Some sc) (strings h)) as [cs| |msg] eqn:Hcl; [|discriminate..].
      intros [= <- <-]. simpl. repeat split; auto.
      now apply (close_other sc).
Qed.

Lemma loop_framed s s' :
  Inv s -> step rank LLoop s = Some s' -> framed rc s s'.
Proof.
  intros [Hwire _].
  pose proof Hwire as (Hresp & Hpresp & Hpout & Hne & Hmodel & Hnext & Hvs & Hvp).
  cbn [step]. unfold loop_step. destruct (crashed s || quit s); [discriminate|].
  destruct (loop s) as [|stage after].
  - (* a message is handled *)
    destruct (inbox s) as [|msg rest]; [discriminate|].
    destruct msg as [t| |e|msg d|k|]; cbn [Update].
    + cbn [model with_model with_inbox StreamCh ErrCh set_Msg].
      destruct (StreamCh (model s)) as [ch|] eqn:Hch;
        [destruct (ErrCh (model s)) as [ech|] eqn:Hech|];
        intros [= <-]; unfold framed; simpl; repeat split; auto.
      right. right. exists ch, (Some ech). rewrite Hch. auto.
    + intros [= <-]. unfold framed; simpl; repeat split; auto.
    + intros [= <-]. unfold handleStreamError. cbn [model with_model with_inbox ErrCh set_Streaming heap].
      destruct (ErrCh (model s)) as [ech|].
      * destruct (recv None (Some ech) (errors (heap s))) as [[[[e'|] ok] cs]| |msg];
          unfold framed; simpl; repeat split; auto.
      * unfold framed; simpl; repeat split; auto.
    + intros [= <-]. unfold framed; simpl; repeat split; auto.
    + cbn [model with_inbox]. destruct (ScreenMode (model s)); [|discriminate].
      destruct (EditingModel (model s) || EditingAPIURL (model s)); [discriminate|].
      intros [= <-]. unfold handleKeyMsg. destruct k.
      * cbn [model with_inbox]. destruct (ui.Streaming (model s));
          unfold framed; simpl; repeat split; auto.
      * unfold framed; simpl; repeat split; auto.
    + intros [= <-]. unfold framed; simpl; repeat split; auto.
  - (* a teardown goes on *)
    destruct (safeClose_stage stage (model s) (heap s)) as [[m h]| |msg] eqn:Hst;
      [|discriminate|].
    + destruct (safeClose_stage_framed _ _ _ _ _ Hne Hmodel Hst)
        as (Hl & Hcan & Hv & Hp & Hs).
      destruct (stage <? 2).
      * intros [= <-]. unfold framed; simpl; repeat split; auto.
      * destruct after; intros [= <-]; unfold framed; simpl; repeat split; auto.
    + intros [= <-]. unfold framed; simpl; repeat split; auto.
Qed.

(** Every step keeps the invariant. *)
Lemma step_preserves l s s' : Inv s -> step rank l s = Some s' -> Inv s'.
Proof.
  intros HI Hs. destruct l as [pick| | |pick| |k].
  - cbn [step] in Hs.
    destruct (llm.producer_step pick (producer s) (heap s)) as [[[p h] spawn]|] eqn:E;
      [|discriminate].
    pose proof (producer_preserves s pick p h spawn HI E) as H.
    destruct spawn; injection Hs as <-; exact H.
  - now apply (sender_preserves s).
  - now apply (save_preserves s).
  - apply (framed_preserves s); [assumption|]. now apply (next_framed s s' pick).
  - apply (framed_preserves s); [assumption|]. now apply loop_framed.
  - apply (framed_preserves s); [assumption|]. now apply (key_framed s s' k).
Qed.

Lemma run_preserves sched s : Inv s -> Inv (run rank sched s).
Proof.
  revert s. induction sched as [|l sched IH]; intros s HI; [exact HI|].
  simpl. destruct (step rank l s) as [s'|] eqn:E.
  - apply IH. now apply (step_preserves l s).
  - now apply IH.
Qed.

End Session.

(** ** Sessions from their start *)

Section Sessions.
Variable rank : list float32 -> list PointStruct -> list PointStruct.

(** A session starts in a state where the invariant holds. *)
Lemma handleChatInput_invariant m h w chunks final s0 :
  allocated (StreamCh m) (strings h) = true ->
  handleChatInput m h w chunks final = Some s0 ->
  question s0 = TextInput m
  /\ producer s0 = llm.startStreamCmdWithCallback chunks final
                     (llm.localOut (producer s0)) (llm.localErrCh (producer s0))
                     (llm.stopCh (producer s0)) (responseCh s0)
  /\ world s0 = w /\ saver s0 = AwaitResponse
  /\ exists rc sc, invariant rank rc sc (first_chunk chunks) m w s0.
Proof.
  intros Hal. unfold handleChatInput.
  destruct (bool_decide (TextInput m = "")); [discriminate|].
  unfold ensureChannels, make. cbn [StreamCh ErrCh StopCh set_Msg set_LastQuestion].
  destruct (StreamCh m) as [k|] eqn:Hk.
  - (* the token channel of an earlier session is used again *)
    apply Nat.ltb_lt in Hal. cbn.
    destruct (ErrCh m); cbn; destruct (StopCh m); cbn;
      intros H; injection H as H; subst s0; cbn;
      (split; [reflexivity|]); (split; [reflexivity|]);
      (split; [reflexivity|]); (split; [reflexivity|]);
      exists (length (strings h)), k;
      (split; [unfold wiring; cbn; rewrite ?Hk; repeat split; auto; lia |]);
      (eexists; split; [cbn; now apply list_lookup_middle |]);
      (split; [reflexivity|]); cbn;
      (split; [reflexivity|]); (split; [constructor|]);
      intros _; (split; [split; reflexivity | discriminate]).
  - cbn.
    destruct (ErrCh m); cbn; destruct (StopCh m); cbn;
      intros H; injection H as H; subst s0; cbn;
      (split; [reflexivity|]); (split; [reflexivity|]);
      (split; [reflexivity|]); (split; [reflexivity|]);
      exists (length (strings h ++ [{| buf := []; cap := 64; closed := false |}])),
             (length (strings h));
      (split; [unfold wiring; cbn; rewrite ?Hk; repeat split; auto;
               rewrite length_app; simpl; lia |]);
      (eexists; split; [cbn; now apply list_lookup_middle |]);
      (split; [reflexivity|]); cbn;
      (split; [reflexivity|]); (split; [constructor|]);
      intros _; (split; [split; reflexivity | discriminate]).
Qed.

(** No step changes the question [saveCmd] has captured, and only the
    producer's own steps change the producer. *)
Lemma step_keeps l s s' :
  step rank l s = Some s' ->
  question s' = question s
  /\ ((forall b, l <> LProducer b) -> producer s' = producer s).
Proof.
  destruct l as [pick| | |pick| |k]; cbn [step].
  - destruct (llm.producer_step pick (producer s) (heap s)) as [[[p h] [r|]]|];
      [| |discriminate]; intros [= <-]; (split; [reflexivity|]);
      intros H; now destruct (H pick).
  - destruct (sender s); [|discriminate].
    destruct (llm.sendFullResponse_step _ _ _); [|discriminate].
    intros [= <-]. auto.
  - unfold saveCmd_step. destruct (saver s) as [|v|v msg]; [| |discriminate].
    + destruct (recv "" (responseCh s) (strings (heap s))) as [[[v ok] cs]| |msg];
        [|discriminate..].
      destruct (bool_decide (v = "")); intros [= <-]; auto.
    + destruct (Model_StoreQA rank (model s) (question s) v (world s)) as [[[]|e] w];
        intros [= <-]; auto.
  - destruct (next s) as [[ch errCh]|]; [|discriminate].
    destruct (llm.NextTokenCmd ch errCh pick (heap s)) as [[msg h]| |msg];
      [|discriminate..]. intros [= <-]. auto.
  - unfold loop_step. destruct (crashed s || quit s); [discriminate|].
    destruct (loop s) as [|stage after].
    + destruct (inbox s) as [|msg rest]; [discriminate|].
      destruct msg as [t| |e|msg d|k|]; cbn [Update].
      * cbn [model with_model with_inbox StreamCh ErrCh set_Msg].
        destruct (StreamCh (model s)); [destruct (ErrCh (model s))|];
          intros [= <-]; auto.
      * intros [= <-]. auto.
      * intros [= <-]. unfold handleStreamError.
        cbn [model with_model with_inbox ErrCh set_Streaming heap].
        destruct (ErrCh (model s)) as [ech|]; [|auto].
        destruct (recv None (Some ech) (errors (heap s))) as [[[[e'|] ok] cs]| |msg]; auto.
      * intros [= <-]. auto.
      * cbn [model with_inbox]. destruct (ScreenMode (model s)); [|discriminate].
        destruct (EditingModel (model s) || EditingAPIURL (model s)); [discriminate|].
        intros [= <-]. unfold handleKeyMsg. destruct k; [|auto].
        cbn [model with_inbox]. destruct (ui.Streaming (model s)); auto.
      * intros [= <-]. auto.
    + destruct (safeClose_stage stage (model s) (heap s)) as [[m h]| |msg];
        [|discriminate|].
      * destruct (stage <? 2); [intros [= <-]; auto|].
        destruct after; intros [= <-]; auto.
      * intros [= <-]. auto.
  - destruct (crashed s || quit s); [discriminate|]. intros [= <-]. auto.
Qed.

Lemma run_question sched s : question (run rank sched s) = question s.
Proof.
  revert s. induction sched as [|l sched IH]; intros s; [reflexivity|].
  simpl. destruct (step rank l s) as [s'|] eqn:E; [|apply IH].
  rewrite IH. now apply (step_keeps l).
Qed.

(** Whatever text [saveCmd] ends up with, if it is not empty it is the
    first chunk of the answer that is not empty, and the world is the one
    [Model.StoreQA] leaves for that chunk. *)
Lemma saver_holds_first_chunk m h w chunks final s0 sched v msg :
  allocated (StreamCh m) (strings h) = true ->
  handleChatInput m h w chunks final = Some s0 ->
  saver (run rank sched s0) = Saved v msg ->
  v <> "" ->
  v = first_chunk chunks
  /\ world (run rank sched s0)
     = saved_world rank m (TextInput m) (first_chunk chunks) w.
Proof.
  intros Hal Hs0 Hsaved Hv.
  destruct (handleChatInput_invariant m h w chunks final s0 Hal Hs0)
    as (Hq & _ & _ & _ & rc & sc & HI).
  destruct (run_preserves rank rc sc _ m w sched s0 HI) as [_ (R & _ & _ & Hc)].
  rewrite Hsaved in Hc. destruct Hc as [[Hc _]|(Hc & _ & Hw)]; [contradiction|].
  split; [exact Hc|]. now rewrite Hw, run_question, Hq.
Qed.

End Sessions.

(** ** Sessions of the first question *)

Import scenario.

Lemma handleChatInput_asking chunks final :
  handleChatInput asking no_channels fresh_world chunks final
  = Some (session_start chunks final).
Proof. reflexivity. Qed.

(** C1 (a defect of the code). The text [saveCmd] passes to
    [Model.StoreQA] is the first chunk of the answer that is not empty, not
    the chunks put together, whatever the schedule and however many chunks
    follow: the callback sends each chunk on the response channel, and
    [saveCmd] receives from that channel once.  For the answer streamed as
    ["AI "] and ["stands "] the archive gets the answer ["AI "], while the
    producer has aggregated ["AI stands "]. *)
Theorem saveCmd_stores_first_chunk :
  (forall rank m h w chunks final s0 sched v msg,
      allocated (StreamCh m) (strings h) = true ->
      handleChatInput m h w chunks final = Some s0 ->
      saver (run rank sched s0) = Saved v msg ->
      v <> "" ->
      v = first_chunk chunks
      /\ world (run rank sched s0)
         = saved_world rank m (TextInput m) (first_chunk chunks) w)
  /\ handleChatInput asking no_channels fresh_world two_chunks None
     = Some (session_start two_chunks None)
  /\ saver (run rank_oldest_first schedule_two_chunks (session_start two_chunks None))
     = Saved "AI " (StatusMsg "Conversation saved to vault" 3)
  /\ archive (world (run rank_oldest_first schedule_two_chunks
                         (session_start two_chunks None)))
     = Ok [{| Question := question1; Answer := "AI "; Time := 1 |}]
  /\ llm.fullResponse (producer (run rank_oldest_first schedule_two_chunks
                                     (session_start two_chunks None)))
     = "AI stands "
  /\ concat_chunks two_chunks = "AI stands ".
Proof.
  split; [exact saver_holds_first_chunk|].
  split; [reflexivity|].
  repeat split; vm_compute; reflexivity.
Qed.

Lemma saveCmd_stores_first_chunk_witness :
  "AI " = first_chunk two_chunks
  /\ world (run rank_oldest_first schedule_two_chunks (session_start two_chunks None))
     = saved_world rank_oldest_first asking (TextInput asking)
         (first_chunk two_chunks) fresh_world.
Proof.
  apply (proj1 saveCmd_stores_first_chunk rank_oldest_first asking no_channels
           fresh_world two_chunks None (session_start two_chunks None)
           schedule_two_chunks "AI " (StatusMsg "Conversation saved to vault" 3)).
  - reflexivity.
  - reflexivity.
  - vm_compute; reflexivity.
  - discriminate.
Defined.

(** C4 (a defect of the code). A session canceled after its first chunk is archived all the same.
    The chunk is on the response channel when the user presses Esc; the
    teardown closes the stop, error and token channels and leaves the
    response channel alone, the producer ends as canceled, and [saveCmd],
    running after all that, receives the chunk and stores it: one upsert
    and one entry in the archive. *)
Theorem archival_after_cancel :
  handleChatInput asking no_channels fresh_world three_chunks None
  = Some (session_start three_chunks None)
  /\ session_state (run rank_oldest_first schedule_cancel
                        (session_start three_chunks None)) = Canceled
  /\ ui.Streaming (model (run rank_oldest_first schedule_cancel
                              (session_start three_chunks None))) = false
  /\ StopCh (model (run rank_oldest_first schedule_cancel
                        (session_start three_chunks None))) = None
  /\ world (run rank_oldest_first schedule_cancel
                (session_start three_chunks None)) = fresh_world
  /\ archive (world (run rank_oldest_first (schedule_cancel ++ schedule_save)
                         (session_start three_chunks None)))
     = Ok [{| Question := question1; Answer := "AI "; Time := 1 |}]
  /\ length (filter (fun ev => is_upsert ev = true)
               (w_trace (world (run rank_oldest_first (schedule_cancel ++ schedule_save)
                                    (session_start three_chunks None))))) = 1
  /\ length (w_points (world (run rank_oldest_first (schedule_cancel ++ schedule_save)
                                  (session_start three_chunks None)))) = 1.
Proof.
  split; [reflexivity|].
  repeat split; vm_compute; reflexivity.
Qed.

(** ** The collection and the searches *)

Section Collections.
Variable rank : list float32 -> list PointStruct -> list PointStruct.

Lemma EnsureCollection_cases vs size w :
  match VectorStore_EnsureCollection vs size w with
  | (Ok _, w') =>
      ((w_collection w = None /\ w_collection w' = Some size /\ w_points w' = [])
       \/ (exists d, w_collection w = Some d /\ w_collection w' = Some d
                     /\ w_points w' = w_points w))
      /\ w_file w' = w_file w
  | (Err e, w') =>
      w_collection w' = w_collection w /\ w_points w' = w_points w
      /\ w_file w' = w_file w
      /\ exists msg,
          e = Errorf_w ("failed to create collection '" +:+ collection vs +:+ "'") msg
  end.
Proof.
  unfold VectorStore_EnsureCollection, collections_Get, collections_Create. run. proj.
  destruct (w_script w) as [|[|msg|msg] [|[|msg'|msg'] rest]] eqn:Hs;
    run; proj; destruct (w_collection w) as [d|] eqn:Hc; run; proj;
    rewrite ?Hs; run; proj; rewrite ?Hc; run; proj; rewrite ?Hs; run; proj;
    repeat split; eauto.
Qed.

(** X1. When [EnsureCollection] returns nil the collection exists: the one
    that was there, with the dimension and the records it had, or a new,
    empty one of the size asked for.  When it returns an error, which is
    then the wrapped error of the creation, nothing has changed.  The
    archive is not touched. *)
Theorem EnsureCollection_creates_or_keeps vs size w :
  match VectorStore_EnsureCollection vs size w with
  | (Ok _, w') =>
      ((w_collection w = None /\ w_collection w' = Some size /\ w_points w' = [])
       \/ (exists d, w_collection w = Some d /\ w_collection w' = Some d
                     /\ w_points w' = w_points w))
      /\ w_file w' = w_file w
  | (Err e, w') =>
      w_collection w' = w_collection w /\ w_points w' = w_points w
      /\ w_file w' = w_file w
      /\ exists msg,
          e = Errorf_w ("failed to create collection '" +:+ collection vs +:+ "'") msg
  end.
Proof. exact (EnsureCollection_cases vs size w). Qed.

(** X2. Once [EnsureCollection] has succeeded, a further call on a
    reachable server succeeds without creating anything, whatever size it
    asks for: the collection keeps its dimension and its records. *)
Theorem EnsureCollection_again vs size size' w w1 :
  VectorStore_EnsureCollection vs size w = (Ok tt, w1) ->
  w_script w1 = [] ->
  exists w2,
    VectorStore_EnsureCollection vs size' w1 = (Ok tt, w2)
    /\ quiet w1 w2.
Proof.
  intros H1 Hs.
  pose proof (EnsureCollection_cases vs size w) as Hc. rewrite H1 in Hc.
  assert (exists d, w_collection w1 = Some d) as [d Hd].
  { destruct Hc as [[(_ & Hc & _)|(d & _ & Hc & _)] _]; eauto. }
  unfold VectorStore_EnsureCollection, collections_Get. run. proj.
  rewrite Hs. run. proj. rewrite Hd. run. proj.
  eexists. split; [reflexivity|]. solve_quiet.
Qed.

(** X3. On a reachable server [ResetIndex] succeeds and leaves an empty
    collection of 1024 dimensions, whatever was there before: no
    collection, or one of any dimension with any records. *)
Theorem ResetIndex_leaves_empty_collection vs w :
  w_script w = [] ->
  exists w',
    VectorStore_ResetIndex vs w = (Ok tt, w')
    /\ w_collection w' = Some vectorSize /\ w_points w' = []
    /\ w_file w' = w_file w.
Proof.
  intros Hs.
  unfold VectorStore_ResetIndex, collections_Delete, VectorStore_EnsureCollection,
    collections_Get, collections_Create.
  run. proj. rewrite Hs. run. proj. rewrite Hs. run. proj. rewrite Hs. run. proj.
  eexists. repeat split.
Qed.

(** X4. When [ResetIndex] returns an error, either nothing has changed
    (the collection could not be deleted, or the deletion answered "not
    found" and the creation then failed), or the collection was deleted
    and could not be created again: then it is gone with its records. *)
Theorem ResetIndex_failure vs w e w' :
  VectorStore_ResetIndex vs w = (Err e, w') ->
  (w_collection w' = w_collection w /\ w_points w' = w_points w
   /\ ((exists msg, e = Errorf_w "failed to delete collection" msg
                    /\ isNotFoundError msg = false)
       \/ exists msg,
            e = Errorf_w ("failed to create collection '" +:+ collection vs +:+ "'") msg))
  \/ (w_collection w' = None /\ w_points w' = []
      /\ exists msg,
           e = Errorf_w ("failed to create collection '" +:+ collection vs +:+ "'") msg).
Proof.
  unfold VectorStore_ResetIndex, collections_Delete. run. proj.
  destruct (w_script w) as [|[|msg|msg] rest] eqn:Hs; run; proj.
  1-2: match goal with
       | |- context [VectorStore_EnsureCollection _ _ ?W] =>
           pose proof (EnsureCollection_cases vs vectorSize W) as Hc;
           destruct (VectorStore_EnsureCollection vs vectorSize W) as [[[]|e1] w1];
           [discriminate|]
       end;
       intros [= <- <-]; right; destruct Hc as (Hc1 & Hc2 & _ & Hmsg);
       repeat split; auto.
  all: destruct (isNotFoundError msg) eqn:Hnf; cbn [negb];
    [ match goal with
      | |- context [VectorStore_EnsureCollection _ _ ?W] =>
          pose proof (EnsureCollection_cases vs vectorSize W) as Hc;
          destruct (VectorStore_EnsureCollection vs vectorSize W) as [[[]|e1] w1];
          [discriminate|]
      end;
      intros [= <- <-]; left; destruct Hc as (Hc1 & Hc2 & _ & Hmsg);
      repeat split; auto
    | run; intros [= <- <-]; left; repeat split; eauto ].
Qed.

(** X5. [SearchSimilarQuestions] with a limit that is not negative
    returns at most that many results, each the record, with its
    payload, of a point of the collection whose type is qa_pair; an error
    is the wrapped error of the embedding or of the search.  Nothing is
    written either way. *)
Theorem SearchSimilarQuestions_results vs question limit w :
  store_behaves vs ->
  (forall v ps p, p ∈ rank v ps -> p ∈ ps) ->
  (0 <= limit < 2 ^ 31)%Z ->
  match VectorStore_SearchSimilarQuestions rank vs question limit w with
  | (Ok rs, w') =>
      quiet w w'
      /\ length rs <= Z.to_nat limit
      /\ Forall (fun r => exists p, p ∈ w_points w
                                    /\ has_keyword "type" "qa_pair" p = true
                                    /\ r = to_scored p) rs
  | (Err e, w') =>
      quiet w w'
      /\ ((exists msg, e = Errorf_w "failed to embed question" msg)
          \/ exists msg, e = Errorf_w "search failed" msg)
  end.
Proof.
  intros Hvs Hrank Hlim.
  assert (Hq : quiet w (snd (VectorStore_SearchSimilarQuestions rank vs question limit w))).
  { unfold VectorStore_SearchSimilarQuestions.
    pose proof (Quiet_VectorStore_Embed vs question Hvs).
    pose proof (Quiet_points_Search rank). revert w. fold (Quiet (A:=list ScoredPoint)).
    quiet. }
  revert Hq. unfold VectorStore_SearchSimilarQuestions, points_Search. run.
  pose proof (Quiet_VectorStore_Embed vs question Hvs w) as Hq1.
  destruct (VectorStore_Embed vs question w) as [[v|e] w1]; simpl in Hq1.
  2: { intros Hq. split; [exact Hq|]. left. eauto. }
  destruct Hq1 as (Hp & _).
  assert (Hlen : uint64_of_int32 limit = Z.to_nat limit).
  { unfold uint64_of_int32. rewrite Z.mod_small; [reflexivity|]. lia. }
  repeat branch; proj; intros Hq; (split; [exact Hq|]); try (right; eauto; fail).
  all: split;
    [ rewrite length_fmap, length_take, Hlen; lia
    | apply Forall_forall; intros r Hin;
      apply list_elem_of_fmap in Hin as (p & -> & Hin);
      apply subseteq_take in Hin; apply Hrank in Hin;
      apply list_elem_of_filter in Hin as [Hkw Hin];
      exists p; rewrite <- Hp; auto ].
Qed.



End Collections.

(** ** The embedders *)

Lemma DummyEmbedder_lookup text i :
  i < 1024 ->
  DummyEmbedder_vector text !! i
  = Some (if i <? String.length text
          then Qmake (Z.of_nat (byte_at text i)) 256
          else Qmake (Z.of_nat i) 1024).
Proof.
  intros Hi. unfold DummyEmbedder_vector.
  rewrite list_lookup_fmap, lookup_seq_lt by exact Hi. cbn [fmap option_fmap option_map Nat.add].
  destruct (i <? String.length text) eqn:Hlt; [|reflexivity].
  apply Nat.ltb_lt in Hlt. now rewrite Nat.mod_small.
Qed.

Lemma byte_at_bounded text i : byte_at text i < 256.
Proof.
  unfold byte_at. destruct (String.get i text); [apply Ascii.nat_ascii_bounded | lia].
Qed.

Lemma get_Some_lt s : forall n, n < String.length s -> exists c, String.get n s = Some c.
Proof.
  induction s as [|c s IH]; intros n Hn; simpl in *; [lia|].
  destruct n; [eauto|]. apply IH. lia.
Qed.

Lemma get_None_ge s : forall n, String.length s <= n -> String.get n s = None.
Proof.
  induction s as [|c s IH]; intros n Hn; simpl in *; [reflexivity|].
  destruct n; [lia|]. apply IH. lia.
Qed.

(** X7. Every component of the vector of [DummyEmbedder] lies in [0, 1):
    component [i] is byte [i] of the text over 256 where the text has a
    byte [i], and [i] over 1024 from the end of the text on. *)
Theorem DummyEmbedder_components text :
  Forall (fun x : float32 => (0 <= x)%Q /\ (x < 1)%Q) (DummyEmbedder_vector text)
  /\ (forall i, i < 1024 -> i < String.length text ->
        DummyEmbedder_vector text !! i = Some (Qmake (Z.of_nat (byte_at text i)) 256))
  /\ (forall i, i < 1024 -> String.length text <= i ->
        DummyEmbedder_vector text !! i = Some (Qmake (Z.of_nat i) 1024)).
Proof.
  split; [|split].
  - apply Forall_lookup. intros i x Hx.
    assert (Hi : i < 1024).
    { apply lookup_lt_Some in Hx. unfold DummyEmbedder_vector in Hx.
      now rewrite length_fmap, length_seq in Hx. }
    pose proof (eq_trans (eq_sym Hx) (DummyEmbedder_lookup text i Hi)) as E.
    injection E as ->.
    destruct (i <? String.length text).
    + pose proof (byte_at_bounded text i). unfold Qle, Qlt. simpl. lia.
    + unfold Qle, Qlt. simpl. lia.
  - intros i Hi Hlt. rewrite (DummyEmbedder_lookup text i Hi).
    apply Nat.ltb_lt in Hlt. now rewrite Hlt.
  - intros i Hi Hge. rewrite (DummyEmbedder_lookup text i Hi).
    apply Nat.ltb_ge in Hge. now rewrite Hge.
Qed.

(** X8. [DummyEmbedder] tells texts of one length apart, up to 1024 bytes:
    two texts of the same length, at most 1024, with the same vector are
    the same text. *)
Theorem DummyEmbedder_injective t1 t2 :
  String.length t1 = String.length t2 ->
  String.length t1 <= 1024 ->
  DummyEmbedder_vector t1 = DummyEmbedder_vector t2 ->
  t1 = t2.
Proof.
  intros Hlen Hmax Hv. apply String.get_correct. intros n.
  destruct (Nat.lt_ge_cases n (String.length t1)) as [Hn|Hn].
  - assert (Hi : n < 1024) by lia.
    pose proof (DummyEmbedder_lookup t1 n Hi) as H1.
    pose proof (DummyEmbedder_lookup t2 n Hi) as H2.
    rewrite Hv, H2 in H1. rewrite <- Hlen in H1.
    apply Nat.ltb_lt in Hn as Hn'. rewrite Hn' in H1.
    injection H1 as H1. apply Nat2Z.inj in H1.
    destruct (get_Some_lt t1 n Hn) as [c1 Hc1].
    destruct (get_Some_lt t2 n ltac:(lia)) as [c2 Hc2].
    unfold byte_at in H1. rewrite Hc1, Hc2 in H1.
    rewrite Hc1, Hc2. f_equal.
    rewrite <- (Ascii.ascii_nat_embedding c1), <- (Ascii.ascii_nat_embedding c2).
    now rewrite H1.
  - rewrite !get_None_ge by lia. reflexivity.
Qed.

Lemma get_app_l p s : forall i, i < String.length p -> String.get i (p +:+ s) = String.get i p.
Proof.
  induction p as [|c p IH]; intros i Hi; [simpl in Hi; lia|].
  destruct i; [reflexivity|]. simpl in Hi.
  change (String.get i (p +:+ s) = String.get i p). apply IH. lia.
Qed.

Lemma length_string_app p s : String.length (p +:+ s) = String.length p + String.length s.
Proof.
  induction p as [|c p IH]; [reflexivity|].
  change (S (String.length (p +:+ s)) = S (String.length p + String.length s)).
  now rewrite IH.
Qed.

(** X9. [DummyEmbedder] reads the first 1024 bytes only: what follows
    them in a text does not change the vector. *)
Theorem DummyEmbedder_reads_1024_bytes p s1 s2 :
  String.length p = 1024 ->
  DummyEmbedder_vector (p +:+ s1) = DummyEmbedder_vector (p +:+ s2).
Proof.
  intros Hp. apply list_eq. intros i.
  destruct (Nat.lt_ge_cases i 1024) as [Hi|Hi].
  - rewrite !DummyEmbedder_lookup by exact Hi.
    assert (E1 : (i <? String.length (p +:+ s1)) = true)
      by (apply Nat.ltb_lt; rewrite length_string_app; lia).
    assert (E2 : (i <? String.length (p +:+ s2)) = true)
      by (apply Nat.ltb_lt; rewrite length_string_app; lia).
    rewrite E1, E2. unfold byte_at. now rewrite !get_app_l by lia.
  - rewrite !lookup_ge_None_2; [reflexivity| |];
      unfold DummyEmbedder_vector; rewrite length_fmap, length_seq; exact Hi.
Qed.

(** X10. [OllamaEmbedder.Embed] sends nothing when the request cannot be
    built, and returns the error of [http.NewRequest], wrapped; otherwise
    it sends one request, to the embeddings endpoint of the base URL, with
    the model and the text.  What it returns without error is never empty:
    it is the embedding of a response with status 200, which the call has
    taken from the service. *)
Theorem OllamaEmbedder_Embed_outcome newRequest e text w :
  match newRequest "POST" (baseURL e +:+ "/api/embeddings") with
  | Err err =>
      OllamaEmbedder_Embed newRequest e text w
      = (Err (Errorf_w "failed to create request" err), w)
  | Ok _ =>
      match OllamaEmbedder_Embed newRequest e text w with
      | (r, w') =>
          w_trace w'
          = w_trace w ++ [EvHTTP (baseURL e +:+ "/api/embeddings") (vector.model e) text]
          /\ w_http w' = tail (w_http w)
          /\ match r with
             | Ok v =>
                 v <> []
                 /\ exists Status, head (w_http w) = Some (HttpResponse 200 Status (Ok v))
             | Err msg =>
                 forall Status v, v <> [] ->
                   head (w_http w) <> Some (HttpResponse 200 Status (Ok v))
             end
      end
  end.
Proof.
  unfold OllamaEmbedder_Embed.
  destruct (newRequest "POST" (baseURL e +:+ "/api/embeddings")) as [[]|err];
    [|reflexivity].
  run. proj.
  destruct (w_http w) as [|[msg|code status [v|msg]] rest] eqn:Hh; run; proj;
    rewrite ?Hh.
  - repeat split. intros Status v _. discriminate.
  - repeat split. intros Status v _. discriminate.
  - destruct (code =? 200) eqn:Hc; cbn [negb]; run; proj; rewrite ?Hh.
    + apply Nat.eqb_eq in Hc. subst code.
      destruct v as [|x v]; cbn [length Nat.eqb]; run; proj; rewrite ?Hh.
      * repeat split. intros Status v Hv [= _ <-]. now destruct Hv.
      * repeat split; [discriminate|]. eauto.
    + apply Nat.eqb_neq in Hc. repeat split. intros Status v' _ [= -> _ _]. now destruct Hc.
  - destruct (code =? 200); cbn [negb]; run; proj; rewrite ?Hh; repeat split;
      intros Status v _; discriminate.
Qed.

(** ** The channels of the model and the consumer *)

Section ChannelsOfTheModel.

Lemma close_Go_iff {A} (ch : chan) (cells : list (Chan A)) :
  (exists cs, close ch cells = Go cs)
  <-> exists r c, ch = Some r /\ cells !! r = Some c /\ closed c = false.
Proof.
  unfold close. split.
  - intros [cs H]. destruct ch as [r|]; [|discriminate].
    destruct (cells !! r) as [c|] eqn:Hc; [|discriminate].
    destruct (closed c) eqn:Hcl; [discriminate|]. eauto.
  - intros (r & c & -> & Hc & Hcl). rewrite Hc, Hcl. eauto.
Qed.

Lemma close_not_Block {A} (ch : chan) (cells : list (Chan A)) : close ch cells <> Block.
Proof.
  unfold close. destruct ch as [r|]; [|discriminate].
  destruct (cells !! r) as [c|]; [|discriminate]. now destruct (closed c).
Qed.

(** X11. [ensureChannels] leaves the model with its three channels: a
    channel that was there is kept, a missing one is made, open and empty,
    with capacity 64 for tokens, 1 for the error and 0 for the stop
    signal, at a new address; no existing channel is touched, and a second
    call changes nothing. *)
Theorem ensureChannels_allocates m h :
  match ensureChannels m h with
  | (m', h') =>
      (match StreamCh m with
       | Some r => StreamCh m' = Some r /\ strings h' = strings h
       | None => StreamCh m' = Some (length (strings h))
                 /\ strings h' = strings h ++ [{| buf := []; cap := 64; closed := false |}]
       end)
      /\ (match ErrCh m with
          | Some r => ErrCh m' = Some r /\ errors h' = errors h
          | None => ErrCh m' = Some (length (errors h))
                    /\ errors h' = errors h ++ [{| buf := []; cap := 1; closed := false |}]
          end)
      /\ (match StopCh m with
          | Some r => StopCh m' = Some r /\ signals h' = signals h
          | None => StopCh m' = Some (length (signals h))
                    /\ signals h' = signals h ++ [{| buf := []; cap := 0; closed := false |}]
          end)
      /\ ensureChannels m' h' = (m', h')
  end.
Proof.
  unfold ensureChannels, make.
  destruct (StreamCh m) eqn:H1; cbn; rewrite ?H1;
    destruct (ErrCh m) eqn:H2; cbn; rewrite ?H2;
    destruct (StopCh m) eqn:H3; cbn; rewrite ?H1, ?H2, ?H3; cbn;
    repeat split; try reflexivity.
  all: destruct m, h; cbn in *; subst; reflexivity.
Qed.

(** X12. [safeCloseChannels] never waits.  It returns normally exactly
    when each of the three channel fields is nil or holds an open channel,
    and then it has closed these channels, with what they buffer left in
    them, and nothing else; in every other case it panics. *)
Theorem safeCloseChannels_returns_iff m h :
  safeCloseChannels m h <> Block
  /\ ((exists m' h', safeCloseChannels m h = Go (m', h'))
      <-> open_or_nil (StopCh m) (signals h) && open_or_nil (ErrCh m) (errors h)
          && open_or_nil (StreamCh m) (strings h) = true)
  /\ (forall m' h',
        safeCloseChannels m h = Go (m', h') ->
        h' = {| strings := close_in (StreamCh m) (strings h);
                errors := close_in (ErrCh m) (errors h);
                signals := close_in (StopCh m) (signals h) |}).
Proof.
  unfold safeCloseChannels, safeClose_stage, safeClose_StopCh, safeClose_ErrCh,
    close_StreamCh, and_then, close, open_or_nil, close_in.
  destruct (StopCh m) as [r1|] eqn:H1; cbn;
    [destruct (signals h !! r1) as [c1|] eqn:L1; cbn;
     [destruct (closed c1) eqn:C1; cbn|]|];
    rewrite ?H1; cbn;
    (destruct (ErrCh m) as [r2|] eqn:H2; cbn;
     [destruct (errors h !! r2) as [c2|] eqn:L2; cbn;
      [destruct (closed c2) eqn:C2; cbn|]|]);
    rewrite ?H2; cbn;
    (destruct (StreamCh m) as [r3|] eqn:H3; cbn;
     [destruct (strings h !! r3) as [c3|] eqn:L3; cbn;
      [destruct (closed c3) eqn:C3; cbn|]|]);
    rewrite ?H3; cbn;
    (split; [discriminate|]);
    (split; [split; [intros (m' & h' & H); (discriminate H || reflexivity)
                    | intros H; (discriminate H || eauto)]|]);
    intros m' h' H; try discriminate H;
    injection H as <- <-; destruct h; reflexivity.
Qed.

(** X13. The channels [ensureChannels] makes for a model that has none
    are torn down without panic: [safeCloseChannels] returns, the model is
    as before [ensureChannels], and the heap has the three new channels,
    closed, after the cells it had. *)
Theorem ensure_then_close m h :
  StreamCh m = None -> ErrCh m = None -> StopCh m = None ->
  safeCloseChannels (fst (ensureChannels m h)) (snd (ensureChannels m h))
  = Go (m, {| strings := strings h ++ [{| buf := []; cap := 64; closed := true |}];
              errors := errors h ++ [{| buf := []; cap := 1; closed := true |}];
              signals := signals h ++ [{| buf := []; cap := 0; closed := true |}] |}).
Proof.
  intros H1 H2 H3.
  unfold ensureChannels, make. rewrite H1. cbn. rewrite H2. cbn. rewrite H3. cbn.
  unfold safeCloseChannels, safeClose_stage, safeClose_StopCh, safeClose_ErrCh,
    close_StreamCh, and_then, close. cbn.
  rewrite !list_lookup_middle by reflexivity. cbn.
  rewrite !list_lookup_middle by reflexivity. cbn.
  rewrite !list_lookup_middle by reflexivity. cbn.
  f_equal. f_equal.
  - destruct m; cbn in *; subst; reflexivity.
  - unfold set_strings, set_errors, set_signals. cbn.
    f_equal; rewrite insert_app_r_alt by reflexivity;
      rewrite Nat.sub_diag; reflexivity.
Qed.

End ChannelsOfTheModel.

Lemma string_app_assoc (s1 s2 s3 : string) : (s1 +:+ s2) +:+ s3 = s1 +:+ s2 +:+ s3.
Proof.
  induction s1 as [|c s1 IH]; [reflexivity|].
  change (String c ((s1 +:+ s2) +:+ s3) = String c (s1 +:+ s2 +:+ s3)).
  now rewrite IH.
Qed.

Lemma string_app_nil_r (s : string) : s +:+ "" = s.
Proof.
  induction s as [|c s IH]; [reflexivity|].
  change (String c (s +:+ "") = String c s). now rewrite IH.
Qed.

Section Consumer.
Variable rank : list float32 -> list PointStruct -> list PointStruct.


(** X14. The tokens waiting in the token channel are shown in the order
    they were sent: with no error pending, one round of [NextTokenCmd] and
    [Update] per token appends them to [Msg] one after the other, empties
    the channel and leaves the polling command armed again. *)
Theorem tokens_shown_in_order ts : forall s sc ec c picks,
  crashed s = false -> quit s = false -> loop s = Idle -> inbox s = [] ->
  next s = Some (Some sc, Some ec) ->
  StreamCh (model s) = Some sc -> ErrCh (model s) = Some ec ->
  strings (heap s) !! sc = Some c -> buf c = ts ->
  can_recv (Some ec) (errors (heap s)) = false ->
  length picks = length ts ->
  Msg (model (run rank (polls picks) s)) = Msg (model s) +:+ concat_chunks ts
  /\ strings (heap (run rank (polls picks) s)) !! sc
     = Some {| buf := []; cap := cap c; closed := closed c |}
  /\ next (run rank (polls picks) s) = Some (Some sc, Some ec)
  /\ inbox (run rank (polls picks) s) = []
  /\ crashed (run rank (polls picks) s) = false.
Proof.
  induction ts as [|t ts IH]; intros s sc ec c picks Hcr Hq Hl Hi Hn Hsc Hec Hc Hb He Hlen.
  - destruct picks; [|discriminate]. cbn.
    rewrite string_app_nil_r. repeat split; auto.
    rewrite Hc. f_equal. destruct c; cbn in *; now subst.
  - destruct picks as [|pick picks]; [discriminate|].
    injection Hlen as Hlen.
    unfold polls. cbn [flat_map app]. fold (polls picks).
    cbn [run step]. rewrite Hn.
    unfold llm.NextTokenCmd. rewrite He. cbn [andb].
    cbn [can_recv]. rewrite Hc, Hb.
    cbn [recv]. rewrite Hc, Hb.
    unfold loop_step.
    cbn [heap inbox with_inbox with_next with_heap crashed quit loop].
    rewrite Hcr, Hq, Hl, Hi.
    cbn [orb app Update with_inbox with_next with_heap model with_model
         StreamCh ErrCh set_Msg].
    rewrite Hsc, Hec.
    match goal with
    | |- context [run rank (polls picks) ?S] =>
        destruct (IH S sc ec {| buf := ts; cap := cap c; closed := closed c |} picks)
          as (I1 & I2 & I3 & I4 & I5)
    end; try (cbn; auto; fail).
    + cbn. apply list_lookup_insert_eq. now apply lookup_lt_Some in Hc.
    + rewrite I1, I2, I3, I4, I5. cbn. rewrite string_app_assoc. auto.
Qed.

(** X15. The error that ends a stream is not the one the user is shown.
    [NextTokenCmd] takes the error off the error channel and hands it over
    in the message; [Update] passes the message to [handleStreamError]
    without it, which looks into the channel again, finds it empty and
    reports an unknown error.  An error still in the channel would be
    shown with its text. *)
Theorem stream_error_display :
  (forall s ch ec (c : Chan (option error)) (e : error),
      crashed s = false -> quit s = false -> loop s = Idle -> inbox s = [] ->
      next s = Some (ch, Some ec) -> ErrCh (model s) = Some ec ->
      errors (heap s) !! ec = Some c -> buf c = [Some e] -> closed c = false ->
      inbox (run rank [LNext true] s) = [StreamErrMsg e]
      /\ Msg (model (run rank [LNext true; LLoop] s))
         = "Error: An unknown error occurred during streaming"
      /\ ui.Streaming (model (run rank [LNext true; LLoop] s)) = false
      /\ loop (run rank [LNext true; LLoop] s) = Closing 0 Stay)
  /\ (forall s ec (c : Chan (option error)) (e : error) rest,
        ErrCh (model s) = Some ec ->
        errors (heap s) !! ec = Some c -> buf c = Some e :: rest ->
        Msg (model (handleStreamError s)) = "Error: " +:+ e
        /\ ui.Streaming (model (handleStreamError s)) = false
        /\ loop (handleStreamError s) = Closing 0 Stay).
Proof.
  split.
  - intros s ch ec c e Hcr Hq Hl Hi Hn Hec Hc Hb Hcl.
    assert (Hlt : ec < length (errors (heap s))) by now apply lookup_lt_Some in Hc.
    cbn [run step]. rewrite Hn.
    unfold llm.NextTokenCmd. cbn [can_recv recv]. rewrite Hc, Hb. cbn [andb orb].
    cbn [with_inbox with_next with_heap inbox]. rewrite Hi. split; [reflexivity|].
    unfold loop_step. cbn [crashed quit loop inbox with_inbox with_next with_heap].
    rewrite Hcr, Hq, Hl. cbn [orb app Update].
    unfold handleStreamError.
    cbn [model with_model with_inbox with_next with_heap heap ErrCh set_Streaming
         errors set_errors].
    rewrite Hec. cbn [recv]. rewrite list_lookup_insert_eq by exact Hlt.
    cbn [buf closed]. rewrite Hcl. cbn. auto.
  - intros s ec c e rest Hec Hc Hb. unfold handleStreamError.
    cbn [model with_model ErrCh set_Streaming heap]. rewrite Hec.
    cbn [recv]. rewrite Hc, Hb. cbn. auto.
Qed.

Lemma loop_step_closing s stage after m h :
  crashed s = false -> quit s = false -> loop s = Closing stage after ->
  safeClose_stage stage (model s) (heap s) = Go (m, h) ->
  loop_step s
  = Some (if stage <? 2
          then with_loop (Closing (S stage) after) (with_heap h (with_model m s))
          else match after with
               | Stay => with_loop Idle (with_heap h (with_model m s))
               | ClearMsg =>
                   with_model (set_Msg "" m) (with_loop Idle (with_heap h (with_model m s)))
               | Quit => with_quit (with_loop Idle (with_heap h (with_model m s)))
               end).
Proof.
  intros Hcr Hq Hl Hst. unfold loop_step. rewrite Hcr, Hq, Hl, Hst. cbn [orb].
  destruct (stage <? 2); [reflexivity|]. now destruct after.
Qed.

Lemma loop_step_key s k rest :
  crashed s = false -> quit s = false -> loop s = Idle -> inbox s = KeyMsg k :: rest ->
  ScreenMode (model s) = ModeChat ->
  EditingModel (model s) = false -> EditingAPIURL (model s) = false ->
  loop_step s = Some (handleKeyMsg k (with_inbox rest s)).
Proof.
  intros Hcr Hq Hl Hi Hmode He1 He2. unfold loop_step.
  rewrite Hcr, Hq, Hl, Hi. cbn [orb Update model with_inbox].
  now rewrite Hmode, He1, He2.
Qed.

(** X16. Esc while an answer streams cancels it and does not quit: once the
    event loop has handled the key and run the teardown, the three
    channels, open before, are closed and the model holds none of them,
    [Streaming] is off and [Msg] is empty; the world, the producer and
    [saveCmd] have not been touched.  Esc while nothing streams quits. *)
Theorem Esc_cancels_stream :
  (forall s st ec sc c1 c2 c3,
      crashed s = false -> quit s = false -> loop s = Idle -> inbox s = [] ->
      ScreenMode (model s) = ModeChat ->
      EditingModel (model s) = false -> EditingAPIURL (model s) = false ->
      ui.Streaming (model s) = true ->
      StopCh (model s) = Some st -> ErrCh (model s) = Some ec ->
      StreamCh (model s) = Some sc ->
      signals (heap s) !! st = Some c1 -> closed c1 = false ->
      errors (heap s) !! ec = Some c2 -> closed c2 = false ->
      strings (heap s) !! sc = Some c3 -> closed c3 = false ->
      exists s',
        run rank [LKey KeyEsc; LLoop; LLoop; LLoop; LLoop] s = s'
        /\ quit s' = false /\ crashed s' = false /\ loop s' = Idle /\ inbox s' = []
        /\ ui.Streaming (model s') = false /\ Msg (model s') = ""
        /\ StopCh (model s') = None /\ ErrCh (model s') = None
        /\ StreamCh (model s') = None
        /\ signals (heap s') !! st = Some (closed_cell c1)
        /\ errors (heap s') !! ec = Some (closed_cell c2)
        /\ strings (heap s') !! sc = Some (closed_cell c3)
        /\ world s' = world s /\ producer s' = producer s /\ saver s' = saver s)
  /\ (forall s,
        crashed s = false -> quit s = false -> loop s = Idle -> inbox s = [] ->
        ScreenMode (model s) = ModeChat ->
        EditingModel (model s) = false -> EditingAPIURL (model s) = false ->
        ui.Streaming (model s) = false ->
        quit (run rank [LKey KeyEsc; LLoop] s) = true
        /\ heap (run rank [LKey KeyEsc; LLoop] s) = heap s).
Proof.
  split.
  - intros s st ec sc c1 c2 c3 Hcr Hq Hl Hi Hmode He1 He2 Hst H1 H2 H3 L1 C1 L2 C2 L3 C3.
    assert (Hlt1 : st < length (signals (heap s))) by now apply lookup_lt_Some in L1.
    assert (Hlt2 : ec < length (errors (heap s))) by now apply lookup_lt_Some in L2.
    assert (Hlt3 : sc < length (strings (heap s))) by now apply lookup_lt_Some in L3.
    eexists. split.
    + cbn [run step]. rewrite Hcr, Hq. cbn [orb]. rewrite Hi. cbn [app].
      rewrite (loop_step_key (with_inbox [KeyMsg KeyEsc] s) KeyEsc []) by (cbn; auto).
      unfold handleKeyMsg. cbn [model with_inbox]. rewrite Hst.
      erewrite (loop_step_closing _ 0 ClearMsg); cycle 1.
      { exact Hcr. } { exact Hq. } { reflexivity. }
      { cbn [safeClose_stage]. unfold safeClose_StopCh.
        cbn [model heap with_loop with_model with_inbox StopCh set_Streaming].
        rewrite H1. cbn [close]. rewrite L1, C1. reflexivity. }
      cbn [Nat.ltb Nat.leb].
      erewrite (loop_step_closing _ 1 ClearMsg); cycle 1.
      { exact Hcr. } { exact Hq. } { reflexivity. }
      { cbn [safeClose_stage]. unfold safeClose_ErrCh.
        cbn [model heap with_loop with_model with_heap ErrCh set_StopCh errors set_signals].
        cbn [set_Streaming ErrCh]. rewrite H2. cbn [close]. rewrite L2, C2. reflexivity. }
      cbn [Nat.ltb Nat.leb].
      erewrite (loop_step_closing _ 2 ClearMsg); cycle 1.
      { exact Hcr. } { exact Hq. } { reflexivity. }
      { cbn [safeClose_stage]. unfold close_StreamCh.
        cbn [model heap with_loop with_model with_heap StreamCh set_ErrCh set_StopCh
             strings set_errors set_signals set_Streaming].
        rewrite H3. cbn [close]. rewrite L3, C3. reflexivity. }
      cbn [Nat.ltb Nat.leb]. reflexivity.
    + cbn. rewrite !list_lookup_insert_eq by assumption.
      repeat split; auto.
  - intros s Hcr Hq Hl Hi Hmode He1 He2 Hst.
    cbn [run step]. rewrite Hcr, Hq. cbn [orb]. rewrite Hi. cbn [app].
    rewrite (loop_step_key (with_inbox [KeyMsg KeyEsc] s) KeyEsc []) by (cbn; auto).
    unfold handleKeyMsg. cbn [model with_inbox]. rewrite Hst. cbn. auto.
Qed.

End Consumer.

(** ** Who closes the token channel; cancellation *)

Section ClosedAt.
Context {A : Type}.
Implicit Types (cells : list (Chan A)).


Lemma send_closed_at ch (v : A) cells cells' sc b :
  send ch v cells = Go cells' -> closed_at sc cells b -> closed_at sc cells' b.
Proof.
  unfold send. destruct ch as [r|]; [|discriminate].
  destruct (cells !! r) as [c|] eqn:Hc; [|discriminate].
  destruct (closed c) eqn:Hcl; [discriminate|]. destruct (_ <? _); [|discriminate].
  intros [= <-] (C & HC & Hb). destruct (decide (r = sc)) as [->|Hne].
  - rewrite Hc in HC. injection HC as <-. eexists. split.
    + apply list_lookup_insert_eq. now apply lookup_lt_Some in Hc.
    + now rewrite <- Hb, Hcl.
  - exists C. split; [|exact Hb]. now rewrite list_lookup_insert_ne.
Qed.

Lemma recv_closed_at (zero : A) ch cells v ok cells' sc b :
  recv zero ch cells = Go (v, ok, cells') -> closed_at sc cells b -> closed_at sc cells' b.
Proof.
  unfold recv. destruct ch as [r|]; [|discriminate].
  destruct (cells !! r) as [c|] eqn:Hc; [|discriminate].
  destruct (buf c) as [|x rest].
  - destruct (closed c); [|discriminate]. now intros [= _ _ <-].
  - intros [= _ _ <-] (C & HC & Hb). destruct (decide (r = sc)) as [->|Hne].
    + rewrite Hc in HC. injection HC as <-. eexists. split.
      * apply list_lookup_insert_eq. now apply lookup_lt_Some in Hc.
      * exact Hb.
    + exists C. split; [|exact Hb]. now rewrite list_lookup_insert_ne.
Qed.

Lemma close_closed_at_other r cells cells' sc b :
  close (Some r) cells = Go cells' -> r <> sc ->
  closed_at sc cells b -> closed_at sc cells' b.
Proof.
  intros H Hne (C & HC & Hb). exists C. split; [|exact Hb].
  now rewrite (close_other r cells cells' sc H Hne).
Qed.

Lemma close_closed_at_same cells cells' sc b :
  close (Some sc) cells = Go cells' -> closed_at sc cells b ->
  b = false /\ closed_at sc cells' true.
Proof.
  intros H (C & HC & Hb). pose proof (close_at sc cells cells' C H HC) as HC'.
  unfold close in H. rewrite HC in H. destruct (closed C) eqn:Hcl; [discriminate|].
  split; [now rewrite <- Hb|]. eexists. split; [exact HC'|reflexivity].
Qed.

Lemma close_closed_panics cells sc :
  closed_at sc cells true -> close (Some sc) cells = Panic "close of closed channel".
Proof. intros (C & HC & Hb). unfold close. now rewrite HC, Hb. Qed.

End ClosedAt.

Section Closing.
Variable rank : list float32 -> list PointStruct -> list PointStruct.
Variables (rc sc : nat) (first : string) (m0 : Model) (w0 : World).

Local Abbreviation Inv := (invariant rank rc sc first m0 w0).

Lemma token_channel_alt s :
  token_channel sc s <->
  exists b, closed_at sc (strings (heap s)) b
    /\ if b
       then (StreamCh (model s) = Some sc /\ past_close (llm.pc (producer s)) = true)
            \/ (StreamCh (model s) = None /\ before_close (llm.pc (producer s)) = true)
       else StreamCh (model s) = Some sc /\ before_close (llm.pc (producer s)) = true.
Proof.
  unfold token_channel, closed_at. split.
  - intros (C & HC & H). exists (closed C). split; [eauto|exact H].
  - intros (b & (C & HC & Hb) & H). exists C. split; [exact HC|]. now rewrite Hb.
Qed.

(** A step that closes nothing and keeps the field of the model. *)
Lemma token_channel_frame s s' :
  (forall b, closed_at sc (strings (heap s)) b -> closed_at sc (strings (heap s')) b) ->
  StreamCh (model s') = StreamCh (model s) ->
  (before_close (llm.pc (producer s)) = true -> before_close (llm.pc (producer s')) = true) ->
  (past_close (llm.pc (producer s)) = true -> past_close (llm.pc (producer s')) = true) ->
  token_channel sc s -> token_channel sc s'.
Proof.
  intros Hcl Hm Hb Hp. rewrite !token_channel_alt.
  intros (b & Hat & H). exists b. split; [now apply Hcl|].
  rewrite Hm. destruct b; [destruct H as [[H1 H2]|[H1 H2]]; [left|right] | destruct H as [H1 H2]];
    auto.
Qed.

Lemma select_sent_closed_at {B} pick st sigs ch (v : B) cells cs b :
  llm.select_stop_or_send pick st sigs ch v cells = Go (Some cs) ->
  closed_at sc cells b -> closed_at sc cs b.
Proof. intros H. apply select_sent in H. now apply (send_closed_at ch v cells cs). Qed.

Lemma producer_token_channel s pick p h spawn :
  Inv s -> token_channel sc s ->
  llm.producer_step pick (producer s) (heap s) = Some (p, h, spawn) ->
  token_channel sc (match spawn with
                    | Some r => with_sender (Some r) (with_heap h (with_producer p s))
                    | None => with_heap h (with_producer p s)
                    end).
Proof.
  intros [Hwire _] HK.
  pose proof Hwire as (Hresp & Hpresp & Hpout & Hne & Hmodel & Hnext & Hvs & Hvp).
  unfold llm.producer_step.
  destruct (llm.pc (producer s)) as [[|c rest]|c rest|c rest| |e| | |b] eqn:Hpc.
  - intros [= <- <- <-]. apply (token_channel_frame s); auto; cbn; now rewrite Hpc.
  - destruct (can_recv _ _);
      [|destruct (bool_decide (c = "")); [|cbn [llm.localResponseCh llm.WriteString];
                                            rewrite Hpresp]];
      intros [= <- <- <-]; apply (token_channel_frame s); auto; cbn; now rewrite Hpc.
  - destruct (llm.select_stop_or_send _ _ _ _ _ _) as [[cs|]| |msg] eqn:Hsel;
      [| |discriminate|]; intros [= <- <- <-];
      apply (token_channel_frame s); auto; cbn; try (now rewrite Hpc).
    intros b. now apply (select_sent_closed_at _ _ _ _ _ _ _ _ Hsel).
  - destruct (llm.select_stop_or_send _ _ _ _ _ _) as [[cs|]| |msg] eqn:Hsel;
      [| |discriminate|]; intros [= <- <- <-];
      apply (token_channel_frame s); auto; cbn; try (now rewrite Hpc).
    intros b. now apply (select_sent_closed_at _ _ _ _ _ _ _ _ Hsel).
  - rewrite Hpresp.
    destruct (can_recv (llm.stopCh (producer s)) (signals (heap s)));
      destruct (llm.err (producer s)); intros [= <- <- <-];
      apply (token_channel_frame s); auto; cbn; now rewrite Hpc.
  - destruct (llm.select_stop_or_send _ _ _ _ _ _) as [[cs|]| |msg] eqn:Hsel;
      [| |discriminate|]; intros [= <- <- <-];
      apply (token_channel_frame s); auto; cbn; now rewrite Hpc.
  - (* the producer closes the token channel *)
    rewrite Hpout.
    destruct (close (Some sc) (strings (heap s))) as [cs| |msg] eqn:Hcl; [|discriminate|];
      intros [= <- <- <-].
    + apply token_channel_alt in HK as (b & Hat & H).
      destruct (close_closed_at_same _ _ _ _ Hcl Hat) as [-> Hat'].
      apply token_channel_alt. exists true. split; [exact Hat'|].
      left. cbn. split; [apply H | reflexivity].
    + apply (token_channel_frame s); auto; cbn; now rewrite Hpc.
  - (* the producer closes the response channel *)
    rewrite Hpresp.
    destruct (close (Some rc) (strings (heap s))) as [cs| |msg] eqn:Hcl; [|discriminate|];
      intros [= <- <- <-]; apply (token_channel_frame s); auto; cbn;
      try (now rewrite Hpc).
    intros b. now apply (close_closed_at_other rc).
  - discriminate.
Qed.

Lemma safeClose_stage_token_channel stage s m h :
  Inv s -> token_channel sc s ->
  safeClose_stage stage (model s) (heap s) = Go (m, h) ->
  token_channel sc (with_heap h (with_model m s)).
Proof.
  intros [Hwire _] HK.
  pose proof Hwire as (Hresp & Hpresp & Hpout & Hne & Hmodel & Hnext & Hvs & Hvp).
  destruct stage as [|[|stage]]; cbn [safeClose_stage].
  - unfold safeClose_StopCh. destruct (StopCh (model s)) as [r|].
    + destruct (close (Some r) (signals (heap s))) as [cs| |msg]; [|discriminate..].
      intros [= <- <-]. now apply (token_channel_frame s).
    + intros [= <- <-]. now apply (token_channel_frame s).
  - unfold safeClose_ErrCh. destruct (ErrCh (model s)) as [r|].
    + destruct (close (Some r) (errors (heap s))) as [cs| |msg]; [|discriminate..].
      intros [= <- <-]. now apply (token_channel_frame s).
    + intros [= <- <-]. now apply (token_channel_frame s).
  - unfold close_StreamCh. destruct Hmodel as [Hm|Hm]; rewrite Hm.
    + intros [= <- <-]. now apply (token_channel_frame s).
    + destruct (close (Some sc) (strings (heap s))) as [cs| |msg] eqn:Hcl; [|discriminate..].
      intros [= <- <-].
      apply token_channel_alt in HK as (b & Hat & H).
      destruct (close_closed_at_same _ _ _ _ Hcl Hat) as [-> Hat'].
      apply token_channel_alt. exists true. split; [exact Hat'|].
      right. cbn. split; [reflexivity | apply H].
Qed.

Lemma step_token_channel l s s' :
  Inv s -> token_channel sc s -> step rank l s = Some s' -> token_channel sc s'.
Proof.
  intros HI HK. pose proof HI as [Hwire _].
  pose proof Hwire as (Hresp & Hpresp & Hpout & Hne & Hmodel & Hnext & Hvs & Hvp).
  destruct l as [pick| | |pick| |k]; cbn [step].
  - destruct (llm.producer_step pick (producer s) (heap s)) as [[[p h] spawn]|] eqn:E;
      [|discriminate].
    pose proof (producer_token_channel s pick p h spawn HI HK E) as H.
    destruct spawn; intros [= <-]; exact H.
  - destruct (sender s) as [response|]; [|discriminate].
    unfold llm.sendFullResponse_step.
    destruct (send _ _ _) as [cs| |msg] eqn:Hs; [|discriminate|]; intros [= <-];
      apply (token_channel_frame s); auto.
    intros b. now apply (send_closed_at _ _ _ _ _ _ Hs).
  - unfold saveCmd_step. destruct (saver s) as [|v|v msg]; [| |discriminate].
    + destruct (recv "" (responseCh s) (strings (heap s))) as [[[v ok] cs]| |msg] eqn:Hr;
        [|discriminate..].
      destruct (bool_decide (v = "")); intros [= <-];
        apply (token_channel_frame s); auto;
        intros b; now apply (recv_closed_at _ _ _ _ _ _ _ _ Hr).
    + destruct (Model_StoreQA rank (model s) (question s) v (world s)) as [[[]|e] w];
        intros [= <-]; now apply (token_channel_frame s).
  - destruct (next s) as [[ch errCh]|]; [|discriminate].
    unfold llm.NextTokenCmd.
    destruct (can_recv errCh (errors (heap s)) && _).
    + destruct (recv None errCh (errors (heap s))) as [[[[e|] ok] cs]| |msg];
        [| |discriminate..]; intros [= <-]; now apply (token_channel_frame s).
    + destruct (can_recv ch (strings (heap s))); [|discriminate].
      destruct (recv "" ch (strings (heap s))) as [[[v ok] cs]| |msg] eqn:Hr;
        [|discriminate..].
      destruct ok; intros [= <-]; apply (token_channel_frame s); auto;
        intros b; now apply (recv_closed_at _ _ _ _ _ _ _ _ Hr).
  - unfold loop_step. destruct (crashed s || quit s); [discriminate|].
    destruct (loop s) as [|stage after].
    + destruct (inbox s) as [|msg rest]; [discriminate|].
      destruct msg as [t| |e|msg d|k|]; cbn [Update].
      * cbn [model with_model with_inbox StreamCh ErrCh set_Msg].
        destruct (StreamCh (model s)); [destruct (ErrCh (model s))|];
          intros [= <-]; now apply (token_channel_frame s).
      * intros [= <-]. now apply (token_channel_frame s).
      * intros [= <-]. unfold handleStreamError.
        cbn [model with_model with_inbox ErrCh set_Streaming heap].
        destruct (ErrCh (model s)) as [ech|]; [|now apply (token_channel_frame s)].
        destruct (recv None (Some ech) (errors (heap s))) as [[[[e'|] ok] cs]| |msg];
          now apply (token_channel_frame s).
      * intros [= <-]. now apply (token_channel_frame s).
      * cbn [model with_inbox]. destruct (ScreenMode (model s)); [|discriminate].
        destruct (EditingModel (model s) || EditingAPIURL (model s)); [discriminate|].
        intros [= <-]. unfold handleKeyMsg. destruct k.
        -- cbn [model with_inbox]. destruct (ui.Streaming (model s));
             now apply (token_channel_frame s).
        -- now apply (token_channel_frame s).
      * intros [= <-]. now apply (token_channel_frame s).
    + destruct (safeClose_stage stage (model s) (heap s)) as [[m h]| |msg] eqn:Hst;
        [|discriminate|].
      * pose proof (safeClose_stage_token_channel stage s m h HI HK Hst) as H.
        destruct (stage <? 2);
          [intros [= <-]; revert H; now apply token_channel_frame|].
        destruct after; intros [= <-]; revert H; now apply token_channel_frame.
      * intros [= <-]. now apply (token_channel_frame s).
  - destruct (crashed s || quit s); [discriminate|]. intros [= <-].
    now apply (token_channel_frame s).
Qed.

Lemma run_token_channel sched s :
  Inv s -> token_channel sc s -> token_channel sc (run rank sched s).
Proof.
  revert s. induction sched as [|l sched IH]; intros s HI HK; [exact HK|].
  simpl. destruct (step rank l s) as [s'|] eqn:E; [|now apply IH].
  apply IH; [now apply (step_preserves rank rc sc first m0 w0 l s) | now apply (step_token_channel l s)].
Qed.

End Closing.


Section Closed.
Variable rank : list float32 -> list PointStruct -> list PointStruct.

Lemma handleChatInput_fresh m h w chunks final s0 :
  StreamCh m = None ->
  handleChatInput m h w chunks final = Some s0 ->
  (exists rc, invariant rank rc (length (strings h)) (first_chunk chunks) m w s0)
  /\ token_channel (length (strings h)) s0.
Proof.
  intros Hk. unfold handleChatInput.
  destruct (bool_decide (TextInput m = "")); [discriminate|].
  unfold ensureChannels, make. cbn [StreamCh ErrCh StopCh set_Msg set_LastQuestion].
  rewrite Hk. cbn.
  destruct (ErrCh m); cbn; destruct (StopCh m); cbn;
    intros H; injection H as H; subst s0; cbn;
    (split;
     [ exists (length (strings h ++ [{| buf := []; cap := 64; closed := false |}]));
       (split; [unfold wiring; cbn; rewrite ?Hk; repeat split; auto;
                rewrite length_app; simpl; lia |]);
       (eexists; split; [cbn; now apply list_lookup_middle |]);
       (split; [reflexivity|]); cbn;
       (split; [reflexivity|]); (split; [constructor|]);
       intros _; (split; [split; reflexivity | discriminate])
     | eexists; split;
       [ cbn; rewrite lookup_app_l by (rewrite length_app; simpl; lia);
         now apply list_lookup_middle
       | cbn; auto ] ]).
Qed.

(** X17. The token channel is closed by the producer at its end and by the
    teardown, and whoever comes second panics.  In a session started on a
    model without a token channel, in every schedule: when the producer has
    run to its end without panic, the model still holds the token channel,
    which is closed, and the last stage of [safeCloseChannels] panics on
    it; when a teardown has completed, the producer has not ended without
    panic, and if it is at [close(localOut)] it panics there. *)
Theorem token_channel_closed_twice m h w chunks final s0 sched :
  StreamCh m = None ->
  handleChatInput m h w chunks final = Some s0 ->
  (llm.pc (producer (run rank sched s0)) = llm.Exited false ->
   StreamCh (model (run rank sched s0)) = Some (length (strings h))
   /\ safeClose_stage 2 (model (run rank sched s0)) (heap (run rank sched s0))
      = Panic "close of closed channel")
  /\ (StreamCh (model (run rank sched s0)) = None ->
      llm.pc (producer (run rank sched s0)) <> llm.Exited false
      /\ (llm.pc (producer (run rank sched s0)) = llm.CloseOut ->
          forall pick,
            llm.producer_step pick (producer (run rank sched s0))
                              (heap (run rank sched s0))
            = Some (llm.at_pc (llm.Exited true) (producer (run rank sched s0)),
                    heap (run rank sched s0), None))).
Proof.
  intros Hk Hs0.
  destruct (handleChatInput_fresh m h w chunks final s0 Hk Hs0) as [[rc HI] HK].
  pose proof (run_token_channel rank rc _ _ m w sched s0 HI HK) as HK'.
  pose proof (run_preserves rank rc _ _ m w sched s0 HI) as [Hwire _].
  destruct Hwire as (_ & _ & Hpout & _).
  destruct HK' as (C & HC & H). split.
  - intros Hpc. rewrite Hpc in H. cbn in H.
    destruct (closed C) eqn:Hcl.
    + destruct H as [[Hm _]|[_ Hb]]; [|discriminate].
      split; [exact Hm|]. cbn [safeClose_stage]. unfold close_StreamCh.
      rewrite Hm. unfold close. now rewrite HC, Hcl.
    + destruct H as [_ Hb]. discriminate.
  - intros Hm. rewrite Hm in H. destruct (closed C) eqn:Hcl.
    + destruct H as [[Hm' _]|[_ Hb]]; [discriminate|]. split.
      * intros Hpc. rewrite Hpc in Hb. discriminate.
      * intros Hpc pick. unfold llm.producer_step. rewrite Hpc, Hpout.
        unfold close. now rewrite HC, Hcl.
    + destruct H as [Hm' _]. discriminate.
Qed.

(** No step reopens a stop channel or gives the producer another one. *)
Lemma step_stop l s s' :
  step rank l s = Some s' ->
  llm.stopCh (producer s') = llm.stopCh (producer s)
  /\ (forall st, can_recv st (signals (heap s)) = true ->
                 can_recv st (signals (heap s')) = true).
Proof.
  destruct l as [pick| | |pick| |k]; cbn [step].
  - unfold llm.producer_step.
    destruct (llm.pc (producer s)) as [[|c rest]|c rest|c rest| |e| | |b].
    + intros [= <-]. auto.
    + destruct (can_recv _ _);
        [|destruct (bool_decide (c = "")); [|cbn [llm.localResponseCh llm.WriteString];
          destruct (llm.localResponseCh (producer s))]];
        intros [= <-]; auto.
    + destruct (llm.select_stop_or_send _ _ _ _ _ _) as [[cs|]| |msg];
        [| |discriminate|]; intros [= <-]; auto.
    + destruct (llm.select_stop_or_send _ _ _ _ _ _) as [[cs|]| |msg];
        [| |discriminate|]; intros [= <-]; auto.
    + destruct (llm.err (producer s));
        (destruct (llm.localResponseCh (producer s));
         [destruct (can_recv _ _)|]); intros [= <-]; auto.
    + destruct (llm.select_stop_or_send _ _ _ _ _ _) as [[cs|]| |msg];
        [| |discriminate|]; intros [= <-]; auto.
    + destruct (llm.localOut (producer s)); [destruct (close _ _) as [cs| |msg]|];
        [|discriminate| |]; intros [= <-]; auto.
    + destruct (llm.localResponseCh (producer s)); [destruct (close _ _) as [cs| |msg]|];
        [|discriminate| |]; intros [= <-]; auto.
    + discriminate.
  - destruct (sender s); [|discriminate].
    unfold llm.sendFullResponse_step. destruct (send _ _ _); [|discriminate|];
      intros [= <-]; auto.
  - unfold saveCmd_step. destruct (saver s) as [|v|v msg]; [| |discriminate].
    + destruct (recv "" (responseCh s) (strings (heap s))) as [[[v ok] cs]| |msg];
        [|discriminate..].
      destruct (bool_decide (v = "")); intros [= <-]; auto.
    + destruct (Model_StoreQA rank (model s) (question s) v (world s)) as [[[]|e] w];
        intros [= <-]; auto.
  - destruct (next s) as [[ch errCh]|]; [|discriminate].
    unfold llm.NextTokenCmd.
    destruct (can_recv errCh (errors (heap s)) && _).
    + destruct (recv None errCh (errors (heap s))) as [[[[e|] ok] cs]| |msg];
        [| |discriminate..]; intros [= <-]; auto.
    + destruct (can_recv ch (strings (heap s))); [|discriminate].
      destruct (recv "" ch (strings (heap s))) as [[[v ok] cs]| |msg];
        [|discriminate..].
      destruct ok; intros [= <-]; auto.
  - unfold loop_step. destruct (crashed s || quit s); [discriminate|].
    destruct (loop s) as [|stage after].
    + destruct (inbox s) as [|msg rest]; [discriminate|].
      destruct msg as [t| |e|msg d|k|]; cbn [Update].
      * cbn [model with_model with_inbox StreamCh ErrCh set_Msg].
        destruct (StreamCh (model s)); [destruct (ErrCh (model s))|];
          intros [= <-]; auto.
      * intros [= <-]. auto.
      * intros [= <-]. unfold handleStreamError.
        cbn [model with_model with_inbox ErrCh set_Streaming heap].
        destruct (ErrCh (model s)) as [ech|]; [|auto].
        destruct (recv None (Some ech) (errors (heap s))) as [[[[e'|] ok] cs]| |msg]; auto.
      * intros [= <-]. auto.
      * cbn [model with_inbox]. destruct (ScreenMode (model s)); [|discriminate].
        destruct (EditingModel (model s) || EditingAPIURL (model s)); [discriminate|].
        intros [= <-]. unfold handleKeyMsg. destruct k; [|auto].
        cbn [model with_inbox]. destruct (ui.Streaming (model s)); auto.
      * intros [= <-]. auto.
    + destruct (safeClose_stage stage (model s) (heap s)) as [[m h]| |msg] eqn:Hst;
        [|discriminate|].
      * assert (Hsig : forall st, can_recv st (signals (heap s)) = true ->
                                  can_recv st (signals h) = true).
        { destruct stage as [|[|stage]]; cbn [safeClose_stage] in Hst.
          - unfold safeClose_StopCh in Hst. destruct (StopCh (model s)) as [r|].
            + destruct (close (Some r) (signals (heap s))) as [cs| |msg] eqn:Hcl;
                [|discriminate..].
              injection Hst as <- <-. intros st. now apply (can_recv_close st r).
            + injection Hst as <- <-. auto.
          - unfold safeClose_ErrCh in Hst. destruct (ErrCh (model s)) as [r|].
            + destruct (close (Some r) (errors (heap s))) as [cs| |msg];
                [|discriminate..].
              injection Hst as <- <-. auto.
            + injection Hst as <- <-. auto.
          - unfold close_StreamCh in Hst. destruct (StreamCh (model s)) as [r|].
            + destruct (close (Some r) (strings (heap s))) as [cs| |msg];
                [|discriminate..].
              injection Hst as <- <-. auto.
            + injection Hst as <- <-. auto. }
        destruct (stage <? 2); [intros [= <-]; auto|].
        destruct after; intros [= <-]; auto.
      * intros [= <-]. auto.
  - destruct (crashed s || quit s); [discriminate|]. intros [= <-]. auto.
Qed.

Lemma producer_step_stopped pick p h p' h' spawn :
  can_recv (llm.stopCh p) (signals h) = true ->
  between_chunks (llm.pc p) = true ->
  llm.producer_step pick p h = Some (p', h', spawn) ->
  between_chunks (llm.pc p') = true
  /\ llm.fullResponse p' = llm.fullResponse p
  /\ spawn = None
  /\ (past_stream (llm.pc p) = true ->
      past_stream (llm.pc p') = true /\ llm.err p' = llm.err p)
  /\ (forall c rest, llm.pc p = llm.InChatStream (c :: rest) ->
        llm.pc p' = llm.AfterChatStream /\ llm.err p' = llm.canceled).
Proof.
  intros Hstop Hb. unfold llm.producer_step.
  destruct (llm.pc p) as [[|c rest]|c rest|c rest| |e| | |b]; try discriminate.
  - intros [= <- <- <-]. cbn; repeat split; auto; intros; try discriminate; try congruence.
  - rewrite Hstop. intros [= <- <- <-]. cbn; repeat split; auto; intros; try discriminate; try congruence.
  - rewrite Hstop.
    destruct (llm.localResponseCh p); destruct (llm.err p) eqn:He;
      intros [= <- <- <-]; cbn; repeat split; auto; intros; try discriminate; try congruence.
  - destruct (llm.select_stop_or_send _ _ _ _ _ _) as [[cs|]| |msg];
      [| |discriminate|]; intros [= <- <- <-]; cbn; repeat split; auto; intros; try discriminate; try congruence.
  - destruct (llm.localOut p); [destruct (close _ _) as [cs| |msg]|];
      [|discriminate| |]; intros [= <- <- <-]; cbn; repeat split; auto; intros; try discriminate; try congruence.
  - destruct (llm.localResponseCh p); [destruct (close _ _) as [cs| |msg]|];
      [|discriminate| |]; intros [= <- <- <-]; cbn; repeat split; auto; intros; try discriminate; try congruence.
Qed.

Lemma step_stopped l s s' :
  stopped s = true -> between_chunks (llm.pc (producer s)) = true ->
  step rank l s = Some s' ->
  stopped s' = true
  /\ between_chunks (llm.pc (producer s')) = true
  /\ llm.fullResponse (producer s') = llm.fullResponse (producer s)
  /\ (past_stream (llm.pc (producer s)) = true ->
      past_stream (llm.pc (producer s')) = true
      /\ llm.err (producer s') = llm.err (producer s)).
Proof.
  intros Hstop Hb Hs.
  destruct (step_stop l s s' Hs) as [Hch Hsig].
  assert (Hstop' : stopped s' = true).
  { unfold stopped in *. rewrite Hch. now apply Hsig. }
  split; [exact Hstop'|].
  destruct l as [pick| | |pick| |k];
    try (destruct (step_keeps rank _ s s' Hs) as [_ Hp]; rewrite Hp by discriminate; auto).
  cbn [step] in Hs.
  destruct (llm.producer_step pick (producer s) (heap s)) as [[[p h] spawn]|] eqn:E;
    [|discriminate].
  destruct (producer_step_stopped _ _ _ _ _ _ Hstop Hb E) as (H1 & H2 & _ & H3 & _).
  destruct spawn; injection Hs as <-; auto.
Qed.

Lemma run_stopped sched s :
  stopped s = true -> between_chunks (llm.pc (producer s)) = true ->
  stopped (run rank sched s) = true
  /\ between_chunks (llm.pc (producer (run rank sched s))) = true
  /\ llm.fullResponse (producer (run rank sched s)) = llm.fullResponse (producer s)
  /\ (past_stream (llm.pc (producer s)) = true ->
      past_stream (llm.pc (producer (run rank sched s))) = true
      /\ llm.err (producer (run rank sched s)) = llm.err (producer s)).
Proof.
  revert s. induction sched as [|l sched IH]; intros s Hstop Hb; [auto|].
  simpl. destruct (step rank l s) as [s'|] eqn:E; [|now apply IH].
  destruct (step_stopped l s s' Hstop Hb E) as (H1 & H2 & H3 & H4).
  destruct (IH s' H1 H2) as (I1 & I2 & I3 & I4).
  split; [exact I1|]. split; [exact I2|]. split; [congruence|].
  intros Hp. destruct (H4 Hp) as [Hp' He]. destruct (I4 Hp') as [Hp'' He'].
  split; [exact Hp'' | congruence].
Qed.

(** X18. Once the stop channel is closed and the producer is not in the
    middle of a chunk, it starts no further chunk, in any schedule: the
    stop channel stays closed, the producer is never again at a send of a
    chunk, and the text it has aggregated does not grow.  If a chunk was
    still to come, the producer's next step ends the stream, and the
    session is canceled from then on. *)
Theorem cancel_stops_producer s sched :
  stopped s = true ->
  between_chunks (llm.pc (producer s)) = true ->
  stopped (run rank sched s) = true
  /\ between_chunks (llm.pc (producer (run rank sched s))) = true
  /\ llm.fullResponse (producer (run rank sched s)) = llm.fullResponse (producer s)
  /\ (forall c rest pick,
        llm.pc (producer s) = llm.InChatStream (c :: rest) ->
        session_state (run rank (LProducer pick :: sched) s) = Canceled).
Proof.
  intros Hstop Hb.
  destruct (run_stopped sched s Hstop Hb) as (H1 & H2 & H3 & _).
  split; [exact H1|]. split; [exact H2|]. split; [exact H3|].
  intros c rest pick Hpc. cbn [run step].
  destruct (llm.producer_step pick (producer s) (heap s)) as [[[p h] spawn]|] eqn:E.
  - destruct (producer_step_stopped _ _ _ _ _ _ Hstop Hb E) as (P1 & P2 & -> & _ & P5).
    destruct (P5 c rest Hpc) as [Hpc' Herr].
    pose proof (step_stop (LProducer pick) s (with_heap h (with_producer p s))) as Hst.
    cbn [step] in Hst. rewrite E in Hst. destruct (Hst eq_refl) as [Hch Hsig].
    assert (Hstop' : stopped (with_heap h (with_producer p s)) = true).
    { unfold stopped in *. rewrite Hch. now apply Hsig. }
    destruct (run_stopped sched (with_heap h (with_producer p s)) Hstop' P1)
      as (_ & _ & _ & R4).
    cbn in R4. rewrite Hpc' in R4. destruct (R4 eq_refl) as [Rp Re].
    unfold session_state. rewrite Re, Herr.
    destruct (llm.pc (producer (run rank sched (with_heap h (with_producer p s)))));
      try discriminate; reflexivity.
  - unfold llm.producer_step in E. rewrite Hpc in E. unfold stopped in Hstop.
    rewrite Hstop in E. discriminate.
Qed.

End Closed.

(** ** Indexing the archive again *)

Section Reindexing.

Variable rank : list float32 -> list PointStruct -> list PointStruct.
Variable percent : nat -> nat -> string.

Lemma quiet_log w msg : quiet w (set_trace (w_trace w ++ [EvPrintf msg]) w).
Proof. now apply quiet_emit. Qed.

Lemma index_QAs_without_store m total qas : forall i st w,
  VectorStore m = None ->
  exists st' w',
    index_QAs rank percent m total qas i 0 st w = (Ok (0, st'), w') /\ quiet w w'.
Proof.
  induction qas as [|qa qas IH]; intros i st w Hm; cbn [index_QAs].
  - exists st, w. split; [reflexivity | apply quiet_refl].
  - destruct (bool_decide (Question qa = "") || bool_decide (Answer qa = "")).
    + run. destruct (IH (S i) st (set_trace (w_trace w ++ [EvPrintf
               ("Skipping empty Q&A at index " +:+ show_nat i)]) w) Hm)
        as (st' & w' & E & Hq).
      rewrite E. exists st', w'. split; [reflexivity|].
      eapply quiet_trans; [apply quiet_log | exact Hq].
    + unfold Model_StoreQA. rewrite Hm. run.
      match goal with
      | |- context [index_QAs _ _ _ _ _ (S _) 0 ?ST ?W] =>
          destruct (IH (S i) ST W Hm) as (st' & w' & E & Hq)
      end.
      rewrite E. exists st', w'. split; [reflexivity|].
      eapply quiet_trans; [apply quiet_log | exact Hq].
Qed.

(** X19. Without a vector store [StoreCurrentQuestion] changes nothing: the
    collection, its records and the archive are as before, whatever the
    archive holds, and the status it leaves is never the one of a
    success. *)
Theorem StoreCurrentQuestion_without_store m w :
  VectorStore m = None ->
  exists st w',
    Model_StoreCurrentQuestion rank percent m w = (Ok st, w')
    /\ quiet w w'
    /\ (st = "No Q&A file found to index"
        \/ (exists err, st = "Failed to read Q&A file: " +:+ err)
        \/ (exists err, st = "Failed to parse Q&A file: " +:+ err)
        \/ st = "No Q&A pairs found to index"
        \/ st = "❌ No valid Q&A pairs were indexed").
Proof.
  intros Hm. unfold Model_StoreCurrentQuestion, os_Stat. run. proj.
  destruct (w_script w) as [|[|msg|msg] rest] eqn:Hs; run; proj;
    destruct (w_file w) as [[doc|raw]|] eqn:Hf;
    repeat (progress (run; proj; rewrite ?Hs, ?Hf)).
  all: try (destruct rest as [|[|msg'|msg'] rest'];
            repeat (progress (run; proj; rewrite ?Hf))).
  all: try (eexists _, _; split; [reflexivity|]; split; [solve_quiet | eauto 6]; fail).
  all: destruct (length (QAs doc) =? 0); run; proj;
      [ eexists _, _; split; [reflexivity|]; split; [solve_quiet | eauto 6] |].
  all: match goal with
       | |- context [index_QAs _ _ _ ?T ?Q 0 0 ?ST ?W] =>
           destruct (index_QAs_without_store m T Q 0 ST W Hm) as (st' & w' & E & Hq)
       end;
    rewrite E; cbn [fst Nat.ltb Nat.leb]; run; proj;
    eexists _, _; (split; [reflexivity|]); split;
    [ eapply quiet_trans; [|eapply quiet_trans; [exact Hq | apply quiet_log]]; solve_quiet
    | eauto 6 ].
Qed.


Lemma no_upsert_refl w : no_upsert w w.
Proof. split; [reflexivity|]. exists []. split; [now rewrite app_nil_r | constructor]. Qed.

Lemma no_upsert_trans w1 w2 w3 : no_upsert w1 w2 -> no_upsert w2 w3 -> no_upsert w1 w3.
Proof.
  intros (Hp & evs & Ht & Hf) (Hp' & evs' & Ht' & Hf'). split; [congruence|].
  exists (evs ++ evs'). split; [now rewrite Ht', Ht, app_assoc|].
  apply Forall_app. auto.
Qed.

Lemma quiet_no_upsert w w' : quiet w w' -> no_upsert w w'.
Proof.
  intros (Hp & _ & _ & evs & Ht & Hh). split; [exact Hp|]. exists evs. split; [exact Ht|].
  eapply Forall_impl; [exact Hh | apply harmless_not_upsert].
Qed.

Lemma index_QAs_visible m vs total qas : forall i n st w,
  VectorStore m = Some vs -> store_behaves vs ->
  (forall qa, qa ∈ qas -> indexable qa = true ->
              visible rank (Question qa) (Answer qa) (w_points w)) ->
  no_upsert w (snd (index_QAs rank percent m total qas i n st w)).
Proof.
  induction qas as [|qa qas IH]; intros i n st w Hm Hvs Hvis; cbn [index_QAs].
  - apply no_upsert_refl.
  - assert (Hrest : forall w', w_points w' = w_points w ->
              forall qa', qa' ∈ qas -> indexable qa' = true ->
                visible rank (Question qa') (Answer qa') (w_points w')).
    { intros w' Hp qa' Hin Hi. rewrite Hp. apply Hvis; [now apply list_elem_of_further | exact Hi]. }
    destruct (bool_decide (Question qa = "") || bool_decide (Answer qa = "")) eqn:Hidx.
    + run. eapply no_upsert_trans; [apply quiet_no_upsert, quiet_log|].
      apply IH; auto.
    + assert (Hv : visible rank (Question qa) (Answer qa) (w_points w)).
      { apply Hvis; [apply list_elem_of_here|]. unfold indexable. now rewrite Hidx. }
      pose proof (second_store rank vs m (Question qa) (Answer qa) w Hm Hvs Hv) as H2.
      run. destruct (Model_StoreQA rank m (Question qa) (Answer qa) w) as [[[]|err] w1].
      * destruct H2 as (Hp & Hev & _).
        eapply no_upsert_trans; [split; [exact Hp | exact Hev]|].
        apply IH; auto.
      * destruct H2 as (Hp & Hev & _). run.
        eapply no_upsert_trans; [split; [exact Hp | exact Hev]|].
        eapply no_upsert_trans; [apply quiet_no_upsert, quiet_log|].
        apply IH; auto.
Qed.

(** X20. [StoreCurrentQuestion] stores no pair again that the collection
    shows: when every entry of the archive with a question and an answer
    is among the candidates of its duplicate check, the records of the
    collection are as before and no upsert is attempted, whatever the
    server and the file system answer. *)
Theorem StoreCurrentQuestion_skips_visible_pairs m vs w :
  VectorStore m = Some vs -> store_behaves vs ->
  (forall qas qa, archive w = Ok qas -> qa ∈ qas -> indexable qa = true ->
                  visible rank (Question qa) (Answer qa) (w_points w)) ->
  w_points (snd (Model_StoreCurrentQuestion rank percent m w)) = w_points w
  /\ exists evs,
       w_trace (snd (Model_StoreCurrentQuestion rank percent m w)) = w_trace w ++ evs
       /\ Forall (fun ev => is_upsert ev = false) evs.
Proof.
  intros Hm Hvs Hvis.
  change (no_upsert w (snd (Model_StoreCurrentQuestion rank percent m w))).
  unfold Model_StoreCurrentQuestion, os_Stat. run. proj.
  destruct (w_script w) as [|[|msg|msg] rest] eqn:Hs; run; proj;
    destruct (w_file w) as [[doc|raw]|] eqn:Hf;
    repeat (progress (run; proj; rewrite ?Hs, ?Hf)).
  all: try (destruct rest as [|[|msg'|msg'] rest'];
            repeat (progress (run; proj; rewrite ?Hf))).
  all: try (apply quiet_no_upsert; solve_quiet; fail).
  all: assert (Ha : archive w = Ok (QAs doc)) by (unfold archive; now rewrite Hf).
  all: destruct (length (QAs doc) =? 0); run; proj;
    [ apply quiet_no_upsert; solve_quiet |].
  all: match goal with
       | |- context [index_QAs _ _ _ ?T ?Q 0 0 ?ST ?W] =>
           pose proof (index_QAs_visible m vs T Q 0 0 ST W Hm Hvs) as HI;
           destruct (index_QAs rank percent m T Q 0 0 ST W) as [[[n st']|e] w']
       end; cbn [snd fst] in *.
  all: try (destruct (0 <? n); run; proj).
  all: try (eapply no_upsert_trans; [|apply quiet_no_upsert, quiet_log]).
  all: try (eapply no_upsert_trans;
            [|apply HI; intros qa Hin Hi; proj; now apply (Hvis (QAs doc))]).
  all: apply quiet_no_upsert; solve_quiet.
Qed.

Lemma Model_StoreQA_fresh m vs q a w old :
  VectorStore m = Some vs -> embedder vs = Some Dummy ->
  (forall v ps p, p ∈ rank v ps -> p ∈ ps) ->
  w_script w = [] -> w_collection w = Some vectorSize ->
  duplicates q a (w_points w) = 0 ->
  archive w = Ok old ->
  exists id ts t w1,
    Model_StoreQA rank m q a w = (Ok tt, w1)
    /\ w_script w1 = [] /\ w_collection w1 = Some vectorSize
    /\ w_points w1
       = upsert_point (qa_point id (DummyEmbedder_vector q) q a ts) (w_points w)
    /\ w_file w1
       = Some (JSON {| QAs := old ++ [{| Question := q; Answer := a; Time := t |}] |}).
Proof.
  intros Hm He Hsound Hs Hc H0 Ha.
  assert (Hscan : forall v, scan_results q a
            (to_scored <$> take 5 (rank v (filter (fun p => has_keyword "type" "qa_pair" p = true)
                                             (w_points w)))) = false).
  { intros v. apply (no_duplicate_invisible rank q a (w_points w) v Hsound H0). }
  assert (Hlen : forall text, bool_decide (length (DummyEmbedder_vector text) = vectorSize) = true).
  { intros text. apply bool_decide_eq_true_2. apply DummyEmbedder_length. }
  unfold Model_StoreQA. rewrite Hm.
  unfold VectorStore_StoreQA, VectorStore_StoreVector, points_Upsert,
    VectorStore_QAExists, VectorStore_Embed, points_Search. rewrite He.
  unfold Dummy. cbn [Embed]. unfold DummyEmbedder_Embed.
  unfold archive in Ha.
  destruct (w_file w) as [[doc|raw]|] eqn:Hf; [|discriminate|]; injection Ha as <-.
  all: repeat (progress (run; proj; cbn [Vector]; rewrite ?Hs, ?Hc, ?Hlen, ?Hscan, ?Hf)).
  all: eexists _, _, _, _; split; [reflexivity|]; proj; repeat split; auto.
Qed.

Lemma qa_point_other_pair id qe q a ts q' a' :
  (q', a') <> (q, a) -> duplicate_of q' a' (qa_point id qe q a ts) = false.
Proof.
  intros Hne. unfold duplicate_of, has_keyword, result_matches, to_scored, qa_point.
  cbn [Payload sp_Payload].
  destruct (decide _) as [He|_].
  { pose proof (qa_payload_type q a ts) as Ht. rewrite He, lookup_empty in Ht. discriminate. }
  rewrite qa_payload_type, qa_payload_question, qa_payload_answer. cbn [GetStringValue].
  rewrite bool_decide_eq_true_2 by reflexivity. cbn [andb].
  destruct (bool_decide (q = q')) eqn:E1; [|reflexivity].
  destruct (bool_decide (a = a')) eqn:E2; [|reflexivity].
  apply bool_decide_eq_true_1 in E1, E2. subst. now destruct Hne.
Qed.

Lemma duplicates_upsert_other q a p ps :
  duplicate_of q a p = false -> duplicates q a ps = 0 ->
  duplicates q a (upsert_point p ps) = 0.
Proof.
  unfold duplicates. intros Hp. induction ps as [|p' ps IH]; simpl; intros H0.
  - rewrite filter_cons_False by (now rewrite Hp). reflexivity.
  - rewrite filter_cons in H0. destruct (decide (duplicate_of q a p' = true)) as [Hd|Hd];
      [discriminate|].
    destruct (bool_decide (Id p' = Id p)).
    + rewrite filter_cons_False by (now rewrite Hp). exact H0.
    + rewrite filter_cons_False by assumption. now apply IH.
Qed.

Lemma index_QAs_fresh m vs total qas : forall i n st w old,
  VectorStore m = Some vs -> embedder vs = Some Dummy ->
  (forall v ps p, p ∈ rank v ps -> p ∈ ps) ->
  w_script w = [] -> w_collection w = Some vectorSize ->
  archive w = Ok old ->
  NoDup (pairs_of qas) ->
  (forall qa, qa ∈ qas -> indexable qa = true ->
              duplicates (Question qa) (Answer qa) (w_points w) = 0) ->
  exists st' w' copies,
    index_QAs rank percent m total qas i n st w
    = (Ok (n + length (pairs_of qas), st'), w')
    /\ w_script w' = [] /\ w_collection w' = Some vectorSize
    /\ archive w' = Ok (old ++ copies)
    /\ (fun qa => (Question qa, Answer qa)) <$> copies = pairs_of qas.
Proof.
  induction qas as [|qa qas IH]; intros i n st w old Hm He Hsound Hs Hc Ha Hnd H0;
    cbn [index_QAs].
  - exists st, w, []. rewrite app_nil_r. cbn. rewrite Nat.add_0_r. auto.
  - unfold pairs_of in *.
    destruct (bool_decide (Question qa = "") || bool_decide (Answer qa = "")) eqn:Hidx.
    + rewrite filter_cons_False in * by (unfold indexable; now rewrite Hidx).
      run.
      destruct (IH (S i) n st (set_trace (w_trace w ++ [EvPrintf
                  ("Skipping empty Q&A at index " +:+ show_nat i)]) w) old)
        as (st' & w' & copies & E & R); auto.
      { intros qa' Hin Hi. proj. apply H0; [now apply list_elem_of_further | exact Hi]. }
      rewrite E. eauto 10.
    + assert (Hi : indexable qa = true) by (unfold indexable; now rewrite Hidx).
      rewrite filter_cons_True in * by exact Hi.
      rewrite fmap_cons in Hnd. apply NoDup_cons in Hnd as [Hnotin Hnd].
      destruct (Model_StoreQA_fresh m vs (Question qa) (Answer qa) w old Hm He Hsound Hs Hc)
        as (id & ts & t & w1 & E1 & Hs1 & Hc1 & Hp1 & Hf1); auto.
      { apply H0; [apply list_elem_of_here | exact Hi]. }
      run. rewrite E1.
      match goal with
      | |- context [index_QAs _ _ _ _ _ (S i) (S n) ?ST w1] =>
          destruct (IH (S i) (S n) ST w1
                      (old ++ [{| Question := Question qa; Answer := Answer qa; Time := t |}]))
            as (st' & w' & copies & E & Hs' & Hc' & Ha' & Hcp); auto
      end.
      { unfold archive. now rewrite Hf1. }
      { intros qa' Hin Hi'. rewrite Hp1. apply duplicates_upsert_other.
        - apply qa_point_other_pair. intros Heq. apply Hnotin.
          rewrite <- Heq.
          apply (list_elem_of_fmap_2 (fun qa => (Question qa, Answer qa))).
          apply list_elem_of_filter. auto.
        - apply H0; [now apply list_elem_of_further | exact Hi']. }
      rewrite E.
      exists st', w', ({| Question := Question qa; Answer := Answer qa; Time := t |} :: copies).
      split; [f_equal; f_equal; f_equal; rewrite fmap_cons; simpl; lia|].
      split; [exact Hs'|]. split; [exact Hc'|].
      split; [now rewrite Ha', <- app_assoc|].
      rewrite !fmap_cons. cbn. now rewrite Hcp.
Qed.

(** X21. Indexing the archive into a collection that holds none of its
    pairs writes every pair to the archive a second time.  With the test
    embedder, a reachable server and a file system that works, for an
    archive whose entries with a question and an answer are pairwise
    different: [StoreCurrentQuestion] reports all of them indexed, and the
    archive is then the old one followed by a copy of each of them, in
    order. *)
Theorem StoreCurrentQuestion_doubles_archive m vs w qas :
  VectorStore m = Some vs -> embedder vs = Some Dummy ->
  (forall v ps p, p ∈ rank v ps -> p ∈ ps) ->
  w_script w = [] -> w_collection w = Some vectorSize ->
  w_file w = Some (JSON {| QAs := qas |}) ->
  (forall qa, qa ∈ qas -> indexable qa = true ->
              duplicates (Question qa) (Answer qa) (w_points w) = 0) ->
  NoDup (pairs_of qas) ->
  pairs_of qas <> [] ->
  exists copies w',
    Model_StoreCurrentQuestion rank percent m w
    = (Ok ("✅ Successfully indexed " +:+ show_nat (length (pairs_of qas)) +:+ "/"
           +:+ show_nat (length qas) +:+ " Q&A pairs"), w')
    /\ archive w' = Ok (qas ++ copies)
    /\ (fun qa => (Question qa, Answer qa)) <$> copies = pairs_of qas.
Proof.
  intros Hm He Hsound Hs Hc Hf H0 Hnd Hne.
  assert (Hlen : (length qas =? 0) = false).
  { apply Nat.eqb_neq. intros Hz. apply length_zero_iff_nil in Hz. subst qas.
    now apply Hne. }
  unfold Model_StoreCurrentQuestion, os_Stat.
  repeat (progress (run; proj; rewrite ?Hs, ?Hf)). cbn [QAs]. rewrite Hlen.
  match goal with
  | |- context [index_QAs _ _ _ ?T ?Q 0 0 ?ST ?W] =>
      destruct (index_QAs_fresh m vs T Q 0 0 ST W qas)
        as (st' & w' & copies & E & Hs' & Hc' & Ha' & Hcp); auto
  end.
  { unfold archive. proj. now rewrite Hf. }
  run. rewrite E. cbn [fst Nat.add].
  assert (Hpos : (0 <? length (pairs_of qas)) = true).
  { apply Nat.ltb_lt. destruct (pairs_of qas); [now destruct Hne | simpl; lia]. }
  rewrite Hpos. run. proj.
  eexists copies, _. split; [reflexivity|]. split; [|exact Hcp].
  unfold archive in *. proj. exact Ha'.
Qed.

End Reindexing.

(** ** Answers of more than two chunks *)

Section Stall.
Variable rank : list float32 -> list PointStruct -> list PointStruct.
Variables (rc sc : nat) (first : string) (m0 : Model) (w0 : World) (n : nat).

Local Abbreviation Inv := (invariant rank rc sc first m0 w0).
Local Abbreviation Flow := (flowing rc sc n).

Lemma received_le v : received v <= 1.
Proof. destruct v; simpl; lia. Qed.

Lemma flowing_bound s :
  Flow s ->
  n <= 2 + nonempty_chunks (to_come (llm.pc (producer s)))
  /\ session_state s = Streaming.
Proof.
  intros (st & R & T & _ & _ & _ & _ & _ & _ & _ & Hlen & _ & _ & Hpc).
  pose proof (received_le (saver s)) as Hr. unfold session_state.
  destruct (llm.pc (producer s)) as [rest|c rest|c rest| |e| | |b]; try contradiction;
    cbn [to_come nonempty_chunks].
  - split; [lia | reflexivity].
  - destruct Hpc as [Hc ->]. rewrite bool_decide_eq_false_2 by exact Hc.
    split; [lia | reflexivity].
  - destruct Hpc as [Hc ->]. rewrite bool_decide_eq_false_2 by exact Hc.
    split; [lia | reflexivity].
Qed.

(** The producer, one step. *)
Lemma producer_flowing s pick p h spawn :
  Inv s -> Flow s ->
  llm.producer_step pick (producer s) (heap s) = Some (p, h, spawn) ->
  let s' := match spawn with
            | Some r => with_sender (Some r) (with_heap h (with_producer p s))
            | None => with_heap h (with_producer p s)
            end in
  stopped s' = true \/ n <= 2 \/ Flow s'.
Proof.
  intros [Hwire _] (st & R & T & Hst & Hmst & Hloop & Hsend & HR & HRo & Hcap & Hlen
                    & HT & HTo & Hpc).
  pose proof Hwire as (Hresp & Hpresp & Hpout & Hne & Hmodel & Hnext & Hvs & Hvp).
  pose proof (received_le (saver s)) as Hrec.
  unfold llm.producer_step.
  destruct (llm.pc (producer s)) as [[|c rest]|c rest|c rest| |e| | |b] eqn:Epc;
    try contradiction.
  - (* the service call returns *)
    intros [= <- <- <-]. cbn zeta. right. left. cbn [nonempty_chunks] in Hpc. lia.
  - (* the callback starts on a chunk *)
    destruct (can_recv (llm.stopCh (producer s)) (signals (heap s))) eqn:Hstop.
    { intros [= <- <- <-]. left. exact Hstop. }
    cbn [nonempty_chunks] in Hpc.
    destruct (bool_decide (c = "")) eqn:Hempty.
    { intros [= <- <- <-]. right. right.
      exists st, R, T. cbn. repeat split; auto. }
    apply bool_decide_eq_false_1 in Hempty.
    cbn [llm.localResponseCh llm.WriteString]. rewrite Hpresp.
    intros [= <- <- <-]. right. right.
    exists st, R, T. cbn. repeat split; auto.
  - (* the chunk goes to the response channel *)
    destruct Hpc as [Hc Hn]. rewrite Hpresp.
    destruct (llm.select_stop_or_send _ _ _ _ _ _) as [[cs|]| |msg] eqn:Hsel;
      [| | discriminate |].
    + intros [= <- <- <-]. apply select_sent in Hsel.
      destruct (send_at _ _ _ _ _ Hsel HR) as (Hl & HR').
      pose proof (send_other _ _ _ _ sc Hsel Hne) as HT'.
      right. right. eexists st, _, T. cbn.
      split; [exact Hst|]. split; [exact Hmst|]. split; [exact Hloop|].
      split; [exact Hsend|]. split; [exact HR'|]. cbn [closed cap buf].
      split; [reflexivity|]. split; [exact Hcap|].
      rewrite length_app. cbn [length].
      split; [lia|]. split; [now rewrite HT'|]. split; [exact HTo|].
      split; [exact Hc|]. lia.
    + intros [= <- <- <-]. apply select_stop_taken in Hsel. left. exact Hsel.
    + intros [= <- <- <-]. exfalso.
      unfold llm.select_stop_or_send in Hsel.
      destruct (_ && _); [discriminate|].
      destruct (can_send _ _); [|discriminate].
      unfold send in Hsel. rewrite HR, HRo in Hsel.
      destruct (_ <? _); discriminate.
  - (* the chunk goes to the token channel *)
    destruct Hpc as [Hc Hn]. rewrite Hpout.
    destruct (llm.select_stop_or_send _ _ _ _ _ _) as [[cs|]| |msg] eqn:Hsel;
      [| | discriminate |].
    + intros [= <- <- <-]. apply select_sent in Hsel.
      destruct (send_at _ _ _ _ _ Hsel HT) as (Hl & HT').
      pose proof (send_other _ _ _ _ rc Hsel (not_eq_sym Hne)) as HR'.
      right. right. eexists st, R, _. cbn.
      split; [exact Hst|]. split; [exact Hmst|]. split; [exact Hloop|].
      split; [exact Hsend|]. split; [now rewrite HR'|].
      split; [exact HRo|]. split; [exact Hcap|]. split; [exact Hlen|].
      split; [exact HT'|]. split; [reflexivity|]. exact Hn.
    + intros [= <- <- <-]. apply select_stop_taken in Hsel. left. exact Hsel.
    + intros [= <- <- <-]. exfalso.
      unfold llm.select_stop_or_send in Hsel.
      destruct (_ && _); [discriminate|].
      destruct (can_send _ _); [|discriminate].
      unfold send in Hsel. rewrite HT, HTo in Hsel.
      destruct (_ <? _); discriminate.
Qed.

(** [saveCmd], one step. *)
Lemma save_flowing s s' :
  Inv s -> Flow s -> step rank LSave s = Some s' -> Flow s'.
Proof.
  intros [Hwire _] (st & R & T & Hst & Hmst & Hloop & Hsend & HR & HRo & Hcap & Hlen
                    & HT & HTo & Hpc).
  pose proof Hwire as (Hresp & Hpresp & Hpout & Hne & Hmodel & Hnext & Hvs & Hvp).
  cbn [step]. unfold saveCmd_step. destruct (saver s) as [|v|v msg] eqn:Es; [| |discriminate].
  - rewrite Hresp.
    destruct (recv "" (Some rc) (strings (heap s))) as [[[v ok] cs]| |msg] eqn:Hr;
      [|discriminate..].
    pose proof (recv_other _ _ _ _ _ _ sc Hr Hne) as HT'.
    destruct (recv_at _ _ _ _ _ _ _ Hr HR) as [(rest & Hb & HR')|(Hb & _ & _)].
    + rewrite Hb in Hlen, Hpc. cbn [length received] in Hlen, Hpc.
      destruct (bool_decide (v = "")); intros [= <-];
        (eexists st, _, T; cbn;
         split; [exact Hst|]; split; [exact Hmst|]; split; [exact Hloop|];
         split; [exact Hsend|]; split; [exact HR'|]; cbn [closed cap buf];
         split; [exact HRo|]; split; [exact Hcap|]; split; [lia|];
         split; [now rewrite HT'|]; split; [exact HTo|]);
        (destruct (llm.pc (producer s)); try contradiction;
         [ lia | destruct Hpc as [Hc Hn]; split; [exact Hc | lia]
         | destruct Hpc as [Hc Hn]; split; [exact Hc | lia] ]).
    + unfold recv in Hr. rewrite HR, Hb, HRo in Hr. discriminate.
  - destruct (Model_StoreQA rank (model s) (question s) v (world s)) as [[[]|e] w];
      intros [= <-]; exists st, R, T; cbn; cbn [received] in Hpc; repeat split; auto.
Qed.

(** The polling command, one step. *)
Lemma next_flowing s s' pick :
  Inv s -> Flow s -> step rank (LNext pick) s = Some s' -> Flow s'.
Proof.
  intros [Hwire _] (st & R & T & Hst & Hmst & Hloop & Hsend & HR & HRo & Hcap & Hlen
                    & HT & HTo & Hpc).
  pose proof Hwire as (Hresp & Hpresp & Hpout & Hne & Hmodel & Hnext & Hvs & Hvp).
  cbn [step]. destruct (next s) as [[ch errCh]|] eqn:Hn; [|discriminate]. subst ch.
  unfold llm.NextTokenCmd.
  destruct (can_recv errCh (errors (heap s)) && _).
  - destruct (recv None errCh (errors (heap s))) as [[[[e|] ok] cs]| |msg];
      [| |discriminate..]; intros [= <-]; exists st, R, T; cbn; repeat split; auto.
  - destruct (can_recv (Some sc) (strings (heap s))); [|discriminate].
    destruct (recv "" (Some sc) (strings (heap s))) as [[[v ok] cs]| |msg] eqn:Hr;
      [|discriminate..].
    pose proof (recv_other _ _ _ _ _ _ rc Hr (not_eq_sym Hne)) as HR'.
    assert (exists T', cs !! sc = Some T' /\ closed T' = false) as (T' & HT' & HTo').
    { destruct (recv_at _ _ _ _ _ _ _ Hr HT) as [(rest & Hb & Hl)|(_ & _ & ->)]; eauto. }
    destruct ok; intros [= <-]; exists st, R, T'; cbn;
      (split; [exact Hst|]); (split; [exact Hmst|]); (split; [exact Hloop|]);
      (split; [exact Hsend|]); (split; [now rewrite HR'|]);
      repeat split; auto.
Qed.

(** The event loop, one step: it handles a message, or it closes the stop
    channel. *)
Lemma loop_flowing s s' :
  Flow s -> step rank LLoop s = Some s' -> stopped s' = true \/ Flow s'.
Proof.
  intros (st & R & T & Hst & Hmst & Hloop & Hsend & HR & HRo & Hcap & Hlen
          & HT & HTo & Hpc).
  cbn [step]. unfold loop_step. destruct (crashed s || quit s); [discriminate|].
  destruct Hloop as [Hl|[after Hl]]; rewrite Hl.
  - (* a message is handled *)
    destruct (inbox s) as [|msg rest]; [discriminate|].
    destruct msg as [t| |e|msg d|k|]; cbn [Update].
    + cbn [model with_model with_inbox StreamCh ErrCh set_Msg].
      destruct (StreamCh (model s)) as [ch|];
        [destruct (ErrCh (model s)) as [ech|]|];
        intros [= <-]; right; exists st, R, T; cbn; rewrite ?Hl; repeat split; eauto.
    + intros [= <-]. right. exists st, R, T. cbn. repeat split; eauto.
    + intros [= <-]. right. unfold handleStreamError.
      cbn [model with_model with_inbox ErrCh set_Streaming heap].
      destruct (ErrCh (model s)) as [ech|].
      * destruct (recv None (Some ech) (errors (heap s))) as [[[[e'|] ok] cs]| |msg];
          exists st, R, T; cbn; repeat split; eauto.
      * exists st, R, T; cbn; repeat split; eauto.
    + intros [= <-]. right. exists st, R, T. cbn. rewrite Hl. repeat split; eauto.
    + cbn [model with_inbox]. destruct (ScreenMode (model s)); [|discriminate].
      destruct (EditingModel (model s) || EditingAPIURL (model s)); [discriminate|].
      intros [= <-]. right. unfold handleKeyMsg. destruct k.
      * cbn [model with_inbox]. destruct (ui.Streaming (model s));
          exists st, R, T; cbn; rewrite ?Hl; repeat split; eauto.
      * exists st, R, T; cbn; repeat split; eauto.
    + intros [= <-]. right. exists st, R, T. cbn. rewrite Hl. repeat split; eauto.
  - (* the teardown closes the stop channel *)
    cbn [safeClose_stage]. unfold safeClose_StopCh. rewrite Hmst.
    destruct (close (Some st) (signals (heap s))) as [cs| |msg] eqn:Hcl; [|discriminate|].
    + cbn [Nat.ltb Nat.leb]. intros [= <-]. left. unfold stopped. cbn. rewrite Hst.
      unfold close in Hcl. destruct (signals (heap s) !! st) as [c|] eqn:Hc; [|discriminate].
      destruct (closed c); [discriminate|]. injection Hcl as <-.
      unfold can_recv. rewrite list_lookup_insert_eq by (now apply lookup_lt_Some in Hc).
      cbn. now destruct (buf c).
    + intros [= <-]. right. exists st, R, T. cbn. rewrite Hl. repeat split; eauto.
Qed.

Lemma step_flowing l s s' :
  Inv s -> Flow s -> step rank l s = Some s' -> stopped s' = true \/ n <= 2 \/ Flow s'.
Proof.
  intros HI HF Hs. destruct l as [pick| | |pick| |k].
  - cbn [step] in Hs.
    destruct (llm.producer_step pick (producer s) (heap s)) as [[[p h] spawn]|] eqn:E;
      [|discriminate].
    pose proof (producer_flowing s pick p h spawn HI HF E) as H. cbn zeta in H.
    destruct spawn; injection Hs as <-; exact H.
  - cbn [step] in Hs. destruct HF as (st & R & T & _ & _ & _ & Hsend & _).
    rewrite Hsend in Hs. discriminate.
  - right. right. now apply (save_flowing s).
  - right. right. now apply (next_flowing s s' pick).
  - destruct (loop_flowing s s' HF Hs); auto.
  - cbn [step] in Hs. destruct (crashed s || quit s); [discriminate|].
    injection Hs as <-. right. right.
    destruct HF as (st & R & T & HF). exists st, R, T. exact HF.
Qed.

Lemma run_flowing sched : forall s,
  Inv s -> stopped s = true \/ n <= 2 \/ Flow s ->
  stopped (run rank sched s) = true \/ n <= 2 \/ Flow (run rank sched s).
Proof.
  induction sched as [|l sched IH]; intros s HI H; [exact H|].
  cbn [run]. destruct (step rank l s) as [s'|] eqn:E; [|now apply IH].
  apply IH; [now apply (step_preserves rank rc sc first m0 w0 l s)|].
  destruct H as [H|[H|H]].
  - left. destruct (step_stop rank l s s' E) as [Hch Hsig].
    unfold stopped in *. rewrite Hch. now apply Hsig.
  - auto.
  - now apply (step_flowing l s).
Qed.

End Stall.

Section Stalled.
Variable rank : list float32 -> list PointStruct -> list PointStruct.

Lemma handleChatInput_flowing m h w chunks final s0 :
  StreamCh m = None ->
  handleChatInput m h w chunks final = Some s0 ->
  forall rc,
    responseCh s0 = Some rc ->
    flowing rc (length (strings h)) (nonempty_chunks chunks) s0.
Proof.
  intros Hk. unfold handleChatInput.
  destruct (bool_decide (TextInput m = "")); [discriminate|].
  unfold ensureChannels, make.
  destruct m as [ti msg mode lq vs vp mn sch ech stch str em ea]. cbn in Hk. subst sch.
  destruct ech as [ec|]; destruct stch as [st|]; cbn;
    intros H; injection H as H; subst s0; cbn; intros rc [= <-];
    eexists _, _, _; cbn;
    (split; [reflexivity|]); (split; [reflexivity|]); (split; [left; reflexivity|]);
    (split; [reflexivity|]);
    (split; [now apply list_lookup_middle|]); cbn;
    (split; [reflexivity|]); (split; [reflexivity|]); (split; [lia|]);
    (split; [rewrite lookup_app_l by (rewrite length_app; simpl; lia);
             now apply list_lookup_middle|]);
    split; reflexivity.
Qed.

(** X22. Of the chunks of an answer that are not empty, no more than two
    get as far as the token channel while the stop channel is open: the
    response channel holds one value, [saveCmd] takes one, and the
    producer waits there with the third.  So in a session started on a
    model without a token channel, in every schedule, an answer of three
    or more such chunks is never completed: the session is still
    streaming, unless it has been canceled. *)
Theorem answer_stalls_at_third_chunk m h w chunks final s0 sched :
  StreamCh m = None ->
  handleChatInput m h w chunks final = Some s0 ->
  stopped (run rank sched s0) = false ->
  nonempty_chunks chunks
  <= 2 + nonempty_chunks (to_come (llm.pc (producer (run rank sched s0))))
  /\ (3 <= nonempty_chunks chunks -> session_state (run rank sched s0) = Streaming).
Proof.
  intros Hk Hs0 Hns.
  destruct (handleChatInput_fresh rank m h w chunks final s0 Hk Hs0) as [[rc HI] _].
  assert (HF : flowing rc (length (strings h)) (nonempty_chunks chunks) s0).
  { apply (handleChatInput_flowing m h w chunks final s0 Hk Hs0). apply HI. }
  destruct (run_flowing rank rc _ _ m w _ sched s0 HI (or_intror (or_intror HF)))
    as [H|[H|H]].
  - rewrite H in Hns. discriminate.
  - split; lia.
  - destruct (flowing_bound rc _ _ _ H) as [Hb Hst]. split; [exact Hb | now intros _].
Qed.

End Stalled.

(** ** The dimension of what is stored *)













Section Dimension.
Variable rank : list float32 -> list PointStruct -> list PointStruct.





End Dimension.

(** ** An answer without text *)

Section Tokenless.
Variable rank : list float32 -> list PointStruct -> list PointStruct.










End Tokenless.


(** ** The properties at concrete inputs *)

Lemma EnsureCollection_again_witness :
  VectorStore_EnsureCollection plain_store vectorSize world_no_collection
  = (Ok tt, world_ensured)
  /\ w_script world_ensured = []
  /\ exists w2,
       VectorStore_EnsureCollection plain_store 3 world_ensured = (Ok tt, w2)
       /\ quiet world_ensured w2.
Proof.
  split; [reflexivity|]. split; [reflexivity|].
  apply (EnsureCollection_again plain_store vectorSize 3 world_no_collection world_ensured);
    reflexivity.
Defined.

Lemma ResetIndex_leaves_empty_collection_witness :
  w_script world_stored = []
  /\ length (w_points world_stored) = 1
  /\ exists w',
       VectorStore_ResetIndex dummy_store world_stored = (Ok tt, w')
       /\ w_collection w' = Some vectorSize /\ w_points w' = []
       /\ w_file w' = w_file world_stored.
Proof.
  split; [reflexivity|]. split; [reflexivity|].
  apply (ResetIndex_leaves_empty_collection dummy_store world_stored). reflexivity.
Defined.

Lemma ResetIndex_failure_witness :
  VectorStore_ResetIndex dummy_store world_create_down
  = (Err "failed to create collection 'askai_questions': unavailable", world_reset_failed)
  /\ ((w_collection world_reset_failed = w_collection world_create_down
       /\ w_points world_reset_failed = w_points world_create_down
       /\ ((exists msg,
              "failed to create collection 'askai_questions': unavailable"
              = Errorf_w "failed to delete collection" msg
              /\ isNotFoundError msg = false)
           \/ exists msg,
                "failed to create collection 'askai_questions': unavailable"
                = Errorf_w ("failed to create collection '"
                            +:+ collection dummy_store +:+ "'") msg))
      \/ (w_collection world_reset_failed = None /\ w_points world_reset_failed = []
          /\ exists msg,
               "failed to create collection 'askai_questions': unavailable"
               = Errorf_w ("failed to create collection '"
                           +:+ collection dummy_store +:+ "'") msg)).
Proof.
  split; [vm_compute; reflexivity|].
  apply (ResetIndex_failure dummy_store world_create_down
           "failed to create collection 'askai_questions': unavailable"
           world_reset_failed).
  vm_compute. reflexivity.
Defined.

Lemma SearchSimilarQuestions_results_witness :
  store_behaves dummy_store
  /\ match VectorStore_SearchSimilarQuestions rank_oldest_first dummy_store
             question1 3 world_stored with
     | (Ok rs, w') =>
         quiet world_stored w'
         /\ length rs <= Z.to_nat 3
         /\ Forall (fun r => exists p, p ∈ w_points world_stored
                                       /\ has_keyword "type" "qa_pair" p = true
                                       /\ r = to_scored p) rs
     | (Err e, w') =>
         quiet world_stored w'
         /\ ((exists msg, e = Errorf_w "failed to embed question" msg)
             \/ exists msg, e = Errorf_w "search failed" msg)
     end.
Proof.
  split; [exact dummy_store_behaves|].
  apply (SearchSimilarQuestions_results rank_oldest_first dummy_store question1 3
           world_stored dummy_store_behaves rank_oldest_first_sound).
  lia.
Defined.


Lemma DummyEmbedder_injective_witness :
  String.length question1 <= 1024
  /\ DummyEmbedder_vector question1 = DummyEmbedder_vector "What is AI?"
  /\ question1 = "What is AI?".
Proof.
  split; [vm_compute; lia|]. split; [reflexivity|].
  apply (DummyEmbedder_injective question1 "What is AI?"); [reflexivity | vm_compute; lia | reflexivity].
Defined.

Lemma DummyEmbedder_reads_1024_bytes_witness :
  String.length text_1024 = 1024
  /\ DummyEmbedder_vector (text_1024 +:+ question1)
     = DummyEmbedder_vector (text_1024 +:+ answer1).
Proof.
  split; [vm_compute; reflexivity|].
  apply (DummyEmbedder_reads_1024_bytes text_1024 question1 answer1).
  vm_compute. reflexivity.
Defined.

Lemma ensure_then_close_witness :
  safeCloseChannels (fst (ensureChannels model_torn_down no_channels))
                    (snd (ensureChannels model_torn_down no_channels))
  = Go (model_torn_down, heap_torn_down).
Proof.
  apply (ensure_then_close model_torn_down no_channels); reflexivity.
Defined.

Lemma tokens_shown_in_order_witness :
  strings (heap two_waiting) !! 0 = Some {| buf := two_chunks; cap := 64; closed := false |}
  /\ Msg (model two_waiting) = ""
  /\ Msg (model (run rank_oldest_first (polls [false; false]) two_waiting))
     = Msg (model two_waiting) +:+ concat_chunks two_chunks
  /\ strings (heap (run rank_oldest_first (polls [false; false]) two_waiting)) !! 0
     = Some {| buf := []; cap := 64; closed := false |}
  /\ next (run rank_oldest_first (polls [false; false]) two_waiting) = Some (Some 0, Some 0)
  /\ inbox (run rank_oldest_first (polls [false; false]) two_waiting) = []
  /\ crashed (run rank_oldest_first (polls [false; false]) two_waiting) = false.
Proof.
  split; [vm_compute; reflexivity|]. split; [vm_compute; reflexivity|].
  apply (tokens_shown_in_order rank_oldest_first two_chunks two_waiting 0 0
           {| buf := two_chunks; cap := 64; closed := false |} [false; false]);
    vm_compute; reflexivity.
Defined.

Lemma stream_error_display_witness :
  errors (heap stream_failed) !! 0
  = Some {| buf := [Some "connection reset"]; cap := 1; closed := false |}
  /\ inbox (run rank_oldest_first [LNext true] stream_failed)
     = [StreamErrMsg "connection reset"]
  /\ Msg (model (run rank_oldest_first [LNext true; LLoop] stream_failed))
     = "Error: An unknown error occurred during streaming"
  /\ ui.Streaming (model (run rank_oldest_first [LNext true; LLoop] stream_failed)) = false
  /\ loop (run rank_oldest_first [LNext true; LLoop] stream_failed) = Closing 0 Stay.
Proof.
  split; [vm_compute; reflexivity|].
  apply (proj1 (stream_error_display rank_oldest_first) stream_failed (Some 0) 0
           {| buf := [Some "connection reset"]; cap := 1; closed := false |}
           "connection reset");
    vm_compute; reflexivity.
Defined.

Lemma Esc_cancels_stream_witness :
  exists s',
    run rank_oldest_first [LKey KeyEsc; LLoop; LLoop; LLoop; LLoop]
      (session_start two_chunks None) = s'
    /\ quit s' = false /\ crashed s' = false /\ loop s' = Idle /\ inbox s' = []
    /\ ui.Streaming (model s') = false /\ Msg (model s') = ""
    /\ StopCh (model s') = None /\ ErrCh (model s') = None
    /\ StreamCh (model s') = None
    /\ signals (heap s') !! 0 = Some {| buf := []; cap := 0; closed := true |}
    /\ errors (heap s') !! 0 = Some {| buf := []; cap := 1; closed := true |}
    /\ strings (heap s') !! 0 = Some {| buf := []; cap := 64; closed := true |}
    /\ world s' = world (session_start two_chunks None)
    /\ producer s' = producer (session_start two_chunks None)
    /\ saver s' = saver (session_start two_chunks None).
Proof.
  apply (proj1 (Esc_cancels_stream rank_oldest_first) (session_start two_chunks None) 0 0 0
           {| buf := []; cap := 0; closed := false |}
           {| buf := []; cap := 1; closed := false |}
           {| buf := []; cap := 64; closed := false |});
    reflexivity.
Defined.

Lemma token_channel_closed_twice_witness :
  StreamCh asking = None
  /\ llm.pc (producer (run rank_oldest_first schedule_two_chunks
                         (session_start two_chunks None))) = llm.Exited false
  /\ StreamCh (model (run rank_oldest_first schedule_two_chunks
                        (session_start two_chunks None))) = Some 0
  /\ safeClose_stage 2
       (model (run rank_oldest_first schedule_two_chunks (session_start two_chunks None)))
       (heap (run rank_oldest_first schedule_two_chunks (session_start two_chunks None)))
     = Panic "close of closed channel".
Proof.
  split; [reflexivity|].
  assert (H : llm.pc (producer (run rank_oldest_first schedule_two_chunks
                                  (session_start two_chunks None))) = llm.Exited false)
    by (vm_compute; reflexivity).
  split; [exact H|].
  exact (proj1 (token_channel_closed_twice rank_oldest_first asking no_channels fresh_world
                  two_chunks None (session_start two_chunks None) schedule_two_chunks
                  eq_refl (handleChatInput_asking two_chunks None)) H).
Defined.

Lemma cancel_stops_producer_witness :
  stopped canceled_after_one = true
  /\ llm.pc (producer canceled_after_one) = llm.InChatStream ["stands "; "for "]
  /\ stopped (run rank_oldest_first [LSave; LSave] canceled_after_one) = true
  /\ between_chunks
       (llm.pc (producer (run rank_oldest_first [LSave; LSave] canceled_after_one))) = true
  /\ llm.fullResponse (producer (run rank_oldest_first [LSave; LSave] canceled_after_one))
     = llm.fullResponse (producer canceled_after_one)
  /\ session_state (run rank_oldest_first [LProducer false; LSave; LSave]
                      canceled_after_one) = Canceled.
Proof.
  assert (Hstop : stopped canceled_after_one = true) by (vm_compute; reflexivity).
  assert (Hpc : llm.pc (producer canceled_after_one) = llm.InChatStream ["stands "; "for "])
    by (vm_compute; reflexivity).
  assert (Hb : between_chunks (llm.pc (producer canceled_after_one)) = true)
    by (vm_compute; reflexivity).
  split; [exact Hstop|]. split; [exact Hpc|].
  pose proof (cancel_stops_producer rank_oldest_first canceled_after_one [LSave; LSave]
                Hstop Hb) as (H1 & H2 & H3 & H4).
  split; [exact H1|]. split; [exact H2|]. split; [exact H3|].
  exact (H4 "stands " ["for "] false Hpc).
Defined.

Lemma world_stored_archive_visible qas qa :
  archive world_stored = Ok qas -> qa ∈ qas -> indexable qa = true ->
  visible rank_oldest_first (Question qa) (Answer qa) (w_points world_stored).
Proof.
  intros Ha Hin _.
  assert (E : archive world_stored = Ok qas_stored) by (vm_compute; reflexivity).
  rewrite E in Ha. injection Ha as <-.
  apply list_elem_of_singleton in Hin. subst qa. exact world_stored_visible.
Qed.

Lemma StoreCurrentQuestion_without_store_witness :
  archive world_stored = Ok qas_stored
  /\ exists st w',
       Model_StoreCurrentQuestion rank_oldest_first percent_of_one model_torn_down world_stored
       = (Ok st, w')
       /\ quiet world_stored w'
       /\ (st = "No Q&A file found to index"
           \/ (exists err, st = "Failed to read Q&A file: " +:+ err)
           \/ (exists err, st = "Failed to parse Q&A file: " +:+ err)
           \/ st = "No Q&A pairs found to index"
           \/ st = "❌ No valid Q&A pairs were indexed").
Proof.
  split; [vm_compute; reflexivity|].
  apply (StoreCurrentQuestion_without_store rank_oldest_first percent_of_one
           model_torn_down world_stored).
  reflexivity.
Defined.

Lemma StoreCurrentQuestion_skips_visible_pairs_witness :
  archive world_stored = Ok qas_stored
  /\ w_points (snd (Model_StoreCurrentQuestion rank_oldest_first percent_of_one model0
                      world_stored))
     = w_points world_stored
  /\ exists evs,
       w_trace (snd (Model_StoreCurrentQuestion rank_oldest_first percent_of_one model0
                       world_stored))
       = w_trace world_stored ++ evs
       /\ Forall (fun ev => is_upsert ev = false) evs.
Proof.
  split; [vm_compute; reflexivity|].
  apply (StoreCurrentQuestion_skips_visible_pairs rank_oldest_first percent_of_one
           model0 dummy_store world_stored eq_refl dummy_store_behaves
           world_stored_archive_visible).
Defined.

Lemma StoreCurrentQuestion_doubles_archive_witness :
  w_points world_emptied = []
  /\ archive world_emptied = Ok qas_stored
  /\ exists copies w',
       Model_StoreCurrentQuestion rank_oldest_first percent_of_one model0 world_emptied
       = (Ok ("✅ Successfully indexed " +:+ show_nat (length (pairs_of qas_stored)) +:+ "/"
              +:+ show_nat (length qas_stored) +:+ " Q&A pairs"), w')
       /\ archive w' = Ok (qas_stored ++ copies)
       /\ (fun qa => (Question qa, Answer qa)) <$> copies = pairs_of qas_stored.
Proof.
  split; [reflexivity|]. split; [vm_compute; reflexivity|].
  apply (StoreCurrentQuestion_doubles_archive rank_oldest_first percent_of_one
           model0 dummy_store world_emptied qas_stored eq_refl eq_refl
           rank_oldest_first_sound).
  - reflexivity.
  - reflexivity.
  - vm_compute. reflexivity.
  - intros qa _ _. reflexivity.
  - vm_compute. apply NoDup_singleton.
  - vm_compute. discriminate.
Defined.

Lemma answer_stalls_at_third_chunk_witness :
  StreamCh asking = None
  /\ stopped (run rank_oldest_first schedule_three_chunks
                (session_start three_chunks None)) = false
  /\ Msg (model (run rank_oldest_first schedule_three_chunks
                   (session_start three_chunks None))) = "AI stands "
  /\ llm.pc (producer (run rank_oldest_first schedule_three_chunks
                         (session_start three_chunks None)))
     = llm.SendResponse "for " []
  /\ nonempty_chunks three_chunks
     <= 2 + nonempty_chunks
              (to_come (llm.pc (producer (run rank_oldest_first schedule_three_chunks
                                            (session_start three_chunks None)))))
  /\ session_state (run rank_oldest_first schedule_three_chunks
                      (session_start three_chunks None)) = Streaming.
Proof.
  split; [reflexivity|].
  assert (Hns : stopped (run rank_oldest_first schedule_three_chunks
                           (session_start three_chunks None)) = false)
    by (vm_compute; reflexivity).
  split; [exact Hns|]. split; [vm_compute; reflexivity|]. split; [vm_compute; reflexivity|].
  destruct (answer_stalls_at_third_chunk rank_oldest_first asking no_channels fresh_world
              three_chunks None (session_start three_chunks None) schedule_three_chunks
              eq_refl (handleChatInput_asking three_chunks None) Hns) as [H1 H2].
  split; [exact H1|]. apply H2. vm_compute. lia.
Defined.




